(** * Octree colour quantizer: a shallow embedding of [octree_quantizer.py]

    The Python module keeps three kinds of mutable state:
    - the class attribute [OctreeQuantizer.MAX_DEPTH], shared by every
      quantizer and every node;
    - [OctreeNode] objects, referenced both from their parent's
      [children] slots and from the level registry of the quantizer;
    - the [levels] dictionary of each quantizer.

    The embedding keeps node objects in a store (a list indexed by
    address, allocation appends), so that a node mutated through the
    registry is the node later read through the tree.  The class attribute
    lives in the same [World] record.  A quantizer is a record that is
    passed explicitly. *)

From Stdlib Require Import ZArith Lia.
From stdpp Require Import base option list gmap sorting.

Local Open Scope Z_scope.

(** ** Outcomes of a call *)

Inductive exn : Type :=
  | KeyError (key : Z)
  | ZeroDivisionError.

(** [Ret] is a normal return, [Raise] a Python exception (what the
    store looks like when it is raised is not kept).  [Stuck] does not
    exist in Python: it is the outcome of the embedding when the
    recursion budget is used up or an address is not in the store. *)
Inductive result (A : Type) : Type :=
  | Ret (a : A)
  | Raise (e : exn)
  | Stuck.
Arguments Ret {A} a.
Arguments Raise {A} e.
Arguments Stuck {A}.

Definition bind {A B : Type} (m : result A) (k : A → result B) : result B :=
  match m with
  | Ret a => k a
  | Raise e => Raise e
  | Stuck => Stuck
  end.

Definition lift {A : Type} (o : option A) : result A :=
  match o with
  | Some a => Ret a
  | None => Stuck
  end.

Notation "'do' x <- m ; k" := (bind m (fun x => k))
  (at level 10, x pattern, m at level 100, k at level 200).

(** What a Python function returning an index hands back: an [int], or
    [None] when the body falls off its end. *)
Inductive pyval : Type :=
  | PyNone
  | PyInt (z : Z).

(** ** Data *)

Record Color : Type := mkColor {
  red : Z;
  green : Z;
  blue : Z;
  alpha : option Z
}.

(** [Color(r, g, b)]: alpha defaults to [None]. *)
Definition Color_init (r g b : Z) : Color := mkColor r g b None.

(** Addresses of node objects in the store. *)
Abbreviation addr := nat (only parsing).

Record OctreeNode : Type := mkNode {
  color : Color;
  pixel_count : Z;
  palette_index : Z;
  children : list (option addr)
}.

Record World : Type := mkWorld {
  MAX_DEPTH : Z;
  heap : list OctreeNode
}.

Record OctreeQuantizer : Type := mkQuantizer {
  levels : gmap Z (list addr);
  root : addr
}.

(** Python's [range(n)]. *)
Definition range (n : nat) : list nat := seq 0 n.
Arguments range : simpl never.

(** The module as loaded: [MAX_DEPTH = 8], no object allocated. *)
Definition world0 : World := mkWorld 8 [].

(** [self.children[i]] as a truth value: the child, or nothing.  Every
    index the code computes is one of 0..7 and every node has eight
    slots, so the [IndexError] of Python is left out: an index beyond
    the list reads as an empty slot. *)
Definition child (n : OctreeNode) (i : nat) : option addr :=
  match children n !! i with
  | Some (Some c) => Some c
  | _ => None
  end.

(** ** OctreeNode *)

Definition is_leaf (n : OctreeNode) : bool := 0 <? pixel_count n.

(** [level] only takes the values 0, 1, 2, ... (the quantizer starts every
    descent at 0 and the recursion adds 1), hence [nat]. *)
Definition get_color_index_for_level (c : Color) (level : nat) : Z :=
  let index := 0 in
  let mask := Z.shiftr 128 (Z.of_nat level) in
  let index := if Z.land (red c) mask =? 0 then index else Z.lor index 4 in
  let index := if Z.land (green c) mask =? 0 then index else Z.lor index 2 in
  let index := if Z.land (blue c) mask =? 0 then index else Z.lor index 1 in
  index.

Definition slot (c : Color) (level : nat) : nat :=
  Z.to_nat (get_color_index_for_level c level).

Definition fresh_node : OctreeNode :=
  mkNode (Color_init 0 0 0) 0 0 (replicate 8 None).

(** [OctreeQuantizer.add_level_node]: [self.levels[level].append(node)]. *)
Definition add_level_node (lv : gmap Z (list addr)) (level : nat) (node : addr)
  : result (gmap Z (list addr)) :=
  match lv !! Z.of_nat level with
  | Some l => Ret (<[Z.of_nat level := l ++ [node]]> lv)
  | None => Raise (KeyError (Z.of_nat level))
  end.

(** [OctreeNode.__init__(level, parent)].  Of the quantizer [parent] only
    the registry is touched, so the registry stands for it. *)
Definition OctreeNode_init (level : nat) (parent : gmap Z (list addr)) (w : World)
  : result (addr * gmap Z (list addr) * World) :=
  let self := length (heap w) in
  let w' := mkWorld (MAX_DEPTH w) (heap w ++ [fresh_node]) in
  if Z.of_nat level <? MAX_DEPTH w - 1 then
    do parent' <- add_level_node parent level self;
    Ret (self, parent', w')
  else Ret (self, parent, w').

Definition set_node (w : World) (a : addr) (n : OctreeNode) : World :=
  mkWorld (MAX_DEPTH w) (<[a := n]> (heap w)).

Definition absorb (n : OctreeNode) (c : Color) : OctreeNode :=
  mkNode (mkColor (red (color n) + red c) (green (color n) + green c)
                  (blue (color n) + blue c) (alpha (color n)))
         (pixel_count n + 1) (palette_index n) (children n).

Definition set_child (n : OctreeNode) (i : nat) (c : addr) : OctreeNode :=
  mkNode (color n) (pixel_count n) (palette_index n) (<[i := Some c]> (children n)).

(** [OctreeNode.add_color(color, level, parent)]. *)
Fixpoint Node_add_color (fuel : nat) (self : addr) (c : Color) (level : nat)
    (parent : gmap Z (list addr)) (w : World) : result (gmap Z (list addr) * World) :=
  match fuel with
  | O => Stuck
  | S fuel' =>
    do n <- lift (heap w !! self);
    if MAX_DEPTH w <=? Z.of_nat level then
      Ret (parent, set_node w self (absorb n c))
    else
      let index := slot c level in
      match child n index with
      | Some k => Node_add_color fuel' k c (S level) parent w
      | None =>
        do (k, parent', w') <- OctreeNode_init level parent w;
        let w'' := set_node w' self (set_child n index k) in
        Node_add_color fuel' k c (S level) parent' w''
      end
  end.

(** [OctreeNode.get_leaf_nodes]. *)
Fixpoint get_leaf_nodes (fuel : nat) (h : list OctreeNode) (self : addr)
  : option (list addr) :=
  match fuel with
  | O => None
  | S fuel' =>
    n ← h !! self;
    foldl (fun acc i =>
             leaf_nodes ← acc;
             match child n i with
             | None => Some leaf_nodes
             | Some k =>
               node ← h !! k;
               if is_leaf node then Some (leaf_nodes ++ [k])
               else more ← get_leaf_nodes fuel' h k; Some (leaf_nodes ++ more)
             end)
          (Some []) (range 8)
  end.

(** The first child found by [for i in range(8): if self.children[i]]. *)
Fixpoint first_child (n : OctreeNode) (slots : list nat) : option addr :=
  match slots with
  | [] => None
  | i :: slots' =>
    match child n i with
    | Some k => Some k
    | None => first_child n slots'
    end
  end.

(** [OctreeNode.get_palette_index(color, level)]. *)
Fixpoint Node_get_palette_index (fuel : nat) (h : list OctreeNode) (self : addr)
    (c : Color) (level : nat) : option pyval :=
  match fuel with
  | O => None
  | S fuel' =>
    n ← h !! self;
    if is_leaf n then Some (PyInt (palette_index n))
    else
      let index := slot c level in
      match child n index with
      | Some k => Node_get_palette_index fuel' h k c (S level)
      | None =>
        match first_child n (range 8) with
        | Some k => Node_get_palette_index fuel' h k c (S level)
        | None => Some PyNone
        end
      end
  end.

Definition fold_child (n node : OctreeNode) : OctreeNode :=
  mkNode (mkColor (red (color n) + red (color node))
                  (green (color n) + green (color node))
                  (blue (color n) + blue (color node)) (alpha (color n)))
         (pixel_count n + pixel_count node) (palette_index n) (children n).

(** One turn of the loop of [remove_leaves]; [self] and the child are
    read from the store as it is at that turn. *)
Definition remove_leaves_step (self : addr) (st : option (Z * list OctreeNode))
    (i : nat) : option (Z * list OctreeNode) :=
  '(result, h) ← st;
  n ← h !! self;
  match child n i with
  | None => Some (result, h)
  | Some k =>
    node ← h !! k;
    Some (result + 1, <[self := fold_child n node]> h)
  end.

(** [OctreeNode.remove_leaves]. *)
Definition remove_leaves (h : list OctreeNode) (self : addr)
  : option (Z * list OctreeNode) :=
  '(result, h') ← foldl (remove_leaves_step self) (Some (0, h)) (range 8);
  Some (result - 1, h').

(** [OctreeNode.get_color]; [//] is floor division, as [Z.div]. *)
Definition get_color (n : OctreeNode) : result Color :=
  if pixel_count n =? 0 then Raise ZeroDivisionError
  else Ret (Color_init (red (color n) / pixel_count n)
                       (green (color n) / pixel_count n)
                       (blue (color n) / pixel_count n)).

(** ** OctreeQuantizer *)

(** [{i: [] for i in range(n)}]. *)
Definition empty_levels (n : Z) : gmap Z (list addr) :=
  list_to_map (map (fun i => (Z.of_nat i, [])) (range (Z.to_nat n))).

(** [OctreeQuantizer.__init__(max_depth)]. *)
Definition OctreeQuantizer_init (max_depth : Z) (w : World) : result (OctreeQuantizer * World) :=
  let w1 := mkWorld max_depth (heap w) in
  let lv := empty_levels (MAX_DEPTH w1) in
  do (r, lv', w2) <- OctreeNode_init 0 lv w1;
  Ret (mkQuantizer lv' r, w2).

(** Budget of the tree walks: no walk in a store whose children were
    allocated after their parents is longer than the store. *)
Definition get_leaves (q : OctreeQuantizer) (w : World) : result (list addr) :=
  lift (get_leaf_nodes (S (length (heap w))) (heap w) (root q)).

(** [OctreeQuantizer.add_color(color)]. *)
Definition add_color (q : OctreeQuantizer) (c : Color) (w : World)
  : result (OctreeQuantizer * World) :=
  do (lv, w') <- Node_add_color (S (Z.to_nat (MAX_DEPTH w))) (root q) c 0 (levels q) w;
  Ret (mkQuantizer lv (root q), w').

(** The inner loop of the reduction: [for node in self.levels[level]]
    with its [break]. *)
Fixpoint reduce_level (nodes : list addr) (leaf_count color_count : Z)
    (h : list OctreeNode) : option (Z * list OctreeNode) :=
  match nodes with
  | [] => Some (leaf_count, h)
  | node :: rest =>
    '(r, h') ← remove_leaves h node;
    let leaf_count := leaf_count - r in
    if leaf_count <=? color_count then Some (leaf_count, h')
    else reduce_level rest leaf_count color_count h'
  end.

(** The outer loop: [for level in range(MAX_DEPTH - 1, -1, -1)]. *)
Fixpoint reduce_levels (order : list Z) (leaf_count color_count : Z)
    (lv : gmap Z (list addr)) (h : list OctreeNode)
  : result (Z * gmap Z (list addr) * list OctreeNode) :=
  match order with
  | [] => Ret (leaf_count, lv, h)
  | level :: order' =>
    match lv !! level with
    | None => Raise (KeyError level)
    | Some [] => reduce_levels order' leaf_count color_count lv h
    | Some nodes =>
      do (leaf_count, h') <- lift (reduce_level nodes leaf_count color_count h);
      if leaf_count <=? color_count then Ret (leaf_count, lv, h')
      else reduce_levels order' leaf_count color_count (<[level := []]> lv) h'
    end
  end.

(** [range(n - 1, -1, -1)]. *)
Definition down_range (n : Z) : list Z :=
  map Z.of_nat (rev (range (Z.to_nat n))).

Definition set_palette_index (n : OctreeNode) (i : Z) : OctreeNode :=
  mkNode (color n) (pixel_count n) i (children n).

(** The palette loop: [for node in self.get_leaves()]. *)
Fixpoint build_palette (leaves : list addr) (palette : list Color)
    (palette_index color_count : Z) (h : list OctreeNode)
  : result (list Color * list OctreeNode) :=
  match leaves with
  | [] => Ret (palette, h)
  | node :: rest =>
    if color_count <=? palette_index then Ret (palette, h)
    else
      do n <- lift (h !! node);
      do palette <- (if is_leaf n
                     then do c <- get_color n; Ret (palette ++ [c])
                     else Ret palette);
      let h := <[node := set_palette_index n palette_index]> h in
      build_palette rest palette (palette_index + 1) color_count h
  end.

(** [OctreeQuantizer.make_palette(color_count)]. *)
Definition make_palette (q : OctreeQuantizer) (color_count : Z) (w : World)
  : result (list Color * OctreeQuantizer * World) :=
  do leaves <- get_leaves q w;
  let leaf_count := Z.of_nat (length leaves) in
  do (_, lv, h) <- reduce_levels (down_range (MAX_DEPTH w)) leaf_count color_count
                                  (levels q) (heap w);
  let q' := mkQuantizer lv (root q) in
  let w' := mkWorld (MAX_DEPTH w) h in
  do leaves <- get_leaves q' w';
  do (palette, h') <- build_palette leaves [] 0 color_count h;
  Ret (palette, q', mkWorld (MAX_DEPTH w) h').

(** [OctreeQuantizer.get_palette_index(color)]. *)
Definition get_palette_index (q : OctreeQuantizer) (c : Color) (w : World) : result pyval :=
  lift (Node_get_palette_index (S (length (heap w))) (heap w) (root q) c 0).

(** Building: construct, then add the colours in order. *)
Fixpoint add_colors (q : OctreeQuantizer) (cs : list Color) (w : World)
  : result (OctreeQuantizer * World) :=
  match cs with
  | [] => Ret (q, w)
  | c :: cs' => do (q', w') <- add_color q c w; add_colors q' cs' w'
  end.

Definition build (max_depth : Z) (cs : list Color) : result (OctreeQuantizer * World) :=
  do (q, w) <- OctreeQuantizer_init max_depth world0;
  add_colors q cs w.

(** ** Vocabulary of the proofs *)

(** The node reached from [a] through the child slots [p]. *)
Fixpoint walk (h : list OctreeNode) (a : addr) (p : list nat) : option addr :=
  match p with
  | [] => Some a
  | i :: p' => n ← h !! a; k ← child n i; walk h k p'
  end.

(** The slots a colour selects at the levels [from], [from + 1], ... *)
Definition color_path (c : Color) (from len : nat) : list nat :=
  map (slot c) (seq from len).

(** The children a [for i in range(8)] loop finds, in slot order. *)
Definition existing_children (n : OctreeNode) : list addr :=
  omap (child n) (range 8).

(** A store as allocation leaves it: eight slots per node, children
    allocated after their parent, one parent per child. *)
Record heap_ok (h : list OctreeNode) : Prop := {
  ok_slots : ∀ a n, h !! a = Some n → length (children n) = 8%nat;
  ok_order : ∀ a n i k, h !! a = Some n → child n i = Some k → (a < k < length h)%nat;
  ok_parent : ∀ a b na nb i j k,
      h !! a = Some na → h !! b = Some nb →
      child na i = Some k → child nb j = Some k → a = b ∧ i = j
}.

(** The node at which the descent of [get_palette_index] stops
    ([Some None]: the descent ran into a node without children). *)
Fixpoint Node_descend (fuel : nat) (h : list OctreeNode) (self : addr)
    (c : Color) (level : nat) : option (option addr) :=
  match fuel with
  | O => None
  | S fuel' =>
    n ← h !! self;
    if is_leaf n then Some (Some self)
    else
      match child n (slot c level) with
      | Some k => Node_descend fuel' h k c (S level)
      | None =>
        match first_child n (range 8) with
        | Some k => Node_descend fuel' h k c (S level)
        | None => Some None
        end
      end
  end.

Definition descent_end (q : OctreeQuantizer) (c : Color) (w : World) : option (option addr) :=
  Node_descend (S (length (heap w))) (heap w) (root q) c 0.

(** Follows the specification's wording: [bit(v, n)] extracts bit [n] of
    [v], and the branch index is
    [(bit(red, 7 - level) << 2) | (bit(green, 7 - level) << 1) | bit(blue, 7 - level)]. *)
Definition bit (v n : Z) : Z := Z.b2z (Z.testbit v n).

Definition branchIndex (c : Color) (level : nat) : Z :=
  Z.lor (Z.lor (Z.shiftl (bit (red c) (7 - Z.of_nat level)) 2)
               (Z.shiftl (bit (green c) (7 - Z.of_nat level)) 1))
        (bit (blue c) (7 - Z.of_nat level)).

(** What slot [i] of [n] adds to the enumeration of leaves; [rec] is the
    enumeration below a child. *)
Definition leaf_contrib (rec : addr → option (list addr)) (h : list OctreeNode)
    (n : OctreeNode) (i : nat) : option (list addr) :=
  match child n i with
  | None => Some []
  | Some k => node ← h !! k; if is_leaf node then Some [k] else rec k
  end.

(** [reaches_leaf h x a]: the enumeration of leaves started at [x]
    arrives at the leaf [a], every node between them being no leaf. *)
Inductive reaches_leaf (h : list OctreeNode) : addr → addr → Prop :=
  | reaches_child x n i k node :
      h !! x = Some n → child n i = Some k → h !! k = Some node →
      is_leaf node = true → reaches_leaf h x k
  | reaches_below x n i k node a :
      h !! x = Some n → child n i = Some k → h !! k = Some node →
      is_leaf node = false → reaches_leaf h k a → reaches_leaf h x a.

(** [passes h x y]: the enumeration of leaves started at [x] recurses
    into [y], a node below [x] that is no leaf. *)
Inductive passes (h : list OctreeNode) : addr → addr → Prop :=
  | passes_child x n i k node :
      h !! x = Some n → child n i = Some k → h !! k = Some node →
      is_leaf node = false → passes h x k
  | passes_below x n i k node y :
      h !! x = Some n → child n i = Some k → h !! k = Some node →
      is_leaf node = false → passes h k y → passes h x y.

Definition same_children (n n' : OctreeNode) : Prop := children n' = children n.

(** The node [n] after the nodes at [ks] were folded into it. *)
Definition absorbed (h : list OctreeNode) (n : OctreeNode) (ks : list addr) : OctreeNode :=
  foldl (fun acc k => match h !! k with Some node => fold_child acc node | None => acc end) n ks.

(** Enumeration and descent only look at the slots and at which nodes
    are leaves. *)
Definition same_tree (n n' : OctreeNode) : Prop :=
  children n' = children n ∧ is_leaf n' = is_leaf n.

(** Sum of a field over the nodes at [ks]. *)
Definition total (f : OctreeNode → Z) (h : list OctreeNode) (ks : list addr) : Z :=
  foldr (fun k s => match h !! k with Some node => f node + s | None => s end) 0 ks.

(** What reduction does to a node: the slots and the palette index
    stay, the pixel count does not shrink. *)
Definition grows (n n' : OctreeNode) : Prop :=
  children n' = children n ∧ palette_index n' = palette_index n
  ∧ pixel_count n ≤ pixel_count n'.

Definition counted (n : OctreeNode) : Prop := 0 ≤ pixel_count n.

(** What the registry must look like for the root to stay uncounted
    while the levels [rng] are reduced: a list holds the root at its
    head only, and then no other list holds it, or it holds neither the
    root nor a child of the root. *)
Definition root_guard (r : addr) (kids : list addr) (rng : list Z)
    (lv : gmap Z (list addr)) : Prop :=
  ∀ j l, j ∈ rng → lv !! j = Some l →
    ((r ∉ l) ∧ ∀ k, k ∈ kids → k ∉ l)
    ∨ (∃ rest, l = r :: rest ∧ (r ∉ rest)
               ∧ ∀ j' l', j' ∈ rng → j' ≠ j → lv !! j' = Some l' → r ∉ l').

(** Facts about the whole store. *)
Record static (D : Z) (r : addr) (w : World) : Prop := {
  st_depth : MAX_DEPTH w = D;
  st_ok : heap_ok (heap w);
  st_root : (r < length (heap w))%nat;
  st_palette : Forall (fun n => palette_index n = 0) (heap w);
  st_counted : Forall counted (heap w)
}.

(** No node lies deeper than [D], and above depth [D] nothing is counted. *)
Definition depth_ok (D : Z) (r : addr) (h : list OctreeNode) : Prop :=
  ∀ p a n, walk h r p = Some a → h !! a = Some n →
    Z.of_nat (length p) ≤ D ∧ (Z.of_nat (length p) < D → pixel_count n = 0).

(** Every node but [x] and the root leads on to a node of depth [D]
    that has absorbed a colour. *)
Definition full_but (D : Z) (r : addr) (h : list OctreeNode) (x : addr) : Prop :=
  ∀ p a n, walk h r p = Some a → h !! a = Some n → a ≠ x →
    (p ≠ [] → Z.of_nat (length p) < D → ∃ i k, child n i = Some k)
    ∧ (Z.of_nat (length p) = D → 0 < pixel_count n).

(** The registry: key [j] holds the nodes of depth [j + 1] that are no
    deeper than [D - 1], in order of allocation; key [0] holds the root
    before them (when [1 < D]). *)
Definition reg_ok (D : Z) (r : addr) (lv : gmap Z (list addr)) (h : list OctreeNode) : Prop :=
  ∀ j : nat, Z.of_nat j < D →
    ∃ l, lv !! Z.of_nat j = Some ((if decide (j = 0%nat ∧ 1 < D) then [r] else []) ++ l)
         ∧ StronglySorted lt l
         ∧ ∀ a, a ∈ l ↔ (Z.of_nat j + 1 < D ∧ ∃ p, length p = S j ∧ walk h r p = Some a).

Record inv (D : Z) (r : addr) (lv : gmap Z (list addr)) (w : World) (x : addr) : Prop := {
  inv_static : static D r w;
  inv_depth : depth_ok D r (heap w);
  inv_reg : reg_ok D r lv (heap w);
  inv_full : full_but D r (heap w) x
}.

(** What the palette loop leaves alone. *)
Definition indexed (n n' : OctreeNode) : Prop :=
  children n' = children n ∧ pixel_count n' = pixel_count n ∧ color n' = color n.

(** A store that differs from [h] at [self] only, where the slots are
    the same. *)
Definition patched (h h' : list OctreeNode) (self : addr) : Prop :=
  length h' = length h
  ∧ (∀ a, a ≠ self → h' !! a = h !! a)
  ∧ ∀ n n', h !! self = Some n → h' !! self = Some n' → children n' = children n.

(** ** The scenarios of the test plan *)

Definition black : Color := Color_init 0 0 0.
Definition near_black : Color := Color_init 1 1 1.
Definition white : Color := Color_init 255 255 255.
Definition near_white : Color := Color_init 254 254 254.

(** Four colours, a palette of two, four lookups. *)
Definition scenario_four_colors : result (list Color * list pyval) :=
  do (q, w) <- build 8 [black; near_black; white; near_white];
  do (palette, q, w) <- make_palette q 2 w;
  do i1 <- get_palette_index q black w;
  do i2 <- get_palette_index q near_black w;
  do i3 <- get_palette_index q white w;
  do i4 <- get_palette_index q near_white w;
  Ret (palette, [i1; i2; i3; i4]).

(** One quantizer of depth 8: two colours, a palette of two, and the
    lookups of the two colours. *)
Definition scenario_one_quantizer : result (list Color * list pyval) :=
  do (q1, w) <- OctreeQuantizer_init 8 world0;
  do (q1, w) <- add_colors q1 [black; white] w;
  do (palette, q1, w) <- make_palette q1 2 w;
  do i1 <- get_palette_index q1 black w;
  do i2 <- get_palette_index q1 white w;
  Ret (palette, [i1; i2]).

(** The same calls on the first quantizer after a second quantizer of
    depth [max_depth] was constructed. *)
Definition scenario_two_quantizers (max_depth : Z) : result (list Color * list pyval) :=
  do (q1, w) <- OctreeQuantizer_init 8 world0;
  do (_, w) <- OctreeQuantizer_init max_depth w;
  do (q1, w) <- add_colors q1 [black; white] w;
  do (palette, q1, w) <- make_palette q1 2 w;
  do i1 <- get_palette_index q1 black w;
  do i2 <- get_palette_index q1 white w;
  Ret (palette, [i1; i2]).

(** The store after [build 2 [black; Color(64, 64, 64)]]: the root, its
    child, and two leaves below that child. *)
Definition small_heap : list OctreeNode :=
  [ mkNode (Color_init 0 0 0) 0 0
           [Some 1%nat; None; None; None; None; None; None; None];
    mkNode (Color_init 0 0 0) 0 0
           [Some 2%nat; None; None; None; None; None; None; Some 3%nat];
    mkNode (Color_init 0 0 0) 1 0 (replicate 8 None);
    mkNode (Color_init 64 64 64) 1 0 (replicate 8 None) ].

(** ** Further functions of the source *)

(** [OctreeNode.get_nodes_pixel_count]. *)
Definition get_nodes_pixel_count (h : list OctreeNode) (self : addr) : option Z :=
  n ← h !! self;
  foldl (fun acc i =>
           sum_count ← acc;
           match child n i with
           | None => Some sum_count
           | Some k => node ← h !! k; Some (sum_count + pixel_count node)
           end)
        (Some (pixel_count n)) (range 8).

(** ** The invocation *)

(** Exceptions of the invocation: those of the quantizer, and the two
    that indexing the palette can raise. *)
Inductive host_exn : Type :=
  | Core (e : exn)
  | IndexError
  | TypeError.

Inductive hresult (A : Type) : Type :=
  | HRet (a : A)
  | HRaise (e : host_exn)
  | HStuck.

Arguments HRet {A} a.

Arguments HRaise {A} e.

Arguments HStuck {A}.

Definition hbind {A B : Type} (m : hresult A) (k : A → hresult B) : hresult B :=
  match m with
  | HRet a => k a
  | HRaise e => HRaise e
  | HStuck => HStuck
  end.

Notation "'hdo' x <- m ; k" := (hbind m (fun x => k))
  (at level 10, x pattern, m at level 100, k at level 200).

Definition of_result {A : Type} (r : result A) : hresult A :=
  match r with
  | Ret a => HRet a
  | Raise e => HRaise (Core e)
  | Stuck => HStuck
  end.

Definition hlift {A : Type} (o : option A) : hresult A :=
  match o with
  | Some a => HRet a
  | None => HStuck
  end.

(** A [for] loop over a list, threading the state. *)
Fixpoint hfor {A St : Type} (l : list A) (body : A → St → hresult St) (s : St) : hresult St :=
  match l with
  | [] => HRet s
  | a :: l' => hdo s' <- body a s; hfor l' body s'
  end.

(** [l[index]] on a Python list: [None] is no index, a negative index
    counts from the end. *)
Definition list_getitem {A : Type} (l : list A) (index : pyval) : hresult A :=
  match index with
  | PyNone => HRaise TypeError
  | PyInt i =>
      let j := if i <? 0 then i + Z.of_nat (length l) else i in
      if j <? 0 then HRaise IndexError
      else match l !! Z.to_nat j with
           | Some a => HRet a
           | None => HRaise IndexError
           end
  end.

(** An image in mode RGB, as [image.convert("RGB")] returns it: its size
    [(width, height)] and its pixels row by row. *)
Abbreviation pixel := (Z * Z * Z)%type (only parsing).

Record Image : Type := mkImage {
  Image_size : nat * nat;
  Image_data : list (Z * Z * Z)
}.

Definition getpixel (image : Image) (xy : nat * nat) : hresult pixel :=
  let '(x, y) := xy in
  let '(width, height) := Image_size image in
  if ((x <? width)%nat && (y <? height)%nat)%bool
  then hlift (Image_data image !! (y * width + x)%nat)
  else HRaise IndexError.

Definition putpixel (image : Image) (xy : nat * nat) (value : pixel) : hresult Image :=
  let '(x, y) := xy in
  let '(width, height) := Image_size image in
  if ((x <? width)%nat && (y <? height)%nat)%bool
  then HRet (mkImage (Image_size image) (<[(y * width + x)%nat := value]> (Image_data image)))
  else HRaise IndexError.

(** [Color(c[0], c[1], c[2])]. *)
Definition pixel_color (c : pixel) : Color := Color_init c.1.1 c.1.2 c.2.

(** [OctreeQuantizerInvocation.invoke], from [octree = OctreeQuantizer()]
    to the end of the second pixel loop, on the image converted to RGB.
    Fetching the image, the alpha channel and the storing of the result
    are services of the host and are not part of the model. *)
Definition invoke (image : Image) (final_colors : Z) (w : World) : hresult (Image * World) :=
  let '(width, height) := Image_size image in
  hdo (octree, w) <- of_result (OctreeQuantizer_init 8 w);
  hdo (octree, w) <-
    hfor (range height) (fun y =>
      hfor (range width) (fun x '(octree, w) =>
        hdo c <- getpixel image (x, y);
        of_result (add_color octree (pixel_color c) w)))
      (octree, w);
  hdo (palette, octree, w) <- of_result (make_palette octree final_colors w);
  hdo image <-
    hfor (range height) (fun y =>
      hfor (range width) (fun x image =>
        hdo c <- getpixel image (x, y);
        hdo index <- of_result (get_palette_index octree (pixel_color c) w);
        hdo color <- list_getitem palette index;
        putpixel image (x, y) (red color, green color, blue color)))
      image;
  HRet (image, w).

(** What the second loop writes for a pixel. *)
Definition quantized (palette : list Color) (octree : OctreeQuantizer) (w : World)
    (c : pixel) : hresult pixel :=
  hdo index <- of_result (get_palette_index octree (pixel_color c) w);
  hdo color <- list_getitem palette index;
  HRet (red color, green color, blue color).

Definition quantized_or_same (palette : list Color) (octree : OctreeQuantizer) (w : World)
    (c : pixel) : pixel :=
  match quantized palette octree w c with
  | HRet v => v
  | _ => c
  end.

(** A 2 x 1 image, black and white. *)
Definition two_pixels : Image := mkImage (2%nat, 1%nat) [(0, 0, 0); (255, 255, 255)].

(** ** Vocabulary of the further properties *)

(** Every channel sum of [n] lies between [lo] and [hi] times the pixel
    count. *)
Definition channels_within (lo hi : Z) (n : OctreeNode) : Prop :=
  0 ≤ pixel_count n
  ∧ lo * pixel_count n ≤ red (color n) ≤ hi * pixel_count n
  ∧ lo * pixel_count n ≤ green (color n) ≤ hi * pixel_count n
  ∧ lo * pixel_count n ≤ blue (color n) ≤ hi * pixel_count n.

Definition color_within (lo hi : Z) (c : Color) : Prop :=
  lo ≤ red c ≤ hi ∧ lo ≤ green c ≤ hi ∧ lo ≤ blue c ≤ hi.

(** A colour whose channels are bytes, as the pixels of an RGB image. *)
Definition eight_bit (c : Color) : Prop :=
  0 ≤ red c < 256 ∧ 0 ≤ green c < 256 ∧ 0 ≤ blue c < 256.

(** Sum of a field over the whole store. *)
Definition sum_field (F : OctreeNode → Z) (h : list OctreeNode) : Z :=
  foldr (fun n s => F n + s) 0 h.

(** Sum of a channel over added colours. *)
Definition channel_sum (g : Color → Z) (cs : list Color) : Z :=
  foldr (fun c s => g c + s) 0 cs.

(** A node that counts no pixel holds nothing of the field [F]. *)
Definition empty_if_uncounted (F : OctreeNode → Z) (n : OctreeNode) : Prop :=
  0 ≤ pixel_count n ∧ (pixel_count n = 0 → F n = 0).

(** What stays of the tree while it is reduced: the store is well
    formed, no node lies deeper than [D], and every node between the
    root and depth [D] has a child. *)
Definition shape (D : Z) (r : addr) (h : list OctreeNode) : Prop :=
  heap_ok h ∧ (r < length h)%nat
  ∧ ∀ p a n, walk h r p = Some a → h !! a = Some n →
      Z.of_nat (length p) ≤ D
      ∧ (p ≠ [] → Z.of_nat (length p) < D → ∃ i k, child n i = Some k).

(** The state of the reduction while the nodes of depth [d] are folded:
    deeper nodes count pixels, the nodes of depth [d] still to be folded
    ([rest]) and the nodes above count none. *)
Definition frontier (r : addr) (h : list OctreeNode) (d : nat) (rest : list addr) : Prop :=
  ∀ p a n, walk h r p = Some a → h !! a = Some n →
    ((d < length p)%nat → 0 < pixel_count n)
    ∧ (length p = d → if decide (a ∈ rest) then pixel_count n = 0 else 0 < pixel_count n)
    ∧ ((length p < d)%nat → pixel_count n = 0).

(** The state of the reduction before the registry list of key [m - 1]
    is taken up. *)
Definition reduced_below (D : Z) (r : addr) (h : list OctreeNode) (m : nat) : Prop :=
  ∀ p a n, walk h r p = Some a → h !! a = Some n →
    ((m < length p)%nat ∨ Z.of_nat (length p) = D → 0 < pixel_count n)
    ∧ ((length p ≤ m)%nat → Z.of_nat (length p) < D → pixel_count n = 0).

(** The registry lists of the keys below [m]. *)
Definition reg_below (D : Z) (r : addr) (lv : gmap Z (list addr)) (h : list OctreeNode)
    (m : nat) : Prop :=
  ∀ j : nat, (j < m)%nat →
    ∃ l, lv !! Z.of_nat j = Some ((if decide (j = 0%nat ∧ 1 < D) then [r] else []) ++ l)
         ∧ StronglySorted lt l
         ∧ ∀ a, a ∈ l ↔ (Z.of_nat j + 1 < D ∧ ∃ p, length p = S j ∧ walk h r p = Some a).

(** The enumeration from [r] in [h'] sums to what it summed to in [h]. *)
Definition same_mass (F : OctreeNode → Z) (r : addr) (h h' : list OctreeNode) : Prop :=
  ∀ fuel L, get_leaf_nodes fuel h r = Some L →
    ∃ L', get_leaf_nodes fuel h' r = Some L' ∧ total F h' L' = total F h L.

(** Every node of the store lies below [r]. *)
Definition all_reachable (r : addr) (h : list OctreeNode) : Prop :=
  ∀ a, (a < length h)%nat → ∃ p, walk h r p = Some a.

(** A node with the slots [kids] counts pixels. *)
Definition counts_at (kids : list (option addr)) (n : OctreeNode) : Prop :=
  0 ≤ pixel_count n ∧ (children n = kids → 0 < pixel_count n).

(** * Properties *)

(** ** Branch index *)

Lemma land_pow2_testbit (v m : Z) :
  0 ≤ m → (Z.land v (2 ^ m) =? 0) = negb (Z.testbit v m).
Proof.
  intros Hm. destruct (Z.testbit v m) eqn:E; simpl.
  - assert (Z.land v (2 ^ m) = 2 ^ m) as ->.
    { apply Z.bits_inj'. intros n Hn. rewrite Z.land_spec, Z.pow2_bits_eqb by lia.
      destruct (Z.eqb_spec m n) as [->|]; [by rewrite E | by rewrite andb_false_r]. }
    apply Z.eqb_neq. pose proof (Z.pow_pos_nonneg 2 m). lia.
  - assert (Z.land v (2 ^ m) = 0) as ->; [|done].
    apply Z.bits_inj'. intros n Hn. rewrite Z.land_spec, Z.pow2_bits_eqb, Z.bits_0 by lia.
    destruct (Z.eqb_spec m n) as [->|]; [by rewrite E | by rewrite andb_false_r].
Qed.

Lemma mask_testbit (v : Z) (level : nat) :
  (Z.land v (Z.shiftr 128 (Z.of_nat level)) =? 0)
  = negb (Z.testbit v (7 - Z.of_nat level)).
Proof.
  destruct (decide (Z.of_nat level ≤ 7)) as [Hle|Hgt].
  - rewrite <- land_pow2_testbit by lia. f_equal. f_equal.
    rewrite Z.shiftr_div_pow2 by lia. change 128 with (2 ^ 7).
    rewrite <- Z.pow_sub_r by lia. done.
  - rewrite Z.testbit_neg_r by lia. simpl.
    rewrite Z.shiftr_div_pow2 by lia.
    rewrite Z.div_small; [by rewrite Z.land_0_r|].
    split; [lia|]. change 128 with (2 ^ 7). apply Z.pow_lt_mono_r; lia.
Qed.

Lemma get_color_index_for_level_branchIndex (c : Color) (level : nat) :
  get_color_index_for_level c level = branchIndex c level.
Proof.
  unfold get_color_index_for_level, branchIndex, bit.
  rewrite !mask_testbit.
  by destruct (Z.testbit (red c) _), (Z.testbit (green c) _), (Z.testbit (blue c) _).
Qed.

Lemma get_color_index_for_level_range (c : Color) (level : nat) :
  0 ≤ get_color_index_for_level c level < 8.
Proof.
  rewrite get_color_index_for_level_branchIndex. unfold branchIndex, bit.
  destruct (Z.testbit (red c) _), (Z.testbit (green c) _), (Z.testbit (blue c) _);
    vm_compute; (split; [discriminate | reflexivity]).
Qed.

Lemma slot_lt (c : Color) (level : nat) : (slot c level < 8)%nat.
Proof. unfold slot. pose proof (get_color_index_for_level_range c level). lia. Qed.

(** ** Children *)

Lemma child_lookup (n : OctreeNode) (i : nat) (k : addr) :
  child n i = Some k ↔ children n !! i = Some (Some k).
Proof.
  unfold child. destruct (children n !! i) as [[?|]|]; naive_solver.
Qed.

Lemma child_lt (n : OctreeNode) (i : nat) (k : addr) :
  child n i = Some k → (i < length (children n))%nat.
Proof. rewrite child_lookup. apply lookup_lt_Some. Qed.

Lemma first_child_spec (n : OctreeNode) (slots : list nat) (k : addr) :
  first_child n slots = Some k ↔
  ∃ pre i post, slots = pre ++ i :: post ∧ child n i = Some k
                ∧ Forall (fun j => child n j = None) pre.
Proof.
  induction slots as [|i range IH]; simpl.
  - split; [done|]. intros (pre & i & post & E & _). by destruct pre.
  - destruct (child n i) as [k'|] eqn:Ei.
    + split.
      * intros [= ->]. by exists [], i, range.
      * intros (pre & j & post & E & Hj & Hpre). destruct pre as [|x pre].
        -- simpl in E. injection E as -> ->. congruence.
        -- simpl in E. injection E as -> ->. inversion Hpre; congruence.
    + rewrite IH. split.
      * intros (pre & j & post & -> & Hj & Hpre).
        exists (i :: pre), j, post. split_and!; [done|done|by constructor].
      * intros (pre & j & post & E & Hj & Hpre). destruct pre as [|x pre].
        -- simpl in E. injection E as -> ->. congruence.
        -- simpl in E. injection E as -> ->. inversion Hpre; subst.
           by exists pre, j, post.
Qed.

Lemma first_child_none (n : OctreeNode) (slots : list nat) :
  first_child n slots = None ↔ Forall (fun j => child n j = None) slots.
Proof.
  induction slots as [|i range IH]; simpl; [by split|].
  destruct (child n i) eqn:Ei.
  - split; [done|]. inversion 1; congruence.
  - rewrite IH. split; [by constructor|by inversion 1].
Qed.

(** ** Walks *)

Lemma walk_cons h a i p :
  walk h a (i :: p) = n ← h !! a; k ← child n i; walk h k p.
Proof. done. Qed.

Lemma walk_app h a p q :
  walk h a (p ++ q) = walk h a p ≫= fun b => walk h b q.
Proof.
  revert a. induction p as [|i p IH]; intros a; simpl; [done|].
  destruct (h !! a) as [n|]; simpl; [|done].
  destruct (child n i) as [k|]; simpl; [|done]. apply IH.
Qed.

Lemma walk_snoc h a p i b :
  walk h a (p ++ [i]) = Some b ↔
  ∃ x n, walk h a p = Some x ∧ h !! x = Some n ∧ child n i = Some b.
Proof.
  rewrite walk_app. split.
  - intros H. destruct (walk h a p) as [x|]; simpl in H; [|done].
    destruct (h !! x) as [n|] eqn:Hx; simpl in H; [|done].
    destruct (child n i) as [k|] eqn:E; simpl in H; [|done].
    simplify_eq. by exists x, n.
  - intros (x & n & -> & Hx & Hc). simpl. rewrite Hx. simpl. by rewrite Hc.
Qed.

Lemma walk_order h a p b :
  heap_ok h → walk h a p = Some b →
  (a ≤ b)%nat ∧ (p ≠ [] → (a < b < length h)%nat).
Proof.
  intros Hok. revert a. induction p as [|i p IH]; intros a; simpl.
  - intros [= ->]. split; [lia|done].
  - intros H. destruct (h !! a) as [n|] eqn:Ha; simpl in H; [|done].
    destruct (child n i) as [k|] eqn:Hc; simpl in H; [|done].
    destruct (ok_order h Hok a n i k Ha Hc) as [? ?].
    destruct (IH k H) as [? Hp].
    split; [lia|]. intros _. destruct p as [|j p].
    + simpl in H. injection H as <-. lia.
    + destruct Hp; [done|]. lia.
Qed.

Lemma walk_in_heap h a p b :
  heap_ok h → (a < length h)%nat → walk h a p = Some b → (b < length h)%nat.
Proof.
  intros Hok Ha H. destruct p as [|i p].
  - simpl in H. by injection H as <-.
  - destruct (walk_order h a (i :: p) b Hok H) as [_ Hp]. destruct Hp; [done|lia].
Qed.

Lemma walk_inj h r p q a :
  heap_ok h → walk h r p = Some a → walk h r q = Some a → p = q.
Proof.
  intros Hok. revert q a. induction p as [|i p IH] using rev_ind; intros q a Hp Hq.
  - simpl in Hp. injection Hp as <-. destruct q as [|j q]; [done|].
    destruct (walk_order h r (j :: q) r Hok Hq) as [_ Hlt]. destruct Hlt; [done|lia].
  - apply walk_snoc in Hp as (x & n & Hx & Hn & Hc).
    destruct q as [|j q _] using rev_ind.
    + simpl in Hq. injection Hq as <-.
      destruct (walk_order h r p x Hok Hx) as [? _].
      destruct (ok_order h Hok x n i r Hn Hc). lia.
    + apply walk_snoc in Hq as (y & m & Hy & Hm & Hd).
      destruct (ok_parent h Hok x y n m i j a Hn Hm Hc Hd) as [-> ->].
      f_equal. by apply (IH q y).
Qed.

Lemma walk_ext h h' a p :
  Forall2 same_children h h' → walk h' a p = walk h a p.
Proof.
  intros HF. revert a. induction p as [|i p IH]; intros a; [done|].
  rewrite !walk_cons. destruct (h !! a) as [n|] eqn:Ha.
  - destruct (Forall2_lookup_l _ _ _ _ _ HF Ha) as (n' & -> & Hn). simpl.
    unfold child. rewrite Hn. destruct (children n !! i) as [[k|]|]; simpl; auto.
  - assert (h' !! a = None) as ->; [|done].
    apply lookup_ge_None. apply lookup_ge_None in Ha.
    by rewrite <- (Forall2_length _ _ _ HF).
Qed.

(** ** Store updates that keep the tree *)

Lemma heap_ok_ext h h' :
  Forall2 same_children h h' → heap_ok h → heap_ok h'.
Proof.
  intros HF Hok.
  assert (∀ a n', h' !! a = Some n' → ∃ n, h !! a = Some n ∧ children n' = children n) as Hback.
  { intros a n' Ha. destruct (Forall2_lookup_r _ _ _ _ _ HF Ha) as (n & Hn & E). by exists n. }
  assert (∀ n n' i, children n' = children n → child n' i = child n i) as Hch.
  { intros n n' i E. unfold child. by rewrite E. }
  split.
  - intros a n' Ha. destruct (Hback a n' Ha) as (n & Hn & ->). by eapply ok_slots.
  - intros a n' i k Ha Hc. destruct (Hback a n' Ha) as (n & Hn & E).
    rewrite (Hch n n' i E) in Hc. rewrite <- (Forall2_length _ _ _ HF). by eapply ok_order.
  - intros a b na nb i j k Ha Hb Hca Hcb.
    destruct (Hback a na Ha) as (na0 & Hna & Ea). destruct (Hback b nb Hb) as (nb0 & Hnb & Eb).
    rewrite (Hch _ _ _ Ea) in Hca. rewrite (Hch _ _ _ Eb) in Hcb.
    by eapply (ok_parent h Hok a b na0 nb0).
Qed.

Lemma same_children_insert h a n n' :
  h !! a = Some n → children n' = children n →
  Forall2 same_children h (<[a := n']> h).
Proof.
  intros Ha E. apply Forall2_same_length_lookup. split; [by rewrite length_insert|].
  intros i x y Hx Hy. destruct (decide (i = a)) as [->|Hne].
  - rewrite list_lookup_insert_eq in Hy by (by eapply lookup_lt_Some).
    injection Hy as <-. rewrite Ha in Hx. by injection Hx as <-.
  - rewrite list_lookup_insert_ne in Hy by done. rewrite Hx in Hy. by injection Hy as <-.
Qed.

(** ** Enumeration of leaves *)

Lemma get_leaf_nodes_loop fuel h n l acc :
  foldl (fun acc i =>
           leaf_nodes ← acc;
           match child n i with
           | None => Some leaf_nodes
           | Some k =>
             node ← h !! k;
             if is_leaf node then Some (leaf_nodes ++ [k])
             else more ← get_leaf_nodes fuel h k; Some (leaf_nodes ++ more)
           end) acc l
  = leaf_nodes ← acc; ms ← mapM (leaf_contrib (get_leaf_nodes fuel h) h n) l;
    Some (leaf_nodes ++ concat ms).
Proof.
  revert acc. induction l as [|i l IH]; intros acc.
  - destruct acc; simpl; [by rewrite app_nil_r|done].
  - cbn [foldl]. rewrite IH. destruct acc as [acc|]; [|done].
    cbn. unfold leaf_contrib.
    destruct (child n i) as [k|]; cbn.
    + destruct (h !! k) as [node|]; cbn; [|done].
      destruct (is_leaf node); cbn.
      * destruct (mapM _ l); cbn; [|done]. by rewrite <- app_assoc.
      * destruct (get_leaf_nodes fuel h k); cbn; [|done].
        destruct (mapM _ l); cbn; [|done]. by rewrite <- app_assoc.
    + destruct (mapM _ l); cbn; done.
Qed.

Lemma get_leaf_nodes_S fuel h a :
  get_leaf_nodes (S fuel) h a =
  n ← h !! a;
  ms ← mapM (leaf_contrib (get_leaf_nodes fuel h) h n) (range 8);
  Some (concat ms).
Proof.
  change (get_leaf_nodes (S fuel) h a) with
    (n ← h !! a;
     foldl (fun acc i =>
             leaf_nodes ← acc;
             match child n i with
             | None => Some leaf_nodes
             | Some k =>
               node ← h !! k;
               if is_leaf node then Some (leaf_nodes ++ [k])
               else more ← get_leaf_nodes fuel h k; Some (leaf_nodes ++ more)
             end)
          (Some []) (range 8)).
  destruct (h !! a) as [n|]; [|done].
  apply (get_leaf_nodes_loop fuel h n (range 8) (Some [])).
Qed.

Lemma get_leaf_nodes_inv fuel h a L :
  get_leaf_nodes (S fuel) h a = Some L →
  ∃ n ms, h !! a = Some n ∧ L = concat ms ∧
          Forall2 (fun i m => leaf_contrib (get_leaf_nodes fuel h) h n i = Some m)
                  (range 8) ms.
Proof.
  rewrite get_leaf_nodes_S. intros H.
  apply bind_Some in H as (n & Hn & H). apply bind_Some in H as (ms & Hms & H).
  simplify_eq. exists n, ms. split_and!; [done..|]. by apply mapM_Some.
Qed.

Lemma get_leaf_nodes_intro fuel h a n ms :
  h !! a = Some n →
  Forall2 (fun i m => leaf_contrib (get_leaf_nodes fuel h) h n i = Some m) (range 8) ms →
  get_leaf_nodes (S fuel) h a = Some (concat ms).
Proof.
  intros Ha HF. rewrite get_leaf_nodes_S.
  apply bind_Some. exists n. split; [done|].
  apply bind_Some. exists ms. split; [by apply mapM_Some|done].
Qed.

Lemma get_leaf_nodes_mono fuel fuel' h a L :
  get_leaf_nodes fuel h a = Some L → (fuel ≤ fuel')%nat →
  get_leaf_nodes fuel' h a = Some L.
Proof.
  revert fuel' a L. induction fuel as [|fuel IH]; intros fuel' a L H Hle; [done|].
  destruct fuel' as [|fuel']; [lia|].
  apply get_leaf_nodes_inv in H as (n & ms & Ha & -> & HF).
  apply (get_leaf_nodes_intro _ _ _ n); [done|].
  eapply Forall2_impl; [exact HF|]. intros i m. unfold leaf_contrib.
  destruct (child n i) as [k|]; [|done].
  destruct (h !! k) as [node|]; [|done]. cbn.
  destruct (is_leaf node); [done|]. intros Hk. apply IH; [done|lia].
Qed.

Lemma get_leaf_nodes_total fuel h a :
  heap_ok h → (a < length h)%nat → (length h - a ≤ fuel)%nat →
  is_Some (get_leaf_nodes fuel h a).
Proof.
  intros Hok. revert a. induction fuel as [|fuel IH]; intros a Ha Hf; [lia|].
  destruct (lookup_lt_is_Some_2 h a Ha) as [n Hn].
  assert (∀ i, is_Some (leaf_contrib (get_leaf_nodes fuel h) h n i)) as Hc.
  { intros i. unfold leaf_contrib. destruct (child n i) as [k|] eqn:Hk; [|done].
    destruct (ok_order h Hok a n i k Hn Hk) as [? ?].
    destruct (lookup_lt_is_Some_2 h k) as [node ->]; [done|]. cbn.
    destruct (is_leaf node); [done|]. apply IH; lia. }
  assert (∀ l, ∃ ms, Forall2 (fun i m => leaf_contrib (get_leaf_nodes fuel h) h n i = Some m) l ms)
    as Hl.
  { induction l as [|i l [ms Hms]]; [by exists []|].
    destruct (Hc i) as [m Hm]. exists (m :: ms). by constructor. }
  destruct (Hl (range 8)) as [ms Hms].
  exists (concat ms). by apply (get_leaf_nodes_intro _ _ _ n).
Qed.

(** [reaches_leaf] is what the enumeration computes. *)
Lemma get_leaf_nodes_reaches fuel h x L a :
  heap_ok h → get_leaf_nodes fuel h x = Some L →
  a ∈ L ↔ reaches_leaf h x a.
Proof.
  intros Hok. revert x L a. induction fuel as [|fuel IH]; intros x L a H; [done|].
  apply get_leaf_nodes_inv in H as (n & ms & Hx & -> & HF). split.
  - intros Hin. apply list_elem_of_In, in_concat in Hin as (m & Hm & Ha).
    apply list_elem_of_In in Hm, Ha.
    apply list_elem_of_lookup in Hm as [j Hj].
    destruct (Forall2_lookup_r _ _ _ _ _ HF Hj) as (i & _ & Hc).
    unfold leaf_contrib in Hc. destruct (child n i) as [k|] eqn:Hk.
    + destruct (h !! k) as [node|] eqn:Hnode; [|done]. cbn in Hc.
      destruct (is_leaf node) eqn:Hl.
      * simplify_eq. apply list_elem_of_singleton in Ha as ->.
        by eapply reaches_child.
      * eapply reaches_below; [done..|]. by apply (IH k m).
    + simplify_eq. by apply elem_of_nil in Ha.
  - intros Hr.
    assert (∀ i k m, child n i = Some k →
              leaf_contrib (get_leaf_nodes fuel h) h n i = Some m → a ∈ m →
              a ∈ concat ms) as Hput.
    { intros i k m Hk Hc Ha.
      assert (i < 8)%nat as Hi.
      { rewrite <- (ok_slots h Hok x n Hx). by eapply child_lt. }
      destruct (Forall2_lookup_l _ _ _ i i HF) as (m' & Hm' & Hc').
      { unfold range; apply lookup_seq. lia. }
      rewrite Hc in Hc'. simplify_eq.
      apply list_elem_of_In, in_concat. exists m'. split; apply list_elem_of_In; [|done].
      by eapply list_elem_of_lookup_2. }
    assert (∀ i k, child n i = Some k →
              is_Some (leaf_contrib (get_leaf_nodes fuel h) h n i)) as Hsome.
    { intros i k Hk.
      assert (i < 8)%nat as Hi.
      { rewrite <- (ok_slots h Hok x n Hx). by eapply child_lt. }
      destruct (Forall2_lookup_l _ _ _ i i HF) as (m' & Hm' & Hc'); [|by eexists].
      unfold range; apply lookup_seq. lia. }
    inversion Hr as [x' n' i k node Hx' Hk Hnode Hl|x' n' i k node a' Hx' Hk Hnode Hl Hrec];
      subst; rewrite Hx in Hx'; simplify_eq.
    + destruct (Hsome i a Hk) as [m Hm]. apply (Hput i a m Hk Hm).
      unfold leaf_contrib in Hm. rewrite Hk, Hnode in Hm. cbn in Hm. rewrite Hl in Hm.
      simplify_eq. by apply list_elem_of_singleton.
    + destruct (Hsome i k Hk) as [m Hm]. apply (Hput i k m Hk Hm).
      unfold leaf_contrib in Hm. rewrite Hk, Hnode in Hm. cbn in Hm. rewrite Hl in Hm.
      by apply (IH k m a).
Qed.

Lemma reaches_leaf_walk h x a :
  reaches_leaf h x a → ∃ i p, walk h x (i :: p) = Some a.
Proof.
  induction 1 as [x n i k node Hx Hk _ _|x n i k node a Hx Hk _ _ _ (j & p & IH)].
  - exists i, []. rewrite walk_cons, Hx. cbn. by rewrite Hk.
  - exists i, (j :: p). rewrite walk_cons, Hx. cbn. by rewrite Hk.
Qed.

Lemma reaches_leaf_is_leaf h x a :
  reaches_leaf h x a → ∃ n, h !! a = Some n ∧ is_leaf n = true.
Proof. induction 1; eauto. Qed.

Lemma NoDup_concat_indexed (P : nat → nat → Prop) (idx : list nat) (ms : list (list nat)) :
  NoDup idx →
  Forall2 (fun i m => NoDup m ∧ ∀ a, a ∈ m → P i a) idx ms →
  (∀ i j a, P i a → P j a → i = j) →
  NoDup (concat ms).
Proof.
  intros Hnd HF Hinj. induction HF as [|i m idx ms [Hm HP] HF IH]; [constructor|].
  apply NoDup_cons in Hnd as [Hi Hnd]. simpl. apply NoDup_app. split_and!; [done| |by apply IH].
  intros a Ha Hin. apply list_elem_of_In, in_concat in Hin as (m' & Hm' & Ha').
  apply list_elem_of_In, list_elem_of_lookup in Hm' as [j Hj].
  destruct (Forall2_lookup_r _ _ _ _ _ HF Hj) as (i' & Hi' & _ & HP').
  apply list_elem_of_In in Ha'.
  rewrite (Hinj i i' a (HP a Ha) (HP' a Ha')) in Hi.
  apply Hi. by eapply list_elem_of_lookup_2.
Qed.

Lemma get_leaf_nodes_NoDup fuel h x L :
  heap_ok h → get_leaf_nodes fuel h x = Some L → NoDup L.
Proof.
  intros Hok. revert x L. induction fuel as [|fuel IH]; intros x L H; [done|].
  apply get_leaf_nodes_inv in H as (n & ms & Hx & -> & HF).
  apply (NoDup_concat_indexed (fun i a => ∃ p, walk h x (i :: p) = Some a) (range 8)).
  - unfold range; apply NoDup_seq.
  - eapply Forall2_impl; [exact HF|]. intros i m Hc. unfold leaf_contrib in Hc.
    destruct (child n i) as [k|] eqn:Hk.
    + destruct (h !! k) as [node|] eqn:Hnode; [|done]. cbn in Hc.
      destruct (is_leaf node) eqn:Hl.
      * simplify_eq. split; [apply NoDup_singleton|].
        intros a ->%list_elem_of_singleton. exists []. rewrite walk_cons, Hx. cbn. by rewrite Hk.
      * split; [by eapply IH|]. intros a Ha.
        apply (get_leaf_nodes_reaches fuel h k m a Hok Hc) in Ha.
        apply reaches_leaf_walk in Ha as (j & p & Hp).
        exists (j :: p). rewrite walk_cons, Hx. cbn. by rewrite Hk.
    + simplify_eq. split; [constructor|]. by intros a ?%elem_of_nil.
  - intros i j a [p Hp] [q Hq]. by injection (walk_inj h x _ _ a Hok Hp Hq).
Qed.

Lemma same_tree_children h h' :
  Forall2 same_tree h h' → Forall2 same_children h h'.
Proof. intros H. eapply Forall2_impl; [exact H|]. by intros n n' [? _]. Qed.

Lemma same_tree_child n n' i : same_tree n n' → child n' i = child n i.
Proof. intros [E _]. unfold child. by rewrite E. Qed.

Lemma same_tree_lookup h h' a :
  Forall2 same_tree h h' →
  match h !! a, h' !! a with
  | Some n, Some n' => same_tree n n'
  | None, None => True
  | _, _ => False
  end.
Proof.
  intros HF. destruct (h !! a) as [n|] eqn:Ha.
  - by destruct (Forall2_lookup_l _ _ _ _ _ HF Ha) as (n' & -> & Hn).
  - assert (h' !! a = None) as ->; [|done].
    apply lookup_ge_None. apply lookup_ge_None in Ha.
    by rewrite <- (Forall2_length _ _ _ HF).
Qed.

Lemma get_leaf_nodes_ext fuel h h' x :
  Forall2 same_tree h h' → get_leaf_nodes fuel h' x = get_leaf_nodes fuel h x.
Proof.
  intros HF. revert x. induction fuel as [|fuel IH]; intros x; [done|].
  rewrite !get_leaf_nodes_S.
  pose proof (same_tree_lookup h h' x HF) as Hx.
  destruct (h !! x) as [n|], (h' !! x) as [n'|]; try done. cbn.
  f_equal. apply mapM_ext. intros i. unfold leaf_contrib.
  rewrite (same_tree_child n n' i Hx). destruct (child n i) as [k|]; [|done].
  pose proof (same_tree_lookup h h' k HF) as Hk.
  destruct (h !! k) as [m|], (h' !! k) as [m'|]; try done. cbn.
  destruct Hk as [_ ->]. destruct (is_leaf m); [done|]. apply IH.
Qed.

(** ** Descent of a lookup *)

Lemma first_child_same_tree n n' l :
  same_tree n n' → first_child n' l = first_child n l.
Proof.
  intros Hn. induction l as [|i l IH]; simpl; [done|].
  rewrite (same_tree_child n n' i Hn). by rewrite IH.
Qed.

Lemma Node_descend_S fuel h x c level :
  Node_descend (S fuel) h x c level =
  n ← h !! x;
  if is_leaf n then Some (Some x)
  else match child n (slot c level) with
       | Some k => Node_descend fuel h k c (S level)
       | None =>
         match first_child n (range 8) with
         | Some k => Node_descend fuel h k c (S level)
         | None => Some None
         end
       end.
Proof. done. Qed.

Lemma Node_get_palette_index_S fuel h x c level :
  Node_get_palette_index (S fuel) h x c level =
  n ← h !! x;
  if is_leaf n then Some (PyInt (palette_index n))
  else match child n (slot c level) with
       | Some k => Node_get_palette_index fuel h k c (S level)
       | None =>
         match first_child n (range 8) with
         | Some k => Node_get_palette_index fuel h k c (S level)
         | None => Some PyNone
         end
       end.
Proof. done. Qed.

Lemma Node_descend_ext fuel h h' x c level :
  Forall2 same_tree h h' → Node_descend fuel h' x c level = Node_descend fuel h x c level.
Proof.
  intros HF. revert x level. induction fuel as [|fuel IH]; intros x level; [done|].
  rewrite !Node_descend_S. pose proof (same_tree_lookup h h' x HF) as Hx.
  destruct (h !! x) as [n|], (h' !! x) as [n'|]; try done. cbn.
  rewrite (proj2 Hx). destruct (is_leaf n); [done|].
  rewrite (same_tree_child n n' _ Hx).
  destruct (child n _); [apply IH|].
  rewrite (first_child_same_tree n n' _ Hx).
  destruct (first_child n _); [apply IH|done].
Qed.

Lemma Node_get_palette_index_descend fuel h x c level :
  Node_get_palette_index fuel h x c level =
  match Node_descend fuel h x c level with
  | None => None
  | Some None => Some PyNone
  | Some (Some a) => n ← h !! a; Some (PyInt (palette_index n))
  end.
Proof.
  revert x level. induction fuel as [|fuel IH]; intros x level; [done|].
  rewrite Node_descend_S, Node_get_palette_index_S.
  destruct (h !! x) as [n|] eqn:Hx; [|done]. cbn.
  destruct (is_leaf n); [by rewrite Hx|].
  destruct (child n _); [apply IH|].
  destruct (first_child n _); [apply IH|done].
Qed.

Lemma Node_descend_mono fuel fuel' h x c level r :
  Node_descend fuel h x c level = Some r → (fuel ≤ fuel')%nat →
  Node_descend fuel' h x c level = Some r.
Proof.
  revert fuel' x level. induction fuel as [|fuel IH]; intros fuel' x level H Hle; [done|].
  destruct fuel' as [|fuel']; [lia|]. rewrite Node_descend_S in *.
  destruct (h !! x) as [n|]; [|done]. cbn in *.
  destruct (is_leaf n); [done|].
  destruct (child n _); [apply IH; [done|lia]|].
  destruct (first_child n _); [apply IH; [done|lia]|done].
Qed.

Lemma first_child_child n l k : first_child n l = Some k → ∃ i, child n i = Some k.
Proof. intros (pre & i & post & _ & H & _)%first_child_spec. by exists i. Qed.

Lemma Node_descend_total fuel h x c level :
  heap_ok h → (x < length h)%nat → (length h - x ≤ fuel)%nat →
  is_Some (Node_descend fuel h x c level).
Proof.
  intros Hok. revert x level. induction fuel as [|fuel IH]; intros x level Hx Hf; [lia|].
  destruct (lookup_lt_is_Some_2 h x Hx) as [n Hn]. rewrite Node_descend_S, Hn. cbn.
  destruct (is_leaf n); [done|].
  destruct (child n _) as [k|] eqn:Hk.
  - destruct (ok_order h Hok x n _ k Hn Hk). apply IH; lia.
  - destruct (first_child n _) as [k|] eqn:Hf'; [|done].
    apply first_child_child in Hf' as [i Hi].
    destruct (ok_order h Hok x n _ k Hn Hi). apply IH; lia.
Qed.

(** A descent stops where it starts, at a leaf, or at a leaf the
    enumeration started there arrives at. *)
Lemma Node_descend_reaches fuel h x c level a :
  Node_descend fuel h x c level = Some (Some a) →
  ∃ n, h !! x = Some n ∧
       ((is_leaf n = true ∧ a = x) ∨ (is_leaf n = false ∧ reaches_leaf h x a)).
Proof.
  revert x level. induction fuel as [|fuel IH]; intros x level H; [done|].
  rewrite Node_descend_S in H. destruct (h !! x) as [n|] eqn:Hx; [|done]. cbn in H.
  exists n. split; [done|]. destruct (is_leaf n) eqn:Hl.
  { simplify_eq. by left. }
  right. split; [done|].
  assert (∀ i k, child n i = Some k → Node_descend fuel h k c (S level) = Some (Some a) →
                 reaches_leaf h x a) as Hstep.
  { intros i k Hk Hd. destruct (IH k (S level) Hd) as (m & Hm & [[Hlm ->]|[Hlm Hr]]).
    - by eapply reaches_child.
    - by eapply reaches_below. }
  destruct (child n _) as [k|] eqn:Hk; [by eapply Hstep|].
  destruct (first_child n _) as [k|] eqn:Hf; [|done].
  apply first_child_child in Hf as [i Hi]. by eapply Hstep.
Qed.

(** ** Folding the children into a node *)

Lemma child_same_children n n' i : children n' = children n → child n' i = child n i.
Proof. intros E. unfold child. by rewrite E. Qed.

Lemma absorbed_children h n ks : children (absorbed h n ks) = children n.
Proof.
  revert n. induction ks as [|k ks IH]; intros n; [done|].
  simpl. rewrite IH. by destruct (h !! k).
Qed.

Lemma absorbed_palette_index h n ks : palette_index (absorbed h n ks) = palette_index n.
Proof.
  revert n. induction ks as [|k ks IH]; intros n; [done|].
  simpl. rewrite IH. by destruct (h !! k).
Qed.

Lemma absorbed_pixel_count h n ks :
  pixel_count (absorbed h n ks) = pixel_count n + total pixel_count h ks.
Proof.
  revert n. induction ks as [|k ks IH]; intros n; simpl; [lia|].
  rewrite IH. destruct (h !! k); simpl; lia.
Qed.

Lemma absorbed_red h n ks :
  red (color (absorbed h n ks)) = red (color n) + total (fun m => red (color m)) h ks.
Proof.
  revert n. induction ks as [|k ks IH]; intros n; simpl; [lia|].
  rewrite IH. destruct (h !! k); simpl; lia.
Qed.

Lemma absorbed_green h n ks :
  green (color (absorbed h n ks)) = green (color n) + total (fun m => green (color m)) h ks.
Proof.
  revert n. induction ks as [|k ks IH]; intros n; simpl; [lia|].
  rewrite IH. destruct (h !! k); simpl; lia.
Qed.

Lemma absorbed_blue h n ks :
  blue (color (absorbed h n ks)) = blue (color n) + total (fun m => blue (color m)) h ks.
Proof.
  revert n. induction ks as [|k ks IH]; intros n; simpl; [lia|].
  rewrite IH. destruct (h !! k); simpl; lia.
Qed.

Lemma total_nonneg h ks : Forall counted h → 0 ≤ total pixel_count h ks.
Proof.
  intros Hc. induction ks as [|k ks IH]; simpl; [lia|].
  destruct (h !! k) as [node|] eqn:Hk; [|done].
  pose proof (Forall_lookup_1 _ _ _ _ Hc Hk) as Hn. unfold counted in Hn. lia.
Qed.

Lemma total_zero h ks :
  (∀ k node, k ∈ ks → h !! k = Some node → pixel_count node = 0) →
  total pixel_count h ks = 0.
Proof.
  induction ks as [|k ks IH]; intros H; simpl; [done|].
  rewrite IH; [|intros; eapply H; [by right|done]].
  destruct (h !! k) as [node|] eqn:Hk; [|done].
  rewrite (H k node); [done|by left|done].
Qed.

Lemma total_pos h ks k node :
  Forall counted h → k ∈ ks → h !! k = Some node → 0 < pixel_count node →
  0 < total pixel_count h ks.
Proof.
  intros Hc Hin Hk Hpos. induction ks as [|k' ks IH]; [by apply elem_of_nil in Hin|].
  simpl. pose proof (total_nonneg h ks Hc).
  apply elem_of_cons in Hin as [->|Hin].
  - rewrite Hk. lia.
  - specialize (IH Hin). destruct (h !! k') as [node'|] eqn:Hk'; [|done].
    pose proof (Forall_lookup_1 _ _ _ _ Hc Hk') as Hn. unfold counted in Hn. lia.
Qed.

Lemma existing_children_spec n k :
  k ∈ existing_children n ↔ ∃ i, (i < 8)%nat ∧ child n i = Some k.
Proof.
  unfold existing_children. rewrite list_elem_of_omap. split.
  - intros (i & Hi & Hk). exists i. split; [|done].
    unfold range in Hi. apply elem_of_seq in Hi. lia.
  - intros (i & Hi & Hk). exists i. split; [|done].
    unfold range. apply elem_of_seq. lia.
Qed.

Lemma remove_leaves_loop h self n acc l r :
  heap_ok h → h !! self = Some n → children acc = children n →
  foldl (remove_leaves_step self) (Some (r, <[self := acc]> h)) l
  = Some (r + Z.of_nat (length (omap (child n) l)),
          <[self := absorbed h acc (omap (child n) l)]> h).
Proof.
  intros Hok Hn. revert acc r. induction l as [|i l IH]; intros acc r Hacc.
  - simpl. do 2 f_equal. lia.
  - cbn [foldl]. unfold remove_leaves_step at 2. cbn [mbind option_bind].
    pose proof (lookup_lt_Some _ _ _ Hn) as Hlt.
    rewrite list_lookup_insert_eq by done. cbn [mbind option_bind].
    rewrite (child_same_children n acc i Hacc).
    change (omap (child n) (i :: l)) with
      (match child n i with Some y => y :: omap (child n) l | None => omap (child n) l end).
    destruct (child n i) as [k|] eqn:Hk.
    + destruct (ok_order h Hok self n i k Hn Hk) as [? ?].
      rewrite list_lookup_insert_ne by lia.
      destruct (lookup_lt_is_Some_2 h k) as [node Hnode]; [done|].
      rewrite Hnode. cbn [mbind option_bind]. rewrite list_insert_insert_eq.
      rewrite IH by done. cbn [length absorbed foldl]. rewrite Hnode.
      do 2 f_equal. lia.
    + by apply IH.
Qed.

Lemma remove_leaves_spec h self n :
  heap_ok h → h !! self = Some n →
  remove_leaves h self
  = Some (Z.of_nat (length (existing_children n)) - 1,
          <[self := absorbed h n (existing_children n)]> h).
Proof.
  intros Hok Hn. unfold remove_leaves.
  rewrite <- (list_insert_id h self n Hn) at 1.
  rewrite (remove_leaves_loop h self n n (range 8) 0 Hok Hn eq_refl).
  cbn. unfold existing_children. do 2 f_equal.
Qed.

(** ** Stores related node by node *)

Lemma Forall2_insert_r_rel {A} (R : A → A → Prop) (h : list A) a n n' :
  (∀ x, R x x) → h !! a = Some n → R n n' → Forall2 R h (<[a := n']> h).
Proof.
  intros Hrefl Ha Hn. apply Forall2_same_length_lookup. split; [by rewrite length_insert|].
  intros i x y Hx Hy. destruct (decide (i = a)) as [->|Hne].
  - rewrite list_lookup_insert_eq in Hy by (by eapply lookup_lt_Some). by simplify_eq.
  - rewrite list_lookup_insert_ne in Hy by done. by simplify_eq.
Qed.

Lemma Forall2_trans_rel {A} (R : A → A → Prop) (h1 h2 h3 : list A) :
  (∀ x y z, R x y → R y z → R x z) →
  Forall2 R h1 h2 → Forall2 R h2 h3 → Forall2 R h1 h3.
Proof.
  intros Htr H12. revert h3. induction H12 as [|x y l1 l2 Hxy H12 IH]; intros h3 H23.
  - by inversion H23.
  - inversion H23; subst. constructor; [by eapply Htr|by apply IH].
Qed.

Lemma Forall2_refl_rel {A} (R : A → A → Prop) (h : list A) :
  (∀ x, R x x) → Forall2 R h h.
Proof. intros Hr. induction h; by constructor. Qed.

Lemma grows_refl n : grows n n.
Proof. unfold grows. split_and!; [done..|lia]. Qed.

Lemma grows_trans x y z : grows x y → grows y z → grows x z.
Proof. unfold grows. intros (? & ? & ?) (? & ? & ?). split_and!; [congruence..|lia]. Qed.

Lemma grows_same_children h h' : Forall2 grows h h' → Forall2 same_children h h'.
Proof. intros H. eapply Forall2_impl; [exact H|]. by intros n n' (? & _). Qed.

Lemma grows_counted h h' : Forall2 grows h h' → Forall counted h → Forall counted h'.
Proof.
  intros HF Hc. induction HF as [|n n' h h' (_ & _ & Hle) HF IH]; [constructor|].
  apply Forall_cons in Hc as [Hn Hc]. constructor; [|by apply IH].
  unfold counted in *. lia.
Qed.

Lemma remove_leaves_grows h self n :
  heap_ok h → Forall counted h → h !! self = Some n →
  Forall2 grows h (<[self := absorbed h n (existing_children n)]> h).
Proof.
  intros Hok Hc Hn. apply (Forall2_insert_r_rel grows h self n); [apply grows_refl|done|].
  unfold grows. rewrite absorbed_children, absorbed_palette_index, absorbed_pixel_count.
  pose proof (total_nonneg h (existing_children n) Hc). split_and!; [done..|lia].
Qed.

(** ** The reduction loops *)

Lemma reduce_level_spec nodes leaf_count color_count h :
  heap_ok h → Forall counted h → (∀ a, a ∈ nodes → (a < length h)%nat) →
  ∃ leaf_count' h',
    reduce_level nodes leaf_count color_count h = Some (leaf_count', h')
    ∧ Forall2 grows h h'
    ∧ (∀ a, a ∉ nodes → h' !! a = h !! a).
Proof.
  revert leaf_count h. induction nodes as [|node rest IH]; intros leaf_count h Hok Hc Hin.
  - exists leaf_count, h. split_and!; [done| |done].
    apply Forall2_refl_rel, grows_refl.
  - destruct (lookup_lt_is_Some_2 h node) as [n Hn]; [apply Hin; by left|].
    cbn [reduce_level]. rewrite (remove_leaves_spec h node n Hok Hn). cbn [mbind option_bind].
    pose proof (remove_leaves_grows h node n Hok Hc Hn) as Hg.
    set (h1 := <[node := absorbed h n (existing_children n)]> h) in *.
    assert (∀ a, a ≠ node → h1 !! a = h !! a) as Hframe.
    { intros a Ha. unfold h1. by rewrite list_lookup_insert_ne. }
    destruct (_ <=? color_count).
    + eexists _, h1. split_and!; [done..|].
      intros a Ha. apply Hframe. intros ->. apply Ha. by left.
    + destruct (IH (leaf_count - (Z.of_nat (length (existing_children n)) - 1)) h1)
        as (lc' & h' & Hr & Hg' & Hf').
      * eapply heap_ok_ext; [|done]. by apply grows_same_children.
      * by eapply grows_counted.
      * intros a Ha. unfold h1. rewrite length_insert. apply Hin. by right.
      * exists lc', h'. split_and!; [done| |].
        -- eapply Forall2_trans_rel; [apply grows_trans|done..].
        -- intros a Ha. rewrite Hf', Hframe; [done| |].
           ++ intros ->. apply Ha. by left.
           ++ intros Hr'. apply Ha. by right.
Qed.

Lemma reduce_levels_spec rng leaf_count color_count lv h :
  heap_ok h → Forall counted h →
  (∀ j l a, j ∈ rng → lv !! j = Some l → a ∈ l → (a < length h)%nat) →
  (∀ j, j ∈ rng → is_Some (lv !! j)) →
  ∃ leaf_count' lv' h',
    reduce_levels rng leaf_count color_count lv h = Ret (leaf_count', lv', h')
    ∧ Forall2 grows h h'.
Proof.
  revert leaf_count lv h. induction rng as [|j rng IH]; intros leaf_count lv h Hok Hc Hin Hdom.
  - eexists _, _, h. split; [done|]. apply Forall2_refl_rel, grows_refl.
  - destruct (Hdom j) as [l Hl]; [by left|]. cbn [reduce_levels]. rewrite Hl.
    destruct l as [|a l].
    + apply IH; [done..| |].
      * intros j' l' a' Hj'. apply Hin. by right.
      * intros j' Hj'. apply Hdom. by right.
    + destruct (reduce_level_spec (a :: l) leaf_count color_count h Hok Hc)
        as (lc1 & h1 & Hr & Hg & _).
      { intros a' Ha'. eapply (Hin j); [by left|done..]. }
      rewrite Hr. cbn [lift bind].
      destruct (lc1 <=? color_count); [by eexists _, _, h1|].
      destruct (IH lc1 (<[j := []]> lv) h1) as (lc' & lv' & h' & Hr' & Hg').
      * eapply heap_ok_ext; [|done]. by apply grows_same_children.
      * by eapply grows_counted.
      * intros j' l' a' Hj' Hl' Ha'. rewrite <- (Forall2_length _ _ _ Hg).
        destruct (decide (j = j')) as [->|Hne].
        -- rewrite lookup_insert_eq in Hl'. simplify_eq. by apply elem_of_nil in Ha'.
        -- rewrite lookup_insert_ne in Hl' by done. eapply (Hin j'); [by right|done..].
      * intros j' Hj'. destruct (decide (j = j')) as [->|Hne].
        -- rewrite lookup_insert_eq. by eexists.
        -- rewrite lookup_insert_ne by done. apply Hdom. by right.
      * exists lc', lv', h'. split; [done|].
        eapply Forall2_trans_rel; [apply grows_trans|done..].
Qed.

(** ** The root during reduction *)

Lemma total_ext f h h' ks :
  (∀ k, k ∈ ks → h' !! k = h !! k) → total f h' ks = total f h ks.
Proof.
  induction ks as [|k ks IH]; intros H; simpl; [done|].
  rewrite IH, H; [done|by left|]. intros k' Hk'. apply H. by right.
Qed.

Lemma existing_children_same n n' :
  children n' = children n → existing_children n' = existing_children n.
Proof.
  intros E. unfold existing_children. apply list_omap_ext.
  apply Forall2_same_length_lookup. split; [done|].
  intros i x y Hx Hy. simplify_eq. by apply child_same_children.
Qed.

(** The root is reduced while its children still count no pixel: it
    stays uncounted. *)
Lemma reduce_level_root_first r rest leaf_count color_count h nr leaf_count' h' :
  heap_ok h → Forall counted h → (∀ a, a ∈ rest → (a < length h)%nat) →
  h !! r = Some nr → pixel_count nr = 0 →
  total pixel_count h (existing_children nr) = 0 → r ∉ rest →
  reduce_level (r :: rest) leaf_count color_count h = Some (leaf_count', h') →
  ∃ nr', h' !! r = Some nr' ∧ pixel_count nr' = 0 ∧ children nr' = children nr.
Proof.
  intros Hok Hc Hin Hr Hpc Hkids Hnot. cbn [reduce_level].
  rewrite (remove_leaves_spec h r nr Hok Hr). cbn [mbind option_bind].
  pose proof (remove_leaves_grows h r nr Hok Hc Hr) as Hg.
  set (h1 := <[r := absorbed h nr (existing_children nr)]> h) in *.
  assert (h1 !! r = Some (absorbed h nr (existing_children nr))) as Hr1.
  { unfold h1. apply list_lookup_insert_eq. by eapply lookup_lt_Some. }
  assert (pixel_count (absorbed h nr (existing_children nr)) = 0) as Hpc1.
  { rewrite absorbed_pixel_count. lia. }
  destruct (_ <=? color_count).
  - intros [= <- <-]. eexists. split_and!; [done..|]. apply absorbed_children.
  - intros Hrun.
    destruct (reduce_level_spec rest
                (leaf_count - (Z.of_nat (length (existing_children nr)) - 1))
                color_count h1) as (lc2 & h2 & Hrun2 & _ & Hframe).
    + eapply heap_ok_ext; [|done]. by apply grows_same_children.
    + by eapply grows_counted.
    + intros a Ha. unfold h1. rewrite length_insert. by apply Hin.
    + rewrite Hrun2 in Hrun. simplify_eq. rewrite Hframe by done.
      eexists. split_and!; [done..|]. apply absorbed_children.
Qed.

Lemma root_guard_clear r kids j rng lv :
  root_guard r kids (j :: rng) lv → root_guard r kids rng (<[j := []]> lv).
Proof.
  intros Hg j1 l1 Hj1 Hl1. destruct (decide (j = j1)) as [->|Hne].
  { rewrite lookup_insert_eq in Hl1. simplify_eq. left.
    split; [by intros ?%elem_of_nil|]. by intros k _ ?%elem_of_nil. }
  rewrite lookup_insert_ne in Hl1 by done.
  destruct (Hg j1 l1) as [?|(rest & -> & Hrest & Hothers)]; [by right|done|by left|].
  right. exists rest. split_and!; [done..|].
  intros j2 l2 Hj2 Hne2 Hl2. destruct (decide (j = j2)) as [->|Hne3].
  - rewrite lookup_insert_eq in Hl2. simplify_eq. by intros ?%elem_of_nil.
  - rewrite lookup_insert_ne in Hl2 by done. eapply (Hothers j2); [by right|done..].
Qed.

Lemma reduce_levels_root r rng : ∀ leaf_count color_count lv h nr leaf_count' lv' h',
  heap_ok h → Forall counted h →
  (∀ j l a, j ∈ rng → lv !! j = Some l → a ∈ l → (a < length h)%nat) →
  root_guard r (existing_children nr) rng lv →
  h !! r = Some nr → pixel_count nr = 0 →
  (total pixel_count h (existing_children nr) = 0
   ∨ ∀ j l, j ∈ rng → lv !! j = Some l → r ∉ l) →
  reduce_levels rng leaf_count color_count lv h = Ret (leaf_count', lv', h') →
  ∃ nr', h' !! r = Some nr' ∧ pixel_count nr' = 0.
Proof.
  induction rng as [|j rng IH];
    intros leaf_count color_count lv h nr leaf_count' lv' h' Hok Hc Hin Hguard Hr Hpc Hstate.
  { cbn [reduce_levels]. intros [= <- <- <-]. eauto. }
  cbn [reduce_levels]. destruct (lv !! j) as [l|] eqn:Hl; [|done].
  assert (∀ j' l' a, j' ∈ rng → lv !! j' = Some l' → a ∈ l' → (a < length h)%nat) as Hin'.
  { intros j' l' a Hj'. apply Hin. by right. }
  destruct l as [|x l].
  { apply (IH _ _ _ _ nr); [done..| | done |done|].
    - intros j1 l1 Hj1 Hl1.
      destruct (Hguard j1 l1) as [?|(rest & -> & Hrest & Hothers)]; [by right|done|by left|].
      right. exists rest. split_and!; [done..|].
      intros j2 l2 Hj2. apply Hothers. by right.
    - destruct Hstate as [?|Hno]; [by left|right].
      intros j1 l1 Hj1. apply Hno. by right. }
  assert (∀ a, a ∈ x :: l → (a < length h)%nat) as Hinj.
  { intros a Ha. eapply (Hin j); [by left|done..]. }
  destruct (reduce_level_spec (x :: l) leaf_count color_count h Hok Hc Hinj)
    as (lc1 & h1 & Hrun1 & Hg1 & Hframe1).
  rewrite Hrun1. cbn [lift bind].
  assert (heap_ok h1) as Hok1.
  { eapply heap_ok_ext; [|done]. by apply grows_same_children. }
  assert (Forall counted h1) as Hc1 by (by eapply grows_counted).
  assert (∀ j' l' a, j' ∈ rng → (<[j := []]> lv) !! j' = Some l' → a ∈ l' →
            (a < length h1)%nat) as Hin1.
  { intros j' l' a Hj' Hl' Ha. rewrite <- (Forall2_length _ _ _ Hg1).
    destruct (decide (j = j')) as [->|Hne].
    - rewrite lookup_insert_eq in Hl'. simplify_eq. by apply elem_of_nil in Ha.
    - rewrite lookup_insert_ne in Hl' by done. by eapply Hin'. }
  destruct (Hguard j (x :: l)) as [[Hnr Hnk]|(rest & E & Hrest & Hothers)]; [by left|done| |].
  - assert (h1 !! r = Some nr) as Hr1 by (by rewrite Hframe1).
    destruct (lc1 <=? color_count).
    { intros [= <- <- <-]. eauto. }
    apply (IH _ _ _ _ nr); [done..|by apply root_guard_clear|done|done|].
    destruct Hstate as [Hz|Hno]; [left|right].
    + rewrite <- Hz. apply total_ext. intros k Hk. apply Hframe1. by apply Hnk.
    + intros j1 l1 Hj1 Hl1. destruct (decide (j = j1)) as [->|Hne].
      * rewrite lookup_insert_eq in Hl1. simplify_eq. by intros ?%elem_of_nil.
      * rewrite lookup_insert_ne in Hl1 by done. eapply (Hno j1); [by right|done].
  - simplify_eq.
    destruct Hstate as [Hz|Hno]; [|by destruct (Hno j (r :: rest)); [left|done|left]].
    destruct (reduce_level_root_first r rest leaf_count color_count h nr lc1 h1)
      as (nr1 & Hr1 & Hpc1 & Hch1); [done..| |done|done|done|done|done|].
    { intros a Ha. apply Hinj. by right. }
    destruct (lc1 <=? color_count).
    { intros [= <- <- <-]. eauto. }
    apply (IH _ _ _ _ nr1); [done..| |done|done|].
    + rewrite (existing_children_same nr nr1 Hch1). by apply root_guard_clear.
    + right. intros j1 l1 Hj1 Hl1. destruct (decide (j = j1)) as [->|Hne].
      * rewrite lookup_insert_eq in Hl1. simplify_eq. by intros ?%elem_of_nil.
      * rewrite lookup_insert_ne in Hl1 by done. eapply (Hothers j1); [by right|done..].
Qed.

(** ** Allocating a child *)

Lemma child_fresh_node j : child fresh_node j = None.
Proof.
  unfold child. destruct (children fresh_node !! j) as [o|] eqn:E; [|done].
  unfold fresh_node in E. cbn [children] in E.
  apply lookup_replicate in E as [-> _]. done.
Qed.

Section grow.
Variables (h : list OctreeNode) (self : addr) (n : OctreeNode) (i : nat).
Hypothesis Hok : heap_ok h.
Hypothesis Hself : h !! self = Some n.
Hypothesis Hempty : child n i = None.
Hypothesis Hi : (i < 8)%nat.

Local Abbreviation k := (length h).
Local Abbreviation h' := (<[self := set_child n i (length h)]> (h ++ [fresh_node])).

Lemma grow_length : length h' = S (length h).
Proof using All. rewrite length_insert, length_app. simpl. lia. Qed.

Lemma grow_lookup_self : h' !! self = Some (set_child n i k).
Proof using All.
  apply list_lookup_insert_eq. rewrite length_app.
  apply lookup_lt_Some in Hself. lia.
Qed.

Lemma grow_lookup_new : h' !! k = Some fresh_node.
Proof using All.
  pose proof (lookup_lt_Some _ _ _ Hself).
  rewrite list_lookup_insert_ne by lia.
  rewrite lookup_app_r by lia.
  by rewrite Nat.sub_diag.
Qed.

Lemma grow_lookup_old a : a ≠ self → (a < length h)%nat → h' !! a = h !! a.
Proof using All.
  intros Hne Hlt. rewrite list_lookup_insert_ne by done.
  by rewrite lookup_app_l.
Qed.

Lemma grow_lookup a m :
  h' !! a = Some m →
  (a = self ∧ m = set_child n i k) ∨ (a = k ∧ m = fresh_node)
  ∨ (a ≠ self ∧ (a < length h)%nat ∧ h !! a = Some m).
Proof using All.
  intros Ha. destruct (decide (a = self)) as [->|Hne].
  { left. rewrite grow_lookup_self in Ha. by simplify_eq. }
  right. pose proof (lookup_lt_Some _ _ _ Ha) as Hlt. rewrite grow_length in Hlt.
  destruct (decide (a = k)) as [->|Hnk].
  { left. rewrite grow_lookup_new in Ha. by simplify_eq. }
  right. rewrite grow_lookup_old in Ha by lia.
  split_and!; [done|lia|done].
Qed.

Lemma child_set_child j :
  child (set_child n i k) j = if decide (j = i) then Some k else child n j.
Proof using All.
  unfold child, set_child. simpl.
  pose proof (ok_slots h Hok self n Hself) as Hlen.
  destruct (decide (j = i)) as [->|Hne].
  - by rewrite list_lookup_insert_eq by lia.
  - by rewrite list_lookup_insert_ne.
Qed.

Lemma grow_heap_ok : heap_ok h'.
Proof using All.
  pose proof (lookup_lt_Some _ _ _ Hself) as Hlt.
  assert (∀ a m j c, h' !! a = Some m → child m j = Some c →
            (a = self ∧ j = i ∧ c = k)
            ∨ (∃ m0, h !! a = Some m0 ∧ child m0 j = Some c)) as Hedge.
  { intros a m j c Ha Hc. destruct (grow_lookup a m Ha) as [[-> ->]|[[-> ->]|(Hne & Ha' & Hm)]].
    - rewrite child_set_child in Hc. destruct (decide (j = i)) as [->|].
      + left. by simplify_eq.
      + right. by exists n.
    - by rewrite child_fresh_node in Hc.
    - right. by exists m. }
  split.
  - intros a m Ha. destruct (grow_lookup a m Ha) as [[-> ->]|[[-> ->]|(Hne & Ha' & Hm)]].
    + unfold set_child. simpl. rewrite length_insert. by eapply ok_slots.
    + done.
    + by eapply ok_slots.
  - intros a m j c Ha Hc. rewrite grow_length.
    destruct (Hedge a m j c Ha Hc) as [(-> & -> & ->)|(m0 & Hm0 & Hc0)].
    + lia.
    + destruct (ok_order h Hok a m0 j c Hm0 Hc0). lia.
  - intros a b ma mb ja jb c Ha Hb Hca Hcb.
    destruct (Hedge a ma ja c Ha Hca) as [(Ea & Eja & Ec)|(ma0 & Hma0 & Hca0)],
             (Hedge b mb jb c Hb Hcb) as [(Eb & Ejb & Ec')|(mb0 & Hmb0 & Hcb0)].
    + by subst.
    + destruct (ok_order h Hok b mb0 jb c Hmb0 Hcb0). lia.
    + destruct (ok_order h Hok a ma0 ja c Hma0 Hca0). lia.
    + by eapply (ok_parent h Hok a b ma0 mb0).
Qed.

Lemma walk_new_stops q b : walk h' k q = Some b → q = [] ∧ b = k.
Proof using All.
  destruct q as [|j q]; simpl.
  - intros [= <-]. done.
  - rewrite grow_lookup_new. cbn. by rewrite child_fresh_node.
Qed.

Lemma walk_grow a q b :
  (a < length h)%nat →
  walk h' a q = Some b ↔
  walk h a q = Some b ∨ ∃ q1, q = q1 ++ [i] ∧ walk h a q1 = Some self ∧ b = k.
Proof using All.
  revert a. induction q as [|j q IH]; intros a Ha.
  - simpl. split; [by left|]. intros [?|(q1 & E & _)]; [done|]. by destruct q1.
  - rewrite !walk_cons.
    destruct (decide (a = self)) as [->|Hne].
    + rewrite grow_lookup_self, Hself. cbn. rewrite child_set_child.
      destruct (decide (j = i)) as [->|Hji].
      * rewrite Hempty. cbn. split.
        -- intros [-> ->]%walk_new_stops. right. by exists [].
        -- intros [?|(q1 & E & Hq1 & ->)]; [done|].
           destruct q1 as [|j1 q1].
           ++ simpl in E. by simplify_eq.
           ++ destruct (walk_order h self (j1 :: q1) self Hok Hq1) as [_ Hlt].
              destruct Hlt; [done|lia].
      * destruct (child n j) as [c|] eqn:Hc; cbn.
        -- destruct (ok_order h Hok self n j c Hself Hc) as [? ?].
           rewrite IH by done. split.
           ++ intros [?|(q1 & -> & Hq1 & ->)]; [by left|]. right.
              exists (j :: q1). split_and!; [done| |done].
              rewrite walk_cons, Hself. cbn. by rewrite Hc.
           ++ intros [?|(q1 & E & Hq1 & ->)]; [by left|]. right.
              destruct q1 as [|j1 q1]; [simpl in E; by simplify_eq|].
              simpl in E. simplify_eq. exists q1. split_and!; [done| |done].
              rewrite walk_cons, Hself in Hq1. cbn in Hq1. by rewrite Hc in Hq1.
        -- split; [done|]. intros [?|(q1 & E & Hq1 & ->)]; [done|].
           destruct q1 as [|j1 q1]; [simpl in E; by simplify_eq|].
           simpl in E. simplify_eq.
           rewrite walk_cons, Hself in Hq1. cbn in Hq1. by rewrite Hc in Hq1.
    + rewrite grow_lookup_old by done.
      destruct (h !! a) as [m|] eqn:Hm; cbn.
      * destruct (child m j) as [c|] eqn:Hc; cbn.
        -- destruct (ok_order h Hok a m j c Hm Hc) as [? ?].
           rewrite IH by done. split.
           ++ intros [?|(q1 & -> & Hq1 & ->)]; [by left|]. right.
              exists (j :: q1). split_and!; [done| |done].
              rewrite walk_cons, Hm. cbn. by rewrite Hc.
           ++ intros [?|(q1 & E & Hq1 & ->)]; [by left|]. right.
              destruct q1 as [|j1 q1].
              { simpl in Hq1. by simplify_eq. }
              simpl in E. simplify_eq. exists q1. split_and!; [done| |done].
              rewrite walk_cons, Hm in Hq1. cbn in Hq1. by rewrite Hc in Hq1.
        -- split; [done|]. intros [?|(q1 & E & Hq1 & ->)]; [done|].
           destruct q1 as [|j1 q1].
           { simpl in Hq1. by simplify_eq. }
           simpl in E. simplify_eq.
           rewrite walk_cons, Hm in Hq1. cbn in Hq1. by rewrite Hc in Hq1.
      * split; [done|]. intros [?|(q1 & E & Hq1 & ->)]; [done|].
        destruct q1 as [|j1 q1].
        { simpl in Hq1. by simplify_eq. }
        rewrite walk_cons, Hm in Hq1. done.
Qed.

Lemma walk_grow_root r p q b :
  (r < length h)%nat → walk h r p = Some self →
  walk h' r q = Some b ↔ walk h r q = Some b ∨ (q = p ++ [i] ∧ b = k).
Proof using All.
  intros Hr Hp. rewrite walk_grow by done. split.
  - intros [?|(q1 & -> & Hq1 & ->)]; [by left|]. right.
    by rewrite (walk_inj h r q1 p self Hok Hq1 Hp).
  - intros [?|[-> ->]]; [by left|]. right. by exists p.
Qed.
End grow.

(** ** The tree while colours are added *)

Lemma color_path_cons c level len :
  color_path c level (S len) = slot c level :: color_path c (S level) len.
Proof. done. Qed.

Lemma StronglySorted_snoc_lt (l : list nat) (k : nat) :
  StronglySorted lt l → (∀ a, a ∈ l → (a < k)%nat) → StronglySorted lt (l ++ [k]).
Proof.
  induction 1 as [|x l Hl IH Hx]; intros Hk; simpl.
  - repeat constructor.
  - constructor.
    + apply IH. intros a Ha. apply Hk. by right.
    + apply Forall_app. split; [done|]. constructor; [|constructor]. apply Hk. by left.
Qed.

Lemma Forall_insert_same {A} (P : A → Prop) (h : list A) a x :
  Forall P h → P x → Forall P (<[a := x]> h).
Proof.
  intros Hh Hx. apply Forall_lookup. intros i y Hy.
  destruct (decide (i = a)) as [->|Hne].
  - destruct (decide (a < length h)%nat).
    + rewrite list_lookup_insert_eq in Hy by done. by simplify_eq.
    + rewrite list_insert_ge in Hy by lia. by eapply Forall_lookup_1.
  - rewrite list_lookup_insert_ne in Hy by done. by eapply Forall_lookup_1.
Qed.

(** The case [level >= MAX_DEPTH]: the node absorbs the colour. *)
Lemma inv_absorb D r lv w self n c p :
  inv D r lv w self → heap w !! self = Some n →
  walk (heap w) r p = Some self → Z.of_nat (length p) = D →
  inv D r lv (set_node w self (absorb n c)) r
  ∧ ∀ q, walk (heap (set_node w self (absorb n c))) r q = walk (heap w) r q.
Proof.
  intros [[Hd Hok Hr Hpal Hcnt] Hdepth Hreg Hfull] Hn Hp Hlen.
  assert (Forall2 same_children (heap w) (<[self := absorb n c]> (heap w))) as Hsc.
  { by apply (same_children_insert (heap w) self n). }
  assert (∀ q, walk (<[self := absorb n c]> (heap w)) r q = walk (heap w) r q) as Hw.
  { intros q. by apply walk_ext. }
  assert (0 ≤ pixel_count n) as Hpc.
  { by apply (Forall_lookup_1 _ _ _ _ Hcnt Hn). }
  split; [|apply Hw].
  split; [split|..]; simpl.
  - done.
  - by eapply heap_ok_ext.
  - by rewrite length_insert.
  - apply Forall_insert_same; [done|]. simpl. apply (Forall_lookup_1 _ _ _ _ Hpal Hn).
  - apply Forall_insert_same; [done|]. unfold counted. simpl. lia.
  - intros q a m Hq Hm. rewrite Hw in Hq.
    destruct (decide (a = self)) as [->|Hne].
    + rewrite (walk_inj _ r q p self Hok Hq Hp). lia.
    + rewrite list_lookup_insert_ne in Hm by done. by eapply Hdepth.
  - intros j Hj. destruct (Hreg j Hj) as (l & Hl & Hs & Hmem).
    exists l. split_and!; [done..|]. intros a. rewrite Hmem.
    by setoid_rewrite Hw.
  - intros q a m Hq Hm Hne. rewrite Hw in Hq.
    destruct (decide (a = self)) as [->|Hne'].
    + rewrite (walk_inj _ r q p self Hok Hq Hp).
      rewrite list_lookup_insert_eq in Hm by (by eapply lookup_lt_Some). simplify_eq.
      split; [lia|]. simpl. lia.
    + rewrite list_lookup_insert_ne in Hm by done. by eapply Hfull.
Qed.

(** A node with a child is complete: the descent may move on to the child. *)
Lemma inv_descend D r lv w self n i k p :
  inv D r lv w self → heap w !! self = Some n → child n i = Some k →
  walk (heap w) r p = Some self → Z.of_nat (length p) < D →
  inv D r lv w k.
Proof.
  intros [Hst Hdepth Hreg Hfull] Hn Hk Hp Hlen. split; [done..|].
  intros q a m Hq Hm _. destruct (decide (a = self)) as [->|Hne]; [|by eapply Hfull].
  rewrite (walk_inj _ r q p self (st_ok _ _ _ Hst) Hq Hp). simplify_eq.
  split; [by eauto|lia].
Qed.

(** The case of a missing child: allocate, register, link. *)
Lemma inv_create D r lv w self n c p level :
  inv D r lv w self → heap w !! self = Some n →
  walk (heap w) r p = Some self → length p = level → Z.of_nat level < D →
  child n (slot c level) = None →
  ∃ lv' w',
    OctreeNode_init level lv w = Ret (length (heap w), lv', w')
    ∧ let w'' := set_node w' self (set_child n (slot c level) (length (heap w))) in
      inv D r lv' w'' (length (heap w))
      ∧ walk (heap w'') r (p ++ [slot c level]) = Some (length (heap w))
      ∧ ∀ q a, walk (heap w) r q = Some a → walk (heap w'') r q = Some a.
Proof.
  intros [[Hd Hok Hr Hpal Hcnt] Hdepth Hreg Hfull] Hn Hp Hlen Hlt Hnone.
  pose proof (slot_lt c level) as Hi.
  set (i := slot c level) in *. set (k := length (heap w)).
  set (h'' := <[self := set_child n i k]> (heap w ++ [fresh_node])).
  pose proof (walk_grow_root (heap w) self n i Hok Hn Hnone Hi r p) as Hwalk.
  fold k h'' in Hwalk.
  assert (∃ lv', OctreeNode_init level lv w
                 = Ret (k, lv', mkWorld (MAX_DEPTH w) (heap w ++ [fresh_node]))
                 ∧ reg_ok D r lv' h'') as (lv' & Hinit & Hreg').
  { unfold OctreeNode_init. rewrite Hd.
    destruct (Z.ltb_spec (Z.of_nat level) (D - 1)) as [Hreg1|Hreg1].
    - destruct (Hreg level Hlt) as (l & Hl & Hs & Hmem).
      unfold add_level_node. rewrite Hl. cbn [bind].
      eexists. split; [done|].
      intros j Hj. destruct (decide (j = level)) as [->|Hne].
      + exists (l ++ [k]). rewrite lookup_insert_eq, app_assoc. split_and!; [done| |].
        * apply StronglySorted_snoc_lt; [done|]. intros a Ha.
          apply Hmem in Ha as (_ & q & _ & Hq). by eapply walk_in_heap.
        * intros a. rewrite elem_of_app, list_elem_of_singleton, Hmem. split.
          -- intros [(? & q & Hq & Hw)| ->].
             ++ split; [done|]. exists q. split; [done|]. apply Hwalk; [done..|by left].
             ++ split; [lia|]. exists (p ++ [i]). split.
                ** rewrite length_app. simpl. lia.
                ** apply Hwalk; [done..|by right].
          -- intros (? & q & Hq & Hw). apply Hwalk in Hw as [Hw|[_ ->]]; [|by right|done..].
             left. split; [done|]. by exists q.
      + destruct (Hreg j Hj) as (l' & Hl' & Hs' & Hmem').
        exists l'. rewrite lookup_insert_ne by lia. split_and!; [done..|].
        intros a. rewrite Hmem'. split.
        * intros (? & q & Hq & Hw). split; [done|]. exists q. split; [done|].
          apply Hwalk; [done..|by left].
        * intros (? & q & Hq & Hw). split; [done|]. exists q. split; [done|].
          apply Hwalk in Hw as [Hw|[-> _]]; [done| |done..].
          rewrite length_app in Hq. simpl in Hq. lia.
    - eexists. split; [done|].
      intros j Hj. destruct (Hreg j Hj) as (l' & Hl' & Hs' & Hmem').
      exists l'. split_and!; [done..|].
      intros a. rewrite Hmem'. split.
      * intros (? & q & Hq & Hw). split; [done|]. exists q. split; [done|].
        apply Hwalk; [done..|by left].
      * intros (? & q & Hq & Hw). split; [done|]. exists q. split; [done|].
        apply Hwalk in Hw as [Hw|[-> _]]; [done| |done..].
        rewrite length_app in Hq. simpl in Hq. lia. }
  exists lv', (mkWorld (MAX_DEPTH w) (heap w ++ [fresh_node])).
  split; [done|]. cbn zeta. unfold set_node. cbn [heap MAX_DEPTH]. fold h''.
  assert (∀ a m, h'' !! a = Some m → a ≠ k →
            ∃ m0, heap w !! a = Some m0 ∧ pixel_count m = pixel_count m0
                  ∧ (∀ j c', child m0 j = Some c' → child m j = Some c')
                  ∧ (a = self → child m i = Some k)) as Hold.
  { intros a m Hm Hne.
    destruct (grow_lookup (heap w) self n i Hok Hn Hnone Hi a m Hm) as [[-> ->]|[[-> ->]|(? & ? & ?)]].
    - exists n. split_and!; [done..| |].
      + intros j c' Hc'. rewrite (child_set_child (heap w) self n i Hok Hn Hnone Hi).
        destruct (decide (j = i)) as [->|]; [congruence|done].
      + intros _. rewrite (child_set_child (heap w) self n i Hok Hn Hnone Hi).
        by rewrite decide_True.
    - done.
    - exists m. split_and!; [done..|]. by intros ->. }
  split_and!.
  - split; [split|..]; cbn [heap MAX_DEPTH].
    + done.
    + by apply grow_heap_ok.
    + unfold h''. rewrite length_insert, length_app. lia.
    + apply Forall_insert_same; [|by apply (Forall_lookup_1 _ _ _ _ Hpal Hn)].
      apply Forall_app. split; [done|]. by repeat constructor.
    + apply Forall_insert_same; [|by apply (Forall_lookup_1 _ _ _ _ Hcnt Hn)].
      apply Forall_app. split; [done|]. by repeat constructor.
    + intros q a m Hq Hm. apply Hwalk in Hq as [Hq|[-> ->]]; [| |done..].
      * destruct (Hold a m Hm) as (m0 & Hm0 & -> & _).
        { pose proof (walk_in_heap _ r q a Hok Hr Hq). unfold k. lia. }
        by eapply Hdepth.
      * unfold h'', k in Hm. rewrite (grow_lookup_new (heap w) self n i Hok Hn Hnone Hi) in Hm. simplify_eq.
        rewrite length_app. simpl. split; [lia|done].
    + done.
    + intros q a m Hq Hm Hne. apply Hwalk in Hq as [Hq|[-> ->]]; [|done..].
      destruct (Hold a m Hm Hne) as (m0 & Hm0 & Hpc & Hch & Hself).
      destruct (decide (a = self)) as [->|Hne'].
      * rewrite (walk_inj _ r q p self Hok Hq Hp). split; [|lia].
        intros _ _. exists i, k. by apply Hself.
      * destruct (Hfull q a m0 Hq Hm0 Hne') as [Hch' Hleaf]. split.
        -- intros Hq1 Hq2. destruct (Hch' Hq1 Hq2) as (j & c' & Hc'). eauto.
        -- rewrite Hpc. apply Hleaf.
  - apply Hwalk; [done..|by right].
  - intros q a Hq. apply Hwalk; [done..|by left].
Qed.

Lemma Node_add_color_S fuel self c level parent w :
  Node_add_color (S fuel) self c level parent w =
  do n <- lift (heap w !! self);
  if MAX_DEPTH w <=? Z.of_nat level then
    Ret (parent, set_node w self (absorb n c))
  else
    match child n (slot c level) with
    | Some k => Node_add_color fuel k c (S level) parent w
    | None =>
      do (k, parent', w') <- OctreeNode_init level parent w;
      Node_add_color fuel k c (S level) parent'
                     (set_node w' self (set_child n (slot c level) k))
    end.
Proof. done. Qed.

(** Adding a colour below a node of the tree: the call returns, the tree
    is complete again, old paths stay, and the colour has its path. *)
Lemma Node_add_color_inv D r c fuel :
  ∀ self level lv w p,
    inv D r lv w self → walk (heap w) r p = Some self → length p = level →
    Z.of_nat level ≤ D → (Z.to_nat D - level < fuel)%nat →
    ∃ lv' w',
      Node_add_color fuel self c level lv w = Ret (lv', w')
      ∧ inv D r lv' w' r
      ∧ (∀ q a, walk (heap w) r q = Some a → walk (heap w') r q = Some a)
      ∧ is_Some (walk (heap w') r (p ++ color_path c level (Z.to_nat D - level))).
Proof.
  induction fuel as [|fuel IH]; intros self level lv w p Hinv Hp Hlen Hle Hfuel; [lia|].
  pose proof (inv_static _ _ _ _ _ Hinv) as Hst.
  pose proof (walk_in_heap _ r p self (st_ok _ _ _ Hst) (st_root _ _ _ Hst) Hp) as Hself.
  destruct (lookup_lt_is_Some_2 _ _ Hself) as [n Hn].
  rewrite Node_add_color_S, Hn. cbn [lift bind]. rewrite (st_depth _ _ _ Hst).
  destruct (Z.leb_spec D (Z.of_nat level)) as [Hge|Hlt].
  - destruct (inv_absorb D r lv w self n c p Hinv Hn Hp) as [Hinv' Hw]; [lia|].
    eexists _, _. split_and!; [done|done| |].
    + intros q a Hq. by rewrite Hw.
    + replace (Z.to_nat D - level)%nat with 0%nat by lia.
      rewrite Hw. cbn. rewrite app_nil_r. by eexists.
  - replace (Z.to_nat D - level)%nat with (S (Z.to_nat D - S level)) by lia.
    rewrite color_path_cons.
    replace (p ++ slot c level :: color_path c (S level) (Z.to_nat D - S level))
      with ((p ++ [slot c level]) ++ color_path c (S level) (Z.to_nat D - S level))
      by (by rewrite <- app_assoc).
    destruct (child n (slot c level)) as [k|] eqn:Hk.
    + apply (IH k (S level) lv w (p ++ [slot c level])).
      * eapply inv_descend; [done..|lia].
      * apply walk_snoc. by exists self, n.
      * rewrite length_app. simpl. lia.
      * lia.
      * lia.
    + destruct (inv_create D r lv w self n c p level Hinv Hn Hp Hlen Hlt Hk)
        as (lv1 & w1 & Hinit & Hinv1 & Hwalk1 & Hkeep1).
      rewrite Hinit. cbn [bind].
      destruct (IH (length (heap w)) (S level) lv1
                   (set_node w1 self (set_child n (slot c level) (length (heap w))))
                   (p ++ [slot c level])) as (lv' & w' & Hrun & Hinv' & Hkeep' & Hpath').
      * done.
      * done.
      * rewrite length_app. simpl. lia.
      * lia.
      * lia.
      * exists lv', w'. split_and!; [done..| |done].
        intros q a Hq. by apply Hkeep', Hkeep1.
Qed.

(** ** Construction *)

Lemma empty_levels_lookup (n : Z) (j : Z) :
  empty_levels n !! j = if decide (0 ≤ j < n) then Some [] else None.
Proof.
  unfold empty_levels, range.
  assert (∀ m : nat,
    (list_to_map (map (fun i => (Z.of_nat i, [])) (seq 0 m)) : gmap Z (list nat)) !! j
    = if decide (0 ≤ j < Z.of_nat m) then Some [] else None) as H.
  { induction m as [|m IH].
    - simpl. rewrite lookup_empty. by rewrite decide_False by lia.
    - rewrite seq_S, map_app, list_to_map_app. simpl.
      rewrite lookup_union, IH.
      destruct (decide (j = Z.of_nat m)) as [->|Hne].
      + rewrite lookup_insert_eq. rewrite decide_False by lia.
        by rewrite decide_True by lia.
      + rewrite lookup_insert_ne, lookup_empty by done.
        repeat case_decide; try done; lia. }
  rewrite H. destruct (decide (0 ≤ n)).
  - by rewrite Z2Nat.id.
  - rewrite !decide_False; [done|lia|]. rewrite Z2Nat.nonpos by lia. simpl. lia.
Qed.

Lemma heap_ok_fresh : heap_ok [fresh_node].
Proof.
  assert (∀ a n, [fresh_node] !! a = Some n → n = fresh_node) as H.
  { intros [|a] n; simpl; [by intros [= <-]|done]. }
  split.
  - by intros a n ->%H.
  - intros a n i k ->%H. by rewrite child_fresh_node.
  - intros a b na nb i j k ->%H _. by rewrite child_fresh_node.
Qed.

Lemma walk_fresh p a : walk [fresh_node] 0 p = Some a → p = [] ∧ a = 0%nat.
Proof.
  destruct p as [|i p]; simpl; [by intros [= <-]|].
  by rewrite child_fresh_node.
Qed.

Lemma OctreeQuantizer_init_inv D w0 :
  0 ≤ D → heap w0 = [] →
  ∃ q w, OctreeQuantizer_init D w0 = Ret (q, w)
         ∧ root q = 0%nat
         ∧ inv D (root q) (levels q) w (root q).
Proof.
  intros HD Hw0. unfold OctreeQuantizer_init, OctreeNode_init. cbn [MAX_DEPTH heap].
  rewrite Hw0. cbn [length app].
  assert (∃ lv,
    (if Z.of_nat 0 <? D - 1
     then do parent' <- add_level_node (empty_levels D) 0 0%nat;
          Ret (0%nat, parent', mkWorld D [fresh_node])
     else Ret (0%nat, empty_levels D, mkWorld D [fresh_node]))
    = Ret (0%nat, lv, mkWorld D [fresh_node])
    ∧ ∀ j : nat, Z.of_nat j < D →
        lv !! Z.of_nat j = Some (if decide (j = 0%nat ∧ 1 < D) then [0%nat] else []))
    as (lv & -> & Hlv).
  { destruct (Z.ltb_spec (Z.of_nat 0) (D - 1)) as [Hlt|Hge].
    - unfold add_level_node. rewrite empty_levels_lookup, decide_True by lia. cbn [bind].
      eexists. split; [done|]. intros j Hj. destruct (decide (j = 0%nat)) as [->|Hne].
      + rewrite lookup_insert_eq. by rewrite decide_True by (split; [done|lia]).
      + rewrite lookup_insert_ne by lia. rewrite empty_levels_lookup, decide_True by lia.
        by rewrite decide_False by lia.
    - eexists. split; [done|]. intros j Hj.
      rewrite empty_levels_lookup, decide_True by lia.
      by rewrite decide_False by lia. }
  cbn [bind]. eexists _, _. split; [done|]. cbn [root levels]. split; [done|].
  split; [split|..]; cbn [heap MAX_DEPTH].
  - done.
  - apply heap_ok_fresh.
  - simpl. lia.
  - by repeat constructor.
  - by repeat constructor.
  - intros p a n [-> ->]%walk_fresh. simpl. intros [= <-]. split; [lia|done].
  - intros j Hj. exists []. rewrite app_nil_r. split_and!; [by apply Hlv|constructor|].
    intros a. split; [by intros ?%elem_of_nil|].
    intros (_ & p & Hp & [-> _]%walk_fresh). done.
  - by intros p a n [-> ->]%walk_fresh.
Qed.

Lemma add_color_inv D q c w :
  inv D (root q) (levels q) w (root q) →
  ∃ q' w', add_color q c w = Ret (q', w')
    ∧ root q' = root q
    ∧ inv D (root q) (levels q') w' (root q)
    ∧ (∀ p a, walk (heap w) (root q) p = Some a → walk (heap w') (root q) p = Some a)
    ∧ is_Some (walk (heap w') (root q) (color_path c 0 (Z.to_nat D))).
Proof.
  intros Hinv. unfold add_color.
  destruct (Node_add_color_inv D (root q) c (S (Z.to_nat (MAX_DEPTH w)))
              (root q) 0%nat (levels q) w [] Hinv)
    as (lv' & w' & -> & Hinv' & Hkeep & Hpath); [done|done| | |].
  - pose proof (inv_depth _ _ _ _ _ Hinv [] (root q)) as Hd.
    destruct (lookup_lt_is_Some_2 (heap w) (root q)) as [n Hn].
    { apply (st_root _ _ _ (inv_static _ _ _ _ _ Hinv)). }
    destruct (Hd n eq_refl Hn) as [Hle _]. exact Hle.
  - rewrite (st_depth _ _ _ (inv_static _ _ _ _ _ Hinv)). lia.
  - cbn [bind]. eexists _, _. split; [done|]. cbn [root levels].
    split_and!; [done..|]. by rewrite Nat.sub_0_r in Hpath.
Qed.

Lemma add_colors_inv D cs : ∀ q w,
  inv D (root q) (levels q) w (root q) →
  ∃ q' w', add_colors q cs w = Ret (q', w')
    ∧ root q' = root q
    ∧ inv D (root q) (levels q') w' (root q)
    ∧ (∀ p a, walk (heap w) (root q) p = Some a → walk (heap w') (root q) p = Some a)
    ∧ ∀ c, c ∈ cs → is_Some (walk (heap w') (root q) (color_path c 0 (Z.to_nat D))).
Proof.
  induction cs as [|c cs IH]; intros q w Hinv.
  - exists q, w. split_and!; [done..|]. by intros c ?%elem_of_nil.
  - destruct (add_color_inv D q c w Hinv) as (q1 & w1 & Hrun & Hroot & Hinv1 & Hkeep1 & Hc).
    cbn [add_colors]. rewrite Hrun. cbn [bind].
    rewrite <- Hroot in Hinv1.
    destruct (IH q1 w1 Hinv1) as (q' & w' & Hrun' & Hroot' & Hinv' & Hkeep' & Hcs).
    rewrite Hroot in *.
    exists q', w'. split_and!; [done|congruence|done| |].
    + intros p a Hp. by apply Hkeep', Hkeep1.
    + intros c' [->|Hin]%elem_of_cons; [|by apply Hcs].
      destruct Hc as [a Ha]. exists a. by apply Hkeep'.
Qed.

(** What holds of every quantizer that was constructed with depth [D]
    and given the colours [cs]. *)
Lemma build_inv D cs :
  0 ≤ D →
  ∃ q w, build D cs = Ret (q, w)
    ∧ inv D (root q) (levels q) w (root q)
    ∧ ∀ c, c ∈ cs → is_Some (walk (heap w) (root q) (color_path c 0 (Z.to_nat D))).
Proof.
  intros HD. unfold build.
  destruct (OctreeQuantizer_init_inv D world0 HD eq_refl) as (q0 & w0 & -> & Hr & Hinv).
  cbn [bind].
  destruct (add_colors_inv D cs q0 w0 Hinv) as (q & w & -> & Hroot & Hinv' & _ & Hcs).
  exists q, w. rewrite Hroot. done.
Qed.

(** ** The palette loop *)

Lemma indexed_refl n : indexed n n.
Proof. done. Qed.

Lemma indexed_trans x y z : indexed x y → indexed y z → indexed x z.
Proof. unfold indexed. intros (? & ? & ?) (? & ? & ?). split_and!; congruence. Qed.

Lemma get_color_leaf n : is_leaf n = true → ∃ c, get_color n = Ret c.
Proof.
  unfold is_leaf, get_color. intros H%Z.ltb_lt.
  destruct (Z.eqb_spec (pixel_count n) 0); [lia|]. by eexists.
Qed.

Lemma build_palette_spec leaves : ∀ palette palette_index color_count h,
  NoDup leaves →
  (∀ a, a ∈ leaves → ∃ n, h !! a = Some n ∧ is_leaf n = true) →
  ∃ added h',
    build_palette leaves palette palette_index color_count h = Ret (palette ++ added, h')
    ∧ length added = Nat.min (length leaves) (Z.to_nat (color_count - palette_index))
    ∧ Forall2 indexed h h'
    ∧ (∀ a, a ∉ leaves → h' !! a = h !! a)
    ∧ ∀ i a, leaves !! i = Some a →
        ∃ n, h !! a = Some n
             ∧ if decide (palette_index + Z.of_nat i < color_count)
               then h' !! a = Some (set_palette_index n (palette_index + Z.of_nat i))
                    ∧ ∃ c, get_color n = Ret c ∧ added !! i = Some c
               else h' !! a = Some n.
Proof.
  induction leaves as [|node rest IH]; intros palette pi k h Hnd Hleaf.
  - exists [], h. rewrite app_nil_r. split_and!; [done|done| |done|done].
    apply Forall2_refl_rel, indexed_refl.
  - cbn [build_palette]. apply NoDup_cons in Hnd as [Hnode Hnd].
    destruct (Z.leb_spec k pi) as [Hstop|Hgo].
    + exists [], h. rewrite app_nil_r. split_and!; [done| | |done|].
      * cbn [length]. rewrite Z2Nat.nonpos by lia. lia.
      * apply Forall2_refl_rel, indexed_refl.
      * intros i a Hi. destruct (Hleaf a) as (n & Hn & _); [by eapply list_elem_of_lookup_2|].
        exists n. split; [done|]. by rewrite decide_False by lia.
    + destruct (Hleaf node) as (n & Hn & Hl); [by left|].
      rewrite Hn. cbn [lift bind]. rewrite Hl.
      destruct (get_color_leaf n Hl) as [c Hc]. rewrite Hc. cbn [bind].
      set (h1 := <[node := set_palette_index n pi]> h).
      assert (∀ a, a ≠ node → h1 !! a = h !! a) as Hframe.
      { intros a Ha. unfold h1. by rewrite list_lookup_insert_ne. }
      destruct (IH (palette ++ [c]) (pi + 1) k h1 Hnd) as (added & h' & Hrun & Hlen & Hrel & Hkeep & Hset).
      { intros a Ha. rewrite Hframe; [apply Hleaf; by right|]. by intros ->. }
      exists (c :: added), h'. split_and!.
      * rewrite Hrun. by rewrite <- app_assoc.
      * cbn [length]. rewrite Hlen. lia.
      * eapply Forall2_trans_rel; [apply indexed_trans| |done].
        by apply (Forall2_insert_r_rel indexed h node n); [apply indexed_refl|done|].
      * intros a Ha. rewrite Hkeep, Hframe; [done| |].
        -- intros ->. apply Ha. by left.
        -- intros Hin. apply Ha. by right.
      * intros [|i] a Hi.
        -- simpl in Hi. simplify_eq. exists n. split; [done|].
           rewrite decide_True by lia. rewrite Hkeep by done.
           split; [|by exists c].
           unfold h1. rewrite list_lookup_insert_eq by (by eapply lookup_lt_Some).
           do 2 f_equal. lia.
        -- simpl in Hi. destruct (Hset i a Hi) as (m & Hm & Hres).
           assert (a ≠ node) as Hne.
           { intros ->. apply Hnode. by eapply list_elem_of_lookup_2. }
           rewrite Hframe in Hm by done. exists m. split; [done|].
           replace (pi + Z.of_nat (S i)) with (pi + 1 + Z.of_nat i) by lia.
           destruct (decide (pi + 1 + Z.of_nat i < k)); [|done].
           destruct Hres as [? (c' & ? & ?)]. split; [done|]. by exists c'.
Qed.

(** ** The first leaf on a path *)

Lemma walk_first_leaf h : ∀ p x z nz,
  p ≠ [] → walk h x p = Some z → h !! z = Some nz → is_leaf nz = true →
  ∃ a, reaches_leaf h x a.
Proof.
  induction p as [|i p IH]; intros x z nz Hp Hw Hz Hl; [done|].
  rewrite walk_cons in Hw.
  destruct (h !! x) as [n|] eqn:Hx; [|done]. cbn in Hw.
  destruct (child n i) as [k|] eqn:Hk; [|done]. cbn in Hw.
  destruct p as [|j p].
  - simpl in Hw. simplify_eq. exists z. by eapply reaches_child.
  - assert (∃ nk, h !! k = Some nk) as [nk Hnk].
    { rewrite walk_cons in Hw. destruct (h !! k); [by eexists|done]. }
    destruct (is_leaf nk) eqn:Hlk.
    + exists k. by eapply reaches_child.
    + destruct (IH k z nz) as [a Ha]; [done..|].
      exists a. by eapply reaches_below.
Qed.

(** The descent for a colour whose own path ends in a leaf follows
    that path and stops at its first leaf. *)
Lemma descend_on_path h c : ∀ len fuel x level n z nz,
  h !! x = Some n → is_leaf n = false →
  walk h x (color_path c level len) = Some z →
  h !! z = Some nz → is_leaf nz = true → (len < fuel)%nat →
  ∃ a m, Node_descend fuel h x c level = Some (Some a)
         ∧ reaches_leaf h x a
         ∧ (0 < m ≤ len)%nat ∧ walk h x (color_path c level m) = Some a.
Proof.
  induction len as [|len IH]; intros fuel x level n z nz Hx Hl Hw Hz Hlz Hf.
  { simpl in Hw. simplify_eq. congruence. }
  destruct fuel as [|fuel]; [lia|].
  rewrite color_path_cons, walk_cons, Hx in Hw. cbn in Hw.
  destruct (child n (slot c level)) as [k|] eqn:Hk; [|done]. cbn in Hw.
  rewrite Node_descend_S, Hx. cbn. rewrite Hl, Hk.
  assert (∃ nk, h !! k = Some nk) as [nk Hnk].
  { destruct len as [|len].
    - simpl in Hw. simplify_eq. by eexists.
    - rewrite color_path_cons, walk_cons in Hw. destruct (h !! k); [by eexists|done]. }
  destruct (is_leaf nk) eqn:Hlk.
  - exists k, 1%nat. split_and!.
    + destruct fuel as [|fuel]; [lia|]. rewrite Node_descend_S, Hnk. cbn. by rewrite Hlk.
    + by eapply reaches_child.
    + lia.
    + lia.
    + rewrite color_path_cons, walk_cons, Hx. cbn. by rewrite Hk.
  - destruct (IH fuel k (S level) nk z nz) as (a & m & Hd & Hr & Hm & Hwa); [done..|lia|].
    exists a, (S m). split_and!; [done| |lia|lia|].
    + by eapply reaches_below.
    + rewrite color_path_cons, walk_cons, Hx. cbn. by rewrite Hk.
Qed.

(** ** The registry of a built quantizer guards the root *)

Lemma down_range_elem (D j : Z) : j ∈ down_range D ↔ 0 ≤ j < D.
Proof.
  unfold down_range, range. rewrite list_elem_of_In, in_map_iff. split.
  - intros (i & <- & Hi). apply in_rev, in_seq in Hi. lia.
  - intros Hj. exists (Z.to_nat j). split; [lia|]. apply in_rev. rewrite rev_involutive.
    apply in_seq. lia.
Qed.

Lemma inv_root_guard D r lv w nr :
  1 ≤ D → inv D r lv w r → heap w !! r = Some nr →
  root_guard r (existing_children nr) (down_range D) lv
  ∧ (total pixel_count (heap w) (existing_children nr) = 0
     ∨ ∀ j l, j ∈ down_range D → lv !! j = Some l → r ∉ l).
Proof.
  intros HD [[Hd Hok Hr Hpal Hcnt] Hdepth Hreg Hfull] Hnr.
  assert (∀ p, p ≠ [] → walk (heap w) r p ≠ Some r) as Hroot.
  { intros p Hp Hw. by apply Hp, (walk_inj (heap w) r p [] r Hok Hw). }
  assert (∀ k, k ∈ existing_children nr → ∃ s, walk (heap w) r [s] = Some k) as Hkid.
  { intros k (s & _ & Hs)%existing_children_spec. exists s.
    rewrite walk_cons, Hnr. cbn. by rewrite Hs. }
  assert (∀ j l, j ∈ down_range D → lv !! j = Some l →
            ∃ l0, l = (if decide (Z.to_nat j = 0%nat ∧ 1 < D) then [r] else []) ++ l0
                  ∧ (r ∉ l0)
                  ∧ ((1 ≤ j ∨ D = 1) → ∀ k, k ∈ existing_children nr → k ∉ l0)) as Hshape.
  { intros j l Hj%down_range_elem Hl.
    destruct (Hreg (Z.to_nat j)) as (l0 & Hl0 & _ & Hmem); [lia|].
    rewrite Z2Nat.id in Hl0 by lia. rewrite Hl in Hl0. simplify_eq.
    exists l0. split_and!; [done| |].
    - intros (_ & p & Hp & Hw)%Hmem. apply (Hroot p); [by destruct p|done].
    - intros Hcase k Hk (Hlt & p & Hp & Hw)%Hmem.
      destruct (Hkid k Hk) as [s Hs].
      pose proof (walk_inj (heap w) r p [s] k Hok Hw Hs) as ->. simpl in Hp. lia. }
  split.
  - intros j l Hj Hl. destruct (Hshape j l Hj Hl) as (l0 & -> & Hr0 & Hk0).
    apply down_range_elem in Hj as Hj'.
    destruct (decide (Z.to_nat j = 0%nat ∧ 1 < D)) as [[Hj0 HD1]|Hcase].
    + right. exists l0. split_and!; [done..|].
      intros j1 l1 Hj1 Hne Hl1. destruct (Hshape j1 l1 Hj1 Hl1) as (l2 & -> & Hr2 & _).
      apply down_range_elem in Hj1. rewrite decide_False by lia. done.
    + left. split; [done|]. apply Hk0. lia.
  - destruct (decide (1 < D)) as [HD1|HD1].
    + left. apply total_zero. intros k node Hk Hnode.
      destruct (Hkid k Hk) as [s Hs].
      destruct (Hdepth [s] k node Hs Hnode) as [_ Hz]. apply Hz. simpl. lia.
    + right. intros j l Hj Hl. destruct (Hshape j l Hj Hl) as (l0 & -> & Hr0 & _).
      by rewrite decide_False by lia.
Qed.

(** ** What [make_palette] does to a built quantizer *)

Lemma indexed_same_tree h h' : Forall2 indexed h h' → Forall2 same_tree h h'.
Proof.
  intros H. eapply Forall2_impl; [exact H|]. intros n n' (Hc & Hp & _).
  split; [done|]. unfold is_leaf. by rewrite Hp.
Qed.

Lemma inv_registry_in_heap D r lv w j l a :
  inv D r lv w r → j ∈ down_range D → lv !! j = Some l → a ∈ l → (a < length (heap w))%nat.
Proof.
  intros [[Hd Hok Hr Hpal Hcnt] Hdepth Hreg Hfull] Hj%down_range_elem Hl Ha.
  destruct (Hreg (Z.to_nat j)) as (l0 & Hl0 & _ & Hmem); [lia|].
  rewrite Z2Nat.id in Hl0 by lia. rewrite Hl in Hl0. simplify_eq.
  apply elem_of_app in Ha as [Ha|Ha].
  - destruct (decide _); [|by apply elem_of_nil in Ha].
    by apply list_elem_of_singleton in Ha as ->.
  - apply Hmem in Ha as (_ & p & _ & Hw). by eapply walk_in_heap.
Qed.

Lemma make_palette_spec D q w color_count :
  1 ≤ D → inv D (root q) (levels q) w (root q) →
  ∃ palette q' w' L,
    make_palette q color_count w = Ret (palette, q', w')
    ∧ root q' = root q
    ∧ get_leaves q' w' = Ret L ∧ NoDup L
    ∧ heap_ok (heap w')
    ∧ Forall2 (fun n n' => children n' = children n ∧ pixel_count n ≤ pixel_count n')
              (heap w) (heap w')
    ∧ (∃ nr, heap w' !! root q = Some nr ∧ is_leaf nr = false)
    ∧ (∀ a, a ∈ L ↔ reaches_leaf (heap w') (root q) a)
    ∧ length palette = Nat.min (length L) (Z.to_nat color_count)
    ∧ ∀ i a, L !! i = Some a →
        ∃ n, heap w' !! a = Some n ∧ is_leaf n = true
             ∧ if decide (Z.of_nat i < color_count)
               then palette_index n = Z.of_nat i
                    ∧ ∃ c, get_color n = Ret c ∧ palette !! i = Some c
               else palette_index n = 0.
Proof.
  intros HD Hinv. pose proof Hinv as [[Hd Hok Hr Hpal Hcnt] Hdepth Hreg Hfull].
  unfold make_palette, get_leaves.
  destruct (get_leaf_nodes_total (S (length (heap w))) (heap w) (root q) Hok Hr)
    as [L0 HL0]; [lia|].
  rewrite HL0. cbn [lift bind]. rewrite Hd.
  destruct (reduce_levels_spec (down_range D) (Z.of_nat (length L0)) color_count
              (levels q) (heap w) Hok Hcnt) as (lc & lv & h1 & Hred & Hgrow).
  { intros j l a. by apply (inv_registry_in_heap D (root q) (levels q) w). }
  { intros j Hj%down_range_elem. destruct (Hreg (Z.to_nat j)) as (l0 & Hl0 & _); [lia|].
    rewrite Z2Nat.id in Hl0 by lia. by eexists. }
  rewrite Hred. cbn [bind heap MAX_DEPTH root].
  destruct (lookup_lt_is_Some_2 _ _ Hr) as [nr Hnr].
  destruct (inv_root_guard D (root q) (levels q) w nr HD Hinv Hnr) as [Hguard Hstate].
  destruct (reduce_levels_root (root q) (down_range D) (Z.of_nat (length L0)) color_count
              (levels q) (heap w) nr lc lv h1 Hok Hcnt)
    as (nr1 & Hnr1 & Hpc1); [|done|done| |done|done|].
  { intros j l a. by apply (inv_registry_in_heap D (root q) (levels q) w). }
  { destruct (Hdepth [] (root q) nr eq_refl Hnr) as [_ Hz]. apply Hz. simpl. lia. }
  assert (heap_ok h1) as Hok1.
  { eapply heap_ok_ext; [|done]. by apply grows_same_children. }
  assert (length h1 = length (heap w)) as Hlen1.
  { symmetry. by eapply Forall2_length. }
  destruct (get_leaf_nodes_total (S (length h1)) h1 (root q) Hok1) as [L HL]; [lia..|].
  rewrite HL. cbn [lift bind].
  pose proof (get_leaf_nodes_NoDup _ _ _ _ Hok1 HL) as Hnd.
  destruct (build_palette_spec L [] 0 color_count h1 Hnd)
    as (added & h2 & Hbuild & Hlen & Hidx & Hkeep & Hset).
  { intros a Ha. apply (get_leaf_nodes_reaches _ _ _ _ a Hok1 HL) in Ha.
    by eapply reaches_leaf_is_leaf. }
  rewrite Hbuild. cbn [bind app].
  assert (length h2 = length h1) as Hlen2.
  { symmetry. by eapply Forall2_length. }
  assert (heap_ok h2) as Hok2.
  { eapply heap_ok_ext; [|done]. by apply same_tree_children, indexed_same_tree. }
  assert (get_leaf_nodes (S (length h2)) h2 (root q) = Some L) as HL2.
  { rewrite Hlen2. rewrite (get_leaf_nodes_ext (S (length h1)) h1 h2 (root q)); [exact HL|].
    by apply indexed_same_tree. }
  exists added, (mkQuantizer lv (root q)), (mkWorld D h2), L.
  cbn [heap root]. rewrite HL2. cbn [lift].
  split_and!; [done..| | | | |].
  - eapply (Forall2_trans_rel _ _ h1).
    + intros x y z (? & ?) (? & ?). split; [congruence|lia].
    + eapply Forall2_impl; [exact Hgrow|]. by intros n n' (? & _ & ?).
    + eapply Forall2_impl; [exact Hidx|]. intros n n' (? & ? & _). split; [done|lia].
  - destruct (Forall2_lookup_l _ _ _ _ _ Hidx Hnr1) as (nr2 & Hnr2 & _ & Hp & _).
    exists nr2. split; [done|]. unfold is_leaf. rewrite Hp, Hpc1. done.
  - intros a. by apply get_leaf_nodes_reaches with (fuel := S (length h2)) (L := L).
  - rewrite Hlen. by rewrite Z.sub_0_r.
  - intros i a Hi. destruct (Hset i a Hi) as (n & Hn & Hres).
    assert (is_leaf n = true ∧ palette_index n = 0) as [Hleaf Hpi].
    { split.
      - assert (a ∈ L) as Ha by (by eapply list_elem_of_lookup_2).
        apply (get_leaf_nodes_reaches _ _ _ _ a Hok1 HL) in Ha.
        apply reaches_leaf_is_leaf in Ha as (n' & Hn' & ?). by simplify_eq.
      - destruct (Forall2_lookup_r _ _ _ _ _ Hgrow Hn) as (n0 & Hn0 & _ & -> & _).
        by apply (Forall_lookup_1 _ _ _ _ Hpal Hn0). }
    rewrite Z.add_0_l in Hres. destruct (decide (Z.of_nat i < color_count)).
    + destruct Hres as [Hn2 (c & Hc & Hadd)].
      exists (set_palette_index n (Z.of_nat i)). split_and!; [done..|].
      by exists c.
    + by exists n.
Qed.

(** ** Lookups after the palette is made *)

Lemma get_palette_index_descent q c w :
  get_palette_index q c w =
  match descent_end q c w with
  | None => Stuck
  | Some None => Ret PyNone
  | Some (Some a) => lift (n ← heap w !! a; Some (PyInt (palette_index n)))
  end.
Proof.
  unfold get_palette_index, descent_end. rewrite Node_get_palette_index_descend.
  by destruct (Node_descend _ _ _ _ _) as [[a|]|].
Qed.

Lemma color_path_length c level len : length (color_path c level len) = len.
Proof. unfold color_path. by rewrite length_map, length_seq. Qed.

(** A colour that was added keeps its path through reduction, and the
    node at its end keeps counting pixels. *)
Lemma added_color_leaf D r lv w h' c :
  1 ≤ D → inv D r lv w r →
  Forall2 (fun n n' => children n' = children n ∧ pixel_count n ≤ pixel_count n') (heap w) h' →
  is_Some (walk (heap w) r (color_path c 0 (Z.to_nat D))) →
  ∃ z nz, walk h' r (color_path c 0 (Z.to_nat D)) = Some z
          ∧ h' !! z = Some nz ∧ is_leaf nz = true.
Proof.
  intros HD [[Hd Hok Hr Hpal Hcnt] Hdepth Hreg Hfull] Hrel [z Hz].
  assert (Forall2 same_children (heap w) h') as Hsc.
  { eapply Forall2_impl; [exact Hrel|]. by intros n n' [? _]. }
  pose proof (walk_in_heap _ r _ z Hok Hr Hz) as Hlt.
  destruct (lookup_lt_is_Some_2 _ _ Hlt) as [n Hn].
  destruct (Forall2_lookup_l _ _ _ _ _ Hrel Hn) as (nz & Hnz & _ & Hle).
  exists z, nz. rewrite (walk_ext (heap w) h') by done. split_and!; [done..|].
  assert (z ≠ r) as Hne.
  { intros ->. pose proof (walk_inj (heap w) r _ [] r Hok Hz eq_refl) as E.
    apply (f_equal length) in E. rewrite color_path_length in E. simpl in E. lia. }
  destruct (Hfull _ z n Hz Hn Hne) as [_ Hpos].
  rewrite color_path_length in Hpos. unfold is_leaf. apply Z.ltb_lt.
  specialize (Hpos ltac:(lia)). lia.
Qed.

Lemma build_heap_ok D cs q w :
  0 ≤ D → build D cs = Ret (q, w) → heap_ok (heap w).
Proof.
  intros HD Hb. destruct (build_inv D cs HD) as (q' & w' & Hb' & Hinv & _).
  rewrite Hb in Hb'. simplify_eq. apply (st_ok _ _ _ (inv_static _ _ _ _ _ Hinv)).
Qed.

(** ** A store that only grows at its end *)

Lemma Node_descend_app fuel h ext : ∀ x c level,
  heap_ok h → (x < length h)%nat →
  Node_descend fuel (h ++ ext) x c level = Node_descend fuel h x c level.
Proof.
  induction fuel as [|fuel IH]; intros x c level Hok Hx; [done|].
  rewrite !Node_descend_S, lookup_app_l by done.
  destruct (h !! x) as [n|] eqn:Hn; [|done]. cbn.
  destruct (is_leaf n); [done|].
  destruct (child n _) as [k|] eqn:Hk.
  - apply IH; [done|]. by destruct (ok_order h Hok x n _ k Hn Hk).
  - destruct (first_child n _) as [k|] eqn:Hf; [|done].
    apply first_child_child in Hf as [i Hi].
    apply IH; [done|]. by destruct (ok_order h Hok x n _ k Hn Hi).
Qed.

Lemma Node_descend_in_heap fuel h : ∀ x c level a,
  heap_ok h → (x < length h)%nat →
  Node_descend fuel h x c level = Some (Some a) → (a < length h)%nat.
Proof.
  induction fuel as [|fuel IH]; intros x c level a Hok Hx; [done|].
  rewrite Node_descend_S. destruct (h !! x) as [n|] eqn:Hn; [|done]. cbn.
  destruct (is_leaf n); [by intros [= <-]|].
  destruct (child n _) as [k|] eqn:Hk.
  - apply IH; [done|]. by destruct (ok_order h Hok x n _ k Hn Hk).
  - destruct (first_child n _) as [k|] eqn:Hf; [|done].
    apply first_child_child in Hf as [i Hi].
    apply IH; [done|]. by destruct (ok_order h Hok x n _ k Hn Hi).
Qed.

Lemma get_palette_index_alloc q c w ext :
  heap_ok (heap w) → (root q < length (heap w))%nat →
  get_palette_index q c (mkWorld (MAX_DEPTH w) (heap w ++ ext))
  = get_palette_index q c w.
Proof.
  intros Hok Hr. rewrite !get_palette_index_descent. unfold descent_end. cbn [heap].
  rewrite Node_descend_app by done.
  destruct (Node_descend_total (S (length (heap w))) (heap w) (root q) c 0 Hok Hr)
    as [res Hres]; [lia|].
  rewrite Hres.
  rewrite (Node_descend_mono _ (S (length (heap w ++ ext))) _ _ _ _ _ Hres)
    by (rewrite length_app; lia).
  destruct res as [a|]; [|done].
  rewrite lookup_app_l; [done|]. by eapply Node_descend_in_heap.
Qed.

(** ** Counting the leaves around a reduced node *)

Lemma leaf_contrib_total h n i fuel :
  heap_ok h → ∀ x, h !! x = Some n → (length h - x ≤ S fuel)%nat →
  is_Some (leaf_contrib (get_leaf_nodes fuel h) h n i).
Proof.
  intros Hok x Hx Hf. unfold leaf_contrib. destruct (child n i) as [k|] eqn:Hk; [|done].
  destruct (ok_order h Hok x n i k Hx Hk) as [? ?].
  destruct (lookup_lt_is_Some_2 h k) as [node ->]; [done|]. cbn.
  destruct (is_leaf node); [done|]. apply get_leaf_nodes_total; [done..|lia].
Qed.

Lemma get_leaf_nodes_patched_away fuel h h' self :
  patched h h' self → ∀ x,
  (∀ q, walk h x q ≠ Some self) →
  get_leaf_nodes fuel h' x = get_leaf_nodes fuel h x.
Proof.
  intros (Hlen & Hsame & Hch). induction fuel as [|fuel IH]; intros x Hx; [done|].
  rewrite !get_leaf_nodes_S.
  assert (x ≠ self) as Hne by (intros ->; by apply (Hx [])).
  rewrite Hsame by done. destruct (h !! x) as [n|] eqn:Hn; [|done]. cbn.
  f_equal. apply mapM_ext. intros i. unfold leaf_contrib.
  destruct (child n i) as [k|] eqn:Hk; [|done].
  assert (∀ q, walk h k q ≠ Some self) as Hk'.
  { intros q Hq. apply (Hx (i :: q)). rewrite walk_cons, Hn. cbn. by rewrite Hk. }
  assert (k ≠ self) as Hnk by (intros ->; by apply (Hk' [])).
  rewrite Hsame by done. destruct (h !! k) as [node|]; [|done]. cbn.
  destruct (is_leaf node); [done|]. by apply IH.
Qed.

Lemma slots_rebuild (f g : nat → option (list nat)) (i0 d d' : nat)
    (idx : list nat) (ms : list (list nat)) :
  NoDup idx →
  Forall2 (fun i m => f i = Some m) idx ms →
  (∀ i m, i ∈ idx → f i = Some m →
     ∃ m', g i = Some m'
           ∧ if decide (i = i0) then (length m + d = length m' + d')%nat
             else length m = length m') →
  ∃ ms', Forall2 (fun i m' => g i = Some m') idx ms'
         ∧ (length (concat ms) + (if decide (i0 ∈ idx) then d else 0)
            = length (concat ms') + (if decide (i0 ∈ idx) then d' else 0))%nat.
Proof.
  intros Hnd HF. induction HF as [|i m idx ms Hm HF IH]; intros Hstep.
  - exists []. split; [constructor|].
    cbn [concat]. rewrite !decide_False by (by intros ?%elem_of_nil). done.
  - apply NoDup_cons in Hnd as [Hi Hnd].
    destruct (IH Hnd) as (ms' & HF' & Hlen).
    { intros j mj Hj. apply Hstep. by right. }
    destruct (Hstep i m) as (m' & Hm' & Hrel); [by left|done|].
    exists (m' :: ms'). split; [by constructor|].
    cbn [concat]. rewrite !length_app.
    destruct (decide (i = i0)) as [->|Hne].
    + rewrite !(decide_True (P := i0 ∈ i0 :: idx)) by (by left).
      rewrite !decide_False in Hlen by done. lia.
    + destruct (decide (i0 ∈ idx)) as [Hin|Hin].
      * rewrite !(decide_True (P := i0 ∈ i :: idx)) by (by right). lia.
      * rewrite !(decide_False (P := i0 ∈ i :: idx)); [lia|..];
          by intros [?|?]%elem_of_cons.
Qed.

Lemma get_leaf_nodes_kids fuel h self n :
  heap_ok h → h !! self = Some n →
  (∀ k, k ∈ existing_children n → ∃ node, h !! k = Some node ∧ is_leaf node = true) →
  get_leaf_nodes (S fuel) h self = Some (existing_children n).
Proof.
  intros Hok Hn Hkids. rewrite get_leaf_nodes_S, Hn. cbn [mbind option_bind].
  unfold existing_children in *.
  assert (∀ idx, (∀ i, i ∈ idx → (i < 8)%nat) →
            mapM (leaf_contrib (get_leaf_nodes fuel h) h n) idx
            = Some (map (fun i => match child n i with Some k => [k] | None => [] end) idx))
    as Hmap.
  { induction idx as [|i idx IH]; intros Hidx; [done|].
    rewrite mapM_cons_ext || cbn [mapM].
    assert (leaf_contrib (get_leaf_nodes fuel h) h n i
            = Some (match child n i with Some k => [k] | None => [] end)) as ->.
    { unfold leaf_contrib. destruct (child n i) as [k|] eqn:Hk; [|done].
      destruct (Hkids k) as (node & -> & Hl).
      - apply list_elem_of_omap. exists i. split; [|done].
        unfold range. apply elem_of_seq. specialize (Hidx i ltac:(by left)). lia.
      - cbn. by rewrite Hl. }
    cbn. rewrite IH; [done|]. intros j Hj. apply Hidx. by right. }
  rewrite Hmap.
  - cbn. f_equal. generalize (range 8). intros idx.
    induction idx as [|i idx IH]; [done|].
    cbn [map concat]. rewrite IH.
    change (omap (child n) (i :: idx)) with
      (match child n i with Some y => y :: omap (child n) idx | None => omap (child n) idx end).
    by destruct (child n i).
  - intros i Hi. unfold range in Hi. apply elem_of_seq in Hi. lia.
Qed.

Lemma passes_walk h x y : passes h x y → ∃ i p, walk h x (i :: p) = Some y.
Proof.
  induction 1 as [x n i k node Hx Hk _ _|x n i k node y Hx Hk _ _ _ (j & p & IH)].
  - exists i, []. rewrite walk_cons, Hx. cbn. by rewrite Hk.
  - exists i, (j :: p). rewrite walk_cons, Hx. cbn. by rewrite Hk.
Qed.

(** The enumeration arrives at a leaf through its parent. *)
Lemma reaches_leaf_parent h r k self n i :
  heap_ok h → reaches_leaf h r k → h !! self = Some n → child n i = Some k →
  self ≠ r → passes h r self.
Proof.
  intros Hok Hr Hn Hk. induction Hr as [x m j k node Hx Hj Hnode Hl
                                        |x m j k1 node k Hx Hj Hnode Hl Hr IH]; intros Hne.
  - by destruct (ok_parent h Hok self x n m i j k Hn Hx Hk Hj) as [-> _].
  - destruct (decide (self = k1)) as [E|Hne1].
    + rewrite E. exact (passes_child h x m j k1 node Hx Hj Hnode Hl).
    + exact (passes_below h x m j k1 node self Hx Hj Hnode Hl (IH Hk Hne1)).
Qed.

(** Reducing a node the enumeration passes, all of whose children are
    leaves: the children leave the enumeration, the node enters it. *)
Lemma get_leaf_nodes_reduced h h' self n n' :
  heap_ok h → patched h h' self →
  h !! self = Some n → h' !! self = Some n' → is_leaf n' = true →
  (∀ k, k ∈ existing_children n → ∃ node, h !! k = Some node ∧ is_leaf node = true) →
  ∀ r, passes h r self → ∀ fuel L,
    get_leaf_nodes fuel h r = Some L →
    ∃ L', get_leaf_nodes fuel h' r = Some L'
          ∧ (length L + 1 = length L' + length (existing_children n))%nat.
Proof.
  intros Hok Hpatch Hn Hn' Hleaf' Hkids.
  pose proof Hpatch as (Hlen & Hsame & Hch).
  assert (∀ r nr i0 k0 p0 fuel L,
    h !! r = Some nr → child nr i0 = Some k0 → walk h k0 p0 = Some self →
    (∀ m0, leaf_contrib (get_leaf_nodes fuel h) h nr i0 = Some m0 →
       ∃ m0', leaf_contrib (get_leaf_nodes fuel h') h' nr i0 = Some m0'
              ∧ (length m0 + 1 = length m0' + length (existing_children n))%nat) →
    get_leaf_nodes (S fuel) h r = Some L →
    ∃ L', get_leaf_nodes (S fuel) h' r = Some L'
          ∧ (length L + 1 = length L' + length (existing_children n))%nat) as Hslot.
  { intros r nr i0 k0 p0 fuel L Hr Hk0 Hp0 Hm0 HL.
    apply get_leaf_nodes_inv in HL as (nr0 & ms & Hr0 & -> & HF).
    assert (nr = nr0) as -> by congruence. clear Hr0.
    assert (r ≠ self) as Hne.
    { intros ->. destruct (ok_order h Hok self nr0 i0 k0 Hr Hk0).
      destruct (walk_order h k0 p0 self Hok Hp0). lia. }
    assert (i0 < 8)%nat as Hi0.
    { rewrite <- (ok_slots h Hok r nr0 Hr). by eapply child_lt. }
    destruct (slots_rebuild (leaf_contrib (get_leaf_nodes fuel h) h nr0)
                (leaf_contrib (get_leaf_nodes fuel h') h' nr0)
                i0 1 (length (existing_children n)) (range 8) ms) as (ms' & HF' & Hlen').
    - unfold range. apply NoDup_seq.
    - done.
    - intros i m Hi Hm. destruct (decide (i = i0)) as [->|Hni]; [by apply Hm0|].
      exists m. split; [|done]. unfold leaf_contrib in *.
      destruct (child nr0 i) as [k|] eqn:Hk; [|done].
      assert (∀ q, walk h k q ≠ Some self) as Haway.
      { intros q Hq. apply Hni.
        assert (walk h r (i :: q) = Some self) as H1.
        { rewrite walk_cons, Hr. cbn. by rewrite Hk. }
        assert (walk h r (i0 :: p0) = Some self) as H2.
        { rewrite walk_cons, Hr. cbn. by rewrite Hk0. }
        by injection (walk_inj h r _ _ self Hok H1 H2). }
      assert (k ≠ self) as Hnk by (intros ->; by apply (Haway [])).
      rewrite Hsame by done. destruct (h !! k) as [node|]; [|done]. cbn in *.
      destruct (is_leaf node); [done|].
      by rewrite (get_leaf_nodes_patched_away fuel h h' self Hpatch k Haway).
    - exists (concat ms'). split.
      + apply (get_leaf_nodes_intro _ _ _ nr0); [by rewrite Hsame|done].
      + rewrite !decide_True in Hlen'; [done|..]; unfold range; apply elem_of_seq; lia. }
  intros r Hpass. induction Hpass as [x nx i k node Hx Hk Hnode Hl
                                     |x nx i k node y Hx Hk Hnode Hl Hpass IH];
    intros fuel L HL; (destruct fuel as [|fuel]; [done|]).
  - apply (Hslot x nx i k [] fuel L Hx Hk eq_refl); [|done].
    simplify_eq. unfold leaf_contrib. rewrite Hk, Hn, Hn'. cbn. rewrite Hl, Hleaf'.
    intros m0 Hm0. exists [k]. split; [done|].
    destruct fuel as [|fuel]; [done|].
    rewrite (get_leaf_nodes_kids fuel h k n Hok Hn Hkids) in Hm0. simplify_eq.
    simpl. lia.
  - destruct (passes_walk h k y Hpass) as (j & p & Hp).
    apply (Hslot x nx i k (j :: p) fuel L Hx Hk Hp); [|done].
    assert (k ≠ y) as Hne.
    { intros ->. destruct (walk_order h y (j :: p) y Hok Hp) as [_ Hlt].
      destruct Hlt; [done|lia]. }
    unfold leaf_contrib. rewrite Hk, Hsame, Hnode by done. cbn. rewrite Hl.
    intros m0 Hm0. by apply IH.
Qed.

(** * Main results *)

Lemma OctreeQuantizer_init_returns D w :
  ∃ lv, OctreeQuantizer_init D w
        = Ret (mkQuantizer lv (length (heap w)), mkWorld D (heap w ++ [fresh_node])).
Proof.
  unfold OctreeQuantizer_init, OctreeNode_init. cbn [MAX_DEPTH heap].
  destruct (Z.ltb_spec (Z.of_nat 0) (D - 1)) as [Hlt|Hge]; [|by eexists].
  unfold add_level_node. rewrite empty_levels_lookup, decide_True by lia.
  by eexists.
Qed.

Lemma fresh_lookup_None lv D h c :
  get_palette_index (mkQuantizer lv (length h)) c (mkWorld D (h ++ [fresh_node]))
  = Ret PyNone.
Proof.
  unfold get_palette_index. cbn [heap root].
  rewrite Node_get_palette_index_S, lookup_app_r by lia.
  rewrite Nat.sub_diag. cbn. rewrite child_fresh_node.
  assert (first_child fresh_node (range 8) = None) as ->; [|done].
  apply first_child_none, Forall_forall. intros j _. apply child_fresh_node.
Qed.

(** C1. With the default depth 8, adding (0,0,0), (1,1,1), (255,255,255)
    and (254,254,254) and asking for a palette of 2 gives exactly the
    two entries (0,0,0) and (254,254,254); the two near-black colours
    look up one index, the two near-white colours another. *)
Theorem C1_four_colors_two_entries :
  ∃ i j : Z,
    scenario_four_colors
    = Ret ([Color_init 0 0 0; Color_init 254 254 254],
           [PyInt i; PyInt i; PyInt j; PyInt j])
    ∧ i ≠ j.
Proof. exists 0, 1. split; [vm_compute; reflexivity|lia]. Qed.

(** C2. For a quantizer of depth at least 1, a non-empty sequence of
    added colours and a positive target, [make_palette] returns a
    palette with at least one and at most [color_count] entries. *)
Theorem C2_palette_length (max_depth : Z) (cs : list Color) (color_count : Z) :
  1 ≤ max_depth → cs ≠ [] → 0 < color_count →
  ∃ q w palette q' w',
    build max_depth cs = Ret (q, w)
    ∧ make_palette q color_count w = Ret (palette, q', w')
    ∧ 0 < Z.of_nat (length palette) ≤ color_count.
Proof.
  intros HD Hcs Hk.
  destruct (build_inv max_depth cs) as (q & w & Hb & Hinv & Hpaths); [lia|].
  destruct (make_palette_spec max_depth q w color_count HD Hinv)
    as (palette & q' & w' & L & Hmp & _ & _ & _ & Hok' & Hrel & _ & HL & Hlen & _).
  exists q, w, palette, q', w'. split_and!; [done..| |lia].
  destruct cs as [|c cs]; [done|].
  destruct (added_color_leaf max_depth (root q) (levels q) w (heap w') c HD Hinv Hrel)
    as (z & nz & Hz & Hnz & Hlz); [apply Hpaths; by left|].
  destruct (walk_first_leaf (heap w') (color_path c 0 (Z.to_nat max_depth)) (root q) z nz)
    as [a Ha]; [|done..|].
  { intros E%(f_equal length). rewrite color_path_length in E. simpl in E. lia. }
  apply HL in Ha. destruct L as [|x L]; [by apply elem_of_nil in Ha|].
  rewrite Hlen. cbn [length]. lia.
Qed.

Lemma C2_witness :
  ∃ q w palette q' w',
    build 8 [black] = Ret (q, w)
    ∧ make_palette q 1 w = Ret (palette, q', w')
    ∧ 0 < Z.of_nat (length palette) ≤ 1.
Proof. apply (C2_palette_length 8 [black] 1); [lia|done|lia]. Defined.

(** C3 (counterexample). [make_palette(0)] and [make_palette(-1)] return
    an empty palette, and constructing with depth 0 returns a
    quantizer: none of the calls raises. *)
Lemma C3_counterexample :
  ∃ q w,
    build 8 [black] = Ret (q, w)
    ∧ (∃ q' w', make_palette q 0 w = Ret ([], q', w'))
    ∧ (∃ q' w', make_palette q (-1) w = Ret ([], q', w'))
    ∧ ∃ q0 w0, OctreeQuantizer_init 0 world0 = Ret (q0, w0).
Proof.
  eexists _, _. split; [vm_compute; reflexivity|]. split_and!.
  - eexists _, _. vm_compute. reflexivity.
  - eexists _, _. vm_compute. reflexivity.
  - eexists _, _. vm_compute. reflexivity.
Qed.

(** C3 (amended). Nothing checks the configuration: on a quantizer of
    depth at least 1, [make_palette] with a target of 0 or less returns
    the empty palette, and constructing with a depth below 1 returns a
    quantizer with an empty registry whose root is registered nowhere. *)
Theorem C3_no_configuration_check (max_depth : Z) (cs : list Color)
    (color_count bad_depth : Z) (w0 : World) :
  1 ≤ max_depth → color_count ≤ 0 → bad_depth < 1 →
  (∃ q w q' w',
     build max_depth cs = Ret (q, w)
     ∧ make_palette q color_count w = Ret ([], q', w'))
  ∧ OctreeQuantizer_init bad_depth w0
    = Ret (mkQuantizer ∅ (length (heap w0)),
           mkWorld bad_depth (heap w0 ++ [fresh_node])).
Proof.
  intros HD Hk Hbad. split.
  - destruct (build_inv max_depth cs) as (q & w & Hb & Hinv & _); [lia|].
    destruct (make_palette_spec max_depth q w color_count HD Hinv)
      as (palette & q' & w' & L & Hmp & _ & _ & _ & _ & _ & _ & _ & Hlen & _).
    exists q, w, q', w'. split; [done|].
    rewrite Z2Nat.nonpos, Nat.min_0_r in Hlen by lia.
    by apply nil_length_inv in Hlen as ->.
  - unfold OctreeQuantizer_init, OctreeNode_init. cbn [MAX_DEPTH heap].
    destruct (Z.ltb_spec (Z.of_nat 0) (bad_depth - 1)) as [Hlt|Hge]; [lia|].
    cbn [bind]. unfold empty_levels. by rewrite Z2Nat.nonpos by lia.
Qed.

Lemma C3_witness :
  (∃ q w q' w',
     build 8 [black] = Ret (q, w) ∧ make_palette q 0 w = Ret ([], q', w'))
  ∧ OctreeQuantizer_init 0 world0
    = Ret (mkQuantizer ∅ (length (heap world0)),
           mkWorld 0 (heap world0 ++ [fresh_node])).
Proof. apply (C3_no_configuration_check 8 [black] 0 0 world0); lia. Defined.

(** C4 (counterexample). On a freshly constructed quantizer of depth 8
    the lookup of a colour returns [None]; it does not raise. *)
Lemma C4_counterexample :
  ∃ q w,
    OctreeQuantizer_init 8 world0 = Ret (q, w)
    ∧ get_palette_index q black w = Ret PyNone.
Proof. eexists _, _. split; vm_compute; reflexivity. Qed.

(** C4 (amended). Whatever the depth and the colour, the lookup on a
    quantizer that was just constructed returns [None] without raising. *)
Theorem C4_empty_lookup_returns_None (max_depth : Z) (w : World) (c : Color) :
  ∃ q w',
    OctreeQuantizer_init max_depth w = Ret (q, w')
    ∧ get_palette_index q c w' = Ret PyNone.
Proof.
  destruct (OctreeQuantizer_init_returns max_depth w) as [lv Hinit].
  eexists _, _. split; [exact Hinit|]. apply fresh_lookup_None.
Qed.

(** C5 (counterexample). Depth 2, colours black and white: the first
    node [make_palette] reduces is the root.  The call returns 1, the
    root counts no pixel afterwards (it is no leaf), and the leaves
    enumerated from the root are the same two before and after. *)
Lemma C5_counterexample :
  ∃ q w h' n,
    build 2 [black; white] = Ret (q, w)
    ∧ levels q !! 0 = Some [root q; 1%nat; 3%nat]
    ∧ remove_leaves (heap w) (root q) = Some (1, h')
    ∧ h' !! root q = Some n ∧ is_leaf n = false
    ∧ get_leaves q w = Ret [2%nat; 4%nat]
    ∧ get_leaves q (mkWorld 2 h') = Ret [2%nat; 4%nat].
Proof.
  eexists _, _, _, _. split; [vm_compute; reflexivity|].
  split_and!; vm_compute; reflexivity.
Qed.

(** C5 (amended). [remove_leaves] folds the colour sums and the pixel
    count of every existing child into the node and returns the number
    of existing children minus 1.  When the node is not the root and its
    existing children (at least one) are all among the leaves enumerated
    from the root, the node is a leaf afterwards and the returned value
    is the decrease of the number of enumerated leaves. *)
Theorem C5_remove_leaves (h : list OctreeNode) (self : addr) (n : OctreeNode) :
  heap_ok h → Forall counted h → h !! self = Some n →
  ∃ h' n',
    remove_leaves h self = Some (Z.of_nat (length (existing_children n)) - 1, h')
    ∧ h' !! self = Some n'
    ∧ (∀ a, a ≠ self → h' !! a = h !! a)
    ∧ pixel_count n' = pixel_count n + total pixel_count h (existing_children n)
    ∧ red (color n') = red (color n) + total (fun m => red (color m)) h (existing_children n)
    ∧ green (color n')
      = green (color n) + total (fun m => green (color m)) h (existing_children n)
    ∧ blue (color n') = blue (color n) + total (fun m => blue (color m)) h (existing_children n)
    ∧ ∀ r fuel L,
        get_leaf_nodes fuel h r = Some L → self ≠ r →
        existing_children n ≠ [] → existing_children n ⊆ L →
        is_leaf n' = true
        ∧ ∃ L', get_leaf_nodes fuel h' r = Some L'
                ∧ Z.of_nat (length L) - Z.of_nat (length L')
                  = Z.of_nat (length (existing_children n)) - 1.
Proof.
  intros Hok Hcnt Hn.
  exists (<[self := absorbed h n (existing_children n)]> h),
         (absorbed h n (existing_children n)).
  pose proof (lookup_lt_Some _ _ _ Hn) as Hlt.
  split_and!.
  - by apply remove_leaves_spec.
  - by apply list_lookup_insert_eq.
  - intros a Ha. by apply list_lookup_insert_ne.
  - apply absorbed_pixel_count.
  - apply absorbed_red.
  - apply absorbed_green.
  - apply absorbed_blue.
  - intros r fuel L HL Hne Hkids Hsub.
    assert (∀ k, k ∈ existing_children n → ∃ node, h !! k = Some node ∧ is_leaf node = true)
      as Hleaves.
    { intros k Hk. apply Hsub in Hk.
      apply (get_leaf_nodes_reaches fuel h r L k Hok HL) in Hk.
      by eapply reaches_leaf_is_leaf. }
    destruct (existing_children n) as [|k0 kids] eqn:Ekids; [done|].
    assert (k0 ∈ existing_children n) as Hk0 by (rewrite Ekids; by left).
    destruct (Hleaves k0) as (node0 & Hnode0 & Hl0); [by left|].
    assert (is_leaf (absorbed h n (k0 :: kids)) = true) as Hleaf'.
    { unfold is_leaf. apply Z.ltb_lt. rewrite absorbed_pixel_count.
      pose proof (Forall_lookup_1 _ _ _ _ Hcnt Hn) as Hpc. unfold counted in Hpc.
      assert (0 < total pixel_count h (k0 :: kids)); [|lia].
      apply (total_pos h _ k0 node0); [done|by left|done|].
      unfold is_leaf in Hl0. by apply Z.ltb_lt in Hl0. }
    split; [done|].
    apply existing_children_spec in Hk0 as (i0 & _ & Hi0).
    assert (passes h r self) as Hpass.
    { apply (reaches_leaf_parent h r k0 self n i0); [done| |done..].
      apply (get_leaf_nodes_reaches fuel h r L k0 Hok HL). apply Hsub. by left. }
    destruct (get_leaf_nodes_reduced h (<[self := absorbed h n (k0 :: kids)]> h) self n
                (absorbed h n (k0 :: kids)) Hok) with (r := r) (fuel := fuel) (L := L)
      as (L' & HL' & Hlen); [|done|by apply list_lookup_insert_eq|done| |done|done|].
    + split_and!.
      * by rewrite length_insert.
      * intros a Ha. by apply list_lookup_insert_ne.
      * intros m m' Hm Hm'. rewrite list_lookup_insert_eq in Hm' by done.
        simplify_eq. apply absorbed_children.
    + by rewrite Ekids.
    + exists L'. split; [done|]. rewrite Ekids in Hlen. lia.
Qed.

Lemma small_heap_built :
  ∃ q, build 2 [black; Color_init 64 64 64] = Ret (q, mkWorld 2 small_heap).
Proof. eexists. vm_compute. reflexivity. Qed.

Lemma small_heap_ok : heap_ok small_heap.
Proof.
  destruct small_heap_built as [q Hq].
  apply (build_heap_ok 2 [black; Color_init 64 64 64] q (mkWorld 2 small_heap)); [lia|done].
Qed.

Lemma small_heap_counted : Forall counted small_heap.
Proof. repeat constructor; unfold counted; simpl; lia. Qed.

Lemma C5_witness :
  ∃ h' n' L',
    remove_leaves small_heap 1 = Some (1, h')
    ∧ h' !! 1%nat = Some n' ∧ is_leaf n' = true
    ∧ get_leaf_nodes 3 h' 0 = Some L'
    ∧ Z.of_nat (length [2%nat; 3%nat]) - Z.of_nat (length L') = 1.
Proof.
  destruct (C5_remove_leaves small_heap 1 _ small_heap_ok small_heap_counted eq_refl)
    as (h' & n' & Hrun & Hn' & _ & _ & _ & _ & _ & Hleaves).
  destruct (Hleaves 0%nat 3%nat [2%nat; 3%nat]) as (Hleaf & L' & HL' & Hlen);
    [reflexivity|lia|discriminate|apply list_subseteq_refl || reflexivity|].
  exists h', n', L'. split_and!; [exact Hrun|exact Hn'|exact Hleaf|exact HL'|exact Hlen].
Defined.

(** C6 (counterexample). Depth 8, one colour: the child created at
    level 0 is the node at address 1, at depth 1.  The registry holds it
    under key 0, after the root; key 1 holds the node of depth 2. *)
Lemma C6_counterexample :
  ∃ q w,
    build 8 [black] = Ret (q, w)
    ∧ walk (heap w) (root q) [0%nat] = Some 1%nat
    ∧ walk (heap w) (root q) [0%nat; 0%nat] = Some 2%nat
    ∧ levels q !! 0 = Some [root q; 1%nat]
    ∧ levels q !! 1 = Some [2%nat].
Proof.
  eexists _, _. split; [vm_compute; reflexivity|].
  split_and!; vm_compute; reflexivity.
Qed.

(** C6 (amended). A child created by [add_color] at [level] is
    registered under key [level], and only when [level < MAX_DEPTH - 1].
    So after any colours were added, key [j] of the registry holds, in
    order of creation, exactly the nodes of depth [j + 1] as far as
    [j + 1 < MAX_DEPTH], key 0 holds the root before them when
    [1 < MAX_DEPTH], and nothing else is registered. *)
Theorem C6_registry (max_depth : Z) (cs : list Color) :
  1 ≤ max_depth →
  (∀ fuel self n c level lv w l,
     heap w !! self = Some n → child n (slot c level) = None →
     Z.of_nat level < MAX_DEPTH w - 1 → lv !! Z.of_nat level = Some l →
     Node_add_color (S fuel) self c level lv w
     = Node_add_color fuel (length (heap w)) c (S level)
         (<[Z.of_nat level := l ++ [length (heap w)]]> lv)
         (set_node (mkWorld (MAX_DEPTH w) (heap w ++ [fresh_node])) self
                   (set_child n (slot c level) (length (heap w)))))
  ∧ ∃ q w,
      build max_depth cs = Ret (q, w)
      ∧ ∀ j : nat, Z.of_nat j < max_depth →
          ∃ l, levels q !! Z.of_nat j
               = Some ((if decide (j = 0%nat ∧ 1 < max_depth) then [root q] else []) ++ l)
               ∧ StronglySorted lt l
               ∧ ∀ a, a ∈ l ↔
                      (Z.of_nat j + 1 < max_depth
                       ∧ ∃ p, length p = S j ∧ walk (heap w) (root q) p = Some a).
Proof.
  intros HD. split.
  - intros fuel self n c level lv w l Hn Hc Hlt Hl.
    rewrite Node_add_color_S, Hn. cbn [lift bind].
    destruct (Z.leb_spec (MAX_DEPTH w) (Z.of_nat level)) as [?|_]; [lia|].
    rewrite Hc. unfold OctreeNode_init.
    destruct (Z.ltb_spec (Z.of_nat level) (MAX_DEPTH w - 1)) as [_|?]; [|lia].
    unfold add_level_node. by rewrite Hl.
  - destruct (build_inv max_depth cs) as (q & w & Hb & Hinv & _); [lia|].
    exists q, w. split; [done|]. apply (inv_reg _ _ _ _ _ Hinv).
Qed.

Lemma C6_witness :
  ∃ q w,
    build 8 [black] = Ret (q, w)
    ∧ ∀ j : nat, Z.of_nat j < 8 →
        ∃ l, levels q !! Z.of_nat j
             = Some ((if decide (j = 0%nat ∧ 1 < 8) then [root q] else []) ++ l)
             ∧ StronglySorted lt l
             ∧ ∀ a, a ∈ l ↔
                    (Z.of_nat j + 1 < 8
                     ∧ ∃ p, length p = S j ∧ walk (heap w) (root q) p = Some a).
Proof. apply (C6_registry 8 [black]). lia. Defined.

(** C7 (counterexample). A quantizer of depth 8 that is given black and
    white makes a palette of the two and looks them up as 0 and 1.  If a
    second quantizer of depth 1 is constructed before the colours are
    added, the same calls on the first quantizer look both colours up
    as 0; if the second quantizer has depth 10, adding a colour to the
    first one raises [KeyError]. *)
Lemma C7_counterexample :
  scenario_one_quantizer = Ret ([black; white], [PyInt 0; PyInt 1])
  ∧ scenario_two_quantizers 1 = Ret ([black; white], [PyInt 0; PyInt 0])
  ∧ scenario_two_quantizers 10 = Raise (KeyError 8).
Proof. split_and!; vm_compute; reflexivity. Qed.

(** C7 (amended). The depth is one value shared by all quantizers:
    constructing a second quantizer overwrites the depth that the calls
    on the first one read from then on.  The construction leaves the
    nodes of the first quantizer as they are, and [get_palette_index],
    which does not read the depth, returns what it returned before. *)
Theorem C7_max_depth_is_shared (max_depth1 : Z) (cs : list Color) (max_depth2 : Z) :
  0 ≤ max_depth1 →
  ∃ q1 w q2 w',
    build max_depth1 cs = Ret (q1, w)
    ∧ OctreeQuantizer_init max_depth2 w = Ret (q2, w')
    ∧ MAX_DEPTH w = max_depth1
    ∧ MAX_DEPTH w' = max_depth2
    ∧ heap w' = heap w ++ [fresh_node]
    ∧ ∀ c, get_palette_index q1 c w' = get_palette_index q1 c w.
Proof.
  intros HD. destruct (build_inv max_depth1 cs HD) as (q1 & w & Hb & Hinv & _).
  destruct (OctreeQuantizer_init_returns max_depth2 w) as [lv Hinit].
  pose proof (inv_static _ _ _ _ _ Hinv) as [Hd Hok Hr _ _].
  eexists q1, w, _, _. split_and!; [done|exact Hinit|done|done|done|].
  intros c. cbn [heap].
  rewrite <- (get_palette_index_alloc q1 c w [fresh_node] Hok Hr).
  unfold get_palette_index. done.
Qed.

Lemma C7_witness :
  ∃ q1 w q2 w',
    build 8 [black] = Ret (q1, w)
    ∧ OctreeQuantizer_init 1 w = Ret (q2, w')
    ∧ MAX_DEPTH w = 8
    ∧ MAX_DEPTH w' = 1
    ∧ heap w' = heap w ++ [fresh_node]
    ∧ ∀ c, get_palette_index q1 c w' = get_palette_index q1 c w.
Proof. apply (C7_max_depth_is_shared 8 [black] 1). lia. Defined.

(** C8. The lookup at a node returns the node's palette index if the
    node is a leaf.  Otherwise it takes the branch index, whose bits are
    bit [7 - level] of red, green and blue at positions 2, 1 and 0; it
    goes on in that child at [level + 1] if the child exists, and if not,
    in the first existing child in slot order 0..7. *)
Theorem C8_lookup_step (fuel : nat) (h : list OctreeNode) (self : addr)
    (n : OctreeNode) (c : Color) (level : nat) :
  h !! self = Some n →
  get_color_index_for_level c level = branchIndex c level
  ∧ (is_leaf n = true →
     Node_get_palette_index (S fuel) h self c level = Some (PyInt (palette_index n)))
  ∧ (∀ k, is_leaf n = false → child n (Z.to_nat (branchIndex c level)) = Some k →
     Node_get_palette_index (S fuel) h self c level
     = Node_get_palette_index fuel h k c (S level))
  ∧ (∀ i k, is_leaf n = false → child n (Z.to_nat (branchIndex c level)) = None →
     (i < 8)%nat → child n i = Some k → (∀ j, (j < i)%nat → child n j = None) →
     Node_get_palette_index (S fuel) h self c level
     = Node_get_palette_index fuel h k c (S level)).
Proof.
  intros Hn. pose proof (get_color_index_for_level_branchIndex c level) as Hb.
  split_and!; [done|..]; rewrite Node_get_palette_index_S, Hn; cbn [mbind option_bind];
    unfold slot; rewrite Hb.
  - by intros ->.
  - by intros k -> ->.
  - intros i k -> -> Hi Hk Hfirst.
    assert (first_child n (range 8) = Some k) as ->; [|done].
    apply first_child_spec. exists (seq 0 i), i, (seq (S i) (7 - i)). split_and!; [|done|].
    + unfold range. replace 8%nat with (i + S (7 - i))%nat by lia.
      by rewrite seq_app.
    + apply Forall_forall. intros j Hj%elem_of_seq. apply Hfirst. lia.
Qed.

Lemma C8_witness :
  get_color_index_for_level black 0 = branchIndex black 0
  ∧ Node_get_palette_index 4 small_heap 0 black 0
    = Node_get_palette_index 3 small_heap 1 black 1.
Proof.
  destruct (C8_lookup_step 3 small_heap 0 _ black 0 eq_refl) as (Hb & _ & Hchild & _).
  split; [exact Hb|]. apply Hchild; reflexivity.
Defined.

Lemma walk_length h a p b :
  heap_ok h → walk h a p = Some b → (a + length p ≤ b)%nat.
Proof.
  intros Hok. revert a. induction p as [|i p IH]; intros a.
  - simpl. intros [= ->]. lia.
  - rewrite walk_cons. destruct (h !! a) as [n|] eqn:Hn; [|done]. cbn.
    destruct (child n i) as [k|] eqn:Hk; [|done]. cbn. intros Hw.
    destruct (ok_order h Hok a n i k Hn Hk). specialize (IH k Hw). simpl. lia.
Qed.

(** Where the lookup of a colour ends after the palette was made, and
    what it returns there. *)
Lemma lookup_after_palette D q w color_count palette q' w' L c a i :
  1 ≤ D → inv D (root q) (levels q) w (root q) →
  make_palette q color_count w = Ret (palette, q', w') →
  get_leaves q' w' = Ret L →
  descent_end q' c w' = Some (Some a) → L !! i = Some a →
  ∃ n, heap w' !! a = Some n ∧ is_leaf n = true
       ∧ if decide (Z.of_nat i < color_count)
         then get_palette_index q' c w' = Ret (PyInt (Z.of_nat i))
              ∧ ∃ col, get_color n = Ret col ∧ palette !! i = Some col
         else get_palette_index q' c w' = Ret (PyInt 0).
Proof.
  intros HD Hinv Hmp HL Hend Hi.
  destruct (make_palette_spec D q w color_count HD Hinv)
    as (palette0 & q0 & w0 & L0 & Hmp0 & _ & HL0 & _ & _ & _ & _ & _ & _ & Hidx).
  rewrite Hmp in Hmp0. simplify_eq. rewrite HL in HL0. simplify_eq.
  destruct (Hidx i a Hi) as (n & Hn & Hleaf & Hres).
  exists n. split_and!; [done..|].
  rewrite get_palette_index_descent, Hend, Hn. cbn.
  destruct (decide (Z.of_nat i < color_count)).
  - destruct Hres as [-> ?]. done.
  - by rewrite Hres.
Qed.

(** C9 (counterexample). Depth 8, colours black and white, a palette of
    one: the lookup of white ends at the leaf at address 10, whose
    average is white, and returns 0, the index of the palette entry
    black.  That leaf is the second enumerated leaf, and no palette index
    was assigned to it. *)
Lemma C9_counterexample :
  ∃ q w q' w' n,
    build 8 [black; white] = Ret (q, w)
    ∧ make_palette q 1 w = Ret ([black], q', w')
    ∧ get_leaves q' w' = Ret [2%nat; 10%nat]
    ∧ descent_end q' white w' = Some (Some 10%nat)
    ∧ heap w' !! 10%nat = Some n
    ∧ get_color n = Ret white
    ∧ get_palette_index q' white w' = Ret (PyInt 0).
Proof.
  eexists _, _, _, _, _. split; [vm_compute; reflexivity|].
  split; [vm_compute; reflexivity|].
  split_and!; vm_compute; reflexivity.
Qed.

(** C9 (amended). For a colour that was added (depth at least 1), the
    lookup after [make_palette] follows the colour's own path and stops
    at the first leaf on it, which is one of the enumerated leaves.  If
    that leaf is among the first [color_count] enumerated leaves, the
    lookup returns its position, and the palette entry at that position
    is the leaf's average; otherwise the lookup returns 0. *)
Theorem C9_lookup_of_added_color (max_depth : Z) (cs : list Color)
    (color_count : Z) (c : Color) :
  1 ≤ max_depth → c ∈ cs →
  ∃ q w palette q' w' L a i n,
    build max_depth cs = Ret (q, w)
    ∧ make_palette q color_count w = Ret (palette, q', w')
    ∧ get_leaves q' w' = Ret L
    ∧ descent_end q' c w' = Some (Some a)
    ∧ (∃ m, (0 < m ≤ Z.to_nat max_depth)%nat
            ∧ walk (heap w') (root q') (color_path c 0 m) = Some a)
    ∧ L !! i = Some a
    ∧ heap w' !! a = Some n ∧ is_leaf n = true
    ∧ if decide (Z.of_nat i < color_count)
      then get_palette_index q' c w' = Ret (PyInt (Z.of_nat i))
           ∧ ∃ col, get_color n = Ret col ∧ palette !! i = Some col
      else get_palette_index q' c w' = Ret (PyInt 0).
Proof.
  intros HD Hc.
  destruct (build_inv max_depth cs) as (q & w & Hb & Hinv & Hpaths); [lia|].
  destruct (make_palette_spec max_depth q w color_count HD Hinv)
    as (palette & q' & w' & L & Hmp & Hroot & HL & _ & Hok' & Hrel & (nr & Hnr & Hlr)
        & Hmem & _ & _).
  destruct (added_color_leaf max_depth (root q) (levels q) w (heap w') c HD Hinv Hrel
              (Hpaths c Hc)) as (z & nz & Hz & Hnz & Hlz).
  pose proof (walk_length _ _ _ _ Hok' Hz) as Hlen. rewrite color_path_length in Hlen.
  pose proof (lookup_lt_Some _ _ _ Hnz) as Hzlt.
  destruct (descend_on_path (heap w') c (Z.to_nat max_depth) (S (length (heap w')))
              (root q) 0%nat nr z nz Hnr Hlr Hz Hnz Hlz) as (a & m & Hd & Hreach & Hm & Hwa);
    [lia|].
  apply Hmem in Hreach. apply list_elem_of_lookup in Hreach as [i Hi].
  assert (descent_end q' c w' = Some (Some a)) as Hend.
  { unfold descent_end. by rewrite Hroot. }
  destruct (lookup_after_palette max_depth q w color_count palette q' w' L c a i
              HD Hinv Hmp HL Hend Hi) as (n & Hn & Hleaf & Hres).
  exists q, w, palette, q', w', L, a, i, n. rewrite Hroot.
  split_and!; [done..| |done|done|done|done].
  by exists m.
Qed.

Lemma C9_witness :
  ∃ q w palette q' w' L a i n,
    build 8 [black; white] = Ret (q, w)
    ∧ make_palette q 1 w = Ret (palette, q', w')
    ∧ get_leaves q' w' = Ret L
    ∧ descent_end q' white w' = Some (Some a)
    ∧ (∃ m, (0 < m ≤ Z.to_nat 8)%nat
            ∧ walk (heap w') (root q') (color_path white 0 m) = Some a)
    ∧ L !! i = Some a
    ∧ heap w' !! a = Some n ∧ is_leaf n = true
    ∧ if decide (Z.of_nat i < 1)
      then get_palette_index q' white w' = Ret (PyInt (Z.of_nat i))
           ∧ ∃ col, get_color n = Ret col ∧ palette !! i = Some col
      else get_palette_index q' white w' = Ret (PyInt 0).
Proof.
  apply (C9_lookup_of_added_color 8 [black; white] 1 white); [lia|].
  apply elem_of_cons. right. apply elem_of_cons. left. reflexivity.
Defined.

(** C10. A node is created with palette index 0.  [make_palette] gives
    the leaf at position [i] of the enumeration the index [i] if
    [i < color_count] and leaves the index 0 otherwise, so a lookup whose
    descent ends in a leaf at a position of [color_count] or more
    returns 0. *)
Theorem C10_surplus_leaves_keep_index_0 (max_depth : Z) (cs : list Color)
    (color_count : Z) :
  1 ≤ max_depth →
  (∀ level lv w a lv' w',
     OctreeNode_init level lv w = Ret (a, lv', w') →
     ∃ n, heap w' !! a = Some n ∧ palette_index n = 0)
  ∧ ∃ q w palette q' w' L,
      build max_depth cs = Ret (q, w)
      ∧ make_palette q color_count w = Ret (palette, q', w')
      ∧ get_leaves q' w' = Ret L
      ∧ (∀ i a, L !! i = Some a →
           ∃ n, heap w' !! a = Some n
                ∧ palette_index n
                  = if decide (Z.of_nat i < color_count) then Z.of_nat i else 0)
      ∧ ∀ c i a,
          descent_end q' c w' = Some (Some a) → L !! i = Some a →
          color_count ≤ Z.of_nat i →
          get_palette_index q' c w' = Ret (PyInt 0).
Proof.
  intros HD. split.
  - intros level lv w a lv' w' Hinit. exists fresh_node. split; [|done].
    unfold OctreeNode_init in Hinit.
    assert (a = length (heap w) ∧ heap w' = heap w ++ [fresh_node]) as [-> ->].
    { destruct (_ <? _); [|simplify_eq; split; reflexivity].
      destruct (add_level_node lv level (length (heap w))); cbn [bind] in Hinit;
        simplify_eq. split; reflexivity. }
    rewrite lookup_app_r by lia. by rewrite Nat.sub_diag.
  - destruct (build_inv max_depth cs) as (q & w & Hb & Hinv & _); [lia|].
    destruct (make_palette_spec max_depth q w color_count HD Hinv)
      as (palette & q' & w' & L & Hmp & _ & HL & _ & _ & _ & _ & _ & _ & Hidx).
    exists q, w, palette, q', w', L. split_and!; [done..| |].
    + intros i a Hi. destruct (Hidx i a Hi) as (n & Hn & _ & Hres).
      exists n. split; [done|]. destruct (decide _); [by destruct Hres|done].
    + intros c i a Hend Hi Hge.
      destruct (lookup_after_palette max_depth q w color_count palette q' w' L c a i
                  HD Hinv Hmp HL Hend Hi) as (n & _ & _ & Hres).
      by rewrite decide_False in Hres by lia.
Qed.

Lemma C10_witness :
  ∃ q w palette q' w',
    build 8 [black; white] = Ret (q, w)
    ∧ make_palette q 1 w = Ret (palette, q', w')
    ∧ get_leaves q' w' = Ret [2%nat; 10%nat]
    ∧ descent_end q' white w' = Some (Some 10%nat)
    ∧ get_palette_index q' white w' = Ret (PyInt 0).
Proof.
  destruct (C10_surplus_leaves_keep_index_0 8 [black; white] 1)
    as [_ (q & w & palette & q' & w' & L & Hb & Hmp & HL & _ & Hsurplus)]; [lia|].
  assert (get_leaves q' w' = Ret [2%nat; 10%nat]
          ∧ descent_end q' white w' = Some (Some 10%nat)) as [HL' Hend].
  { vm_compute in Hb. injection Hb as <- <-.
    vm_compute in Hmp. injection Hmp as <- <- <-.
    split; vm_compute; reflexivity. }
  exists q, w, palette, q', w'. split_and!; [exact Hb|exact Hmp|exact HL'|exact Hend|].
  apply (Hsurplus white 1%nat 10%nat); [exact Hend| |lia].
  rewrite HL' in HL. injection HL as <-. reflexivity.
Defined.

(** * Further properties *)

(** ** The pixel count of a node with its children *)

Lemma get_nodes_pixel_count_loop h n : ∀ l s,
  (∀ k, k ∈ omap (child n) l → is_Some (h !! k)) →
  foldl (fun acc i =>
           sum_count ← acc;
           match child n i with
           | None => Some sum_count
           | Some k => node ← h !! k; Some (sum_count + pixel_count node)
           end) (Some s) l
  = Some (s + total pixel_count h (omap (child n) l)).
Proof.
  induction l as [|i l IH]; intros s Hin.
  - simpl. f_equal. lia.
  - cbn [foldl]. cbn [mbind option_bind].
    change (omap (child n) (i :: l)) with
      (match child n i with Some y => y :: omap (child n) l | None => omap (child n) l end)
      in *.
    destruct (child n i) as [k|] eqn:Hk.
    + destruct (Hin k) as [node Hnode]; [by left|].
      rewrite Hnode. cbn [mbind option_bind]. rewrite IH.
      * unfold total. cbn [foldr]. rewrite Hnode. f_equal. lia.
      * intros k' Hk'. apply Hin. by right.
    + by apply IH.
Qed.

(** X1. On a well-formed store [get_nodes_pixel_count] returns the
    node's own count plus the counts of its existing children, and this
    is the pixel count the node holds after [remove_leaves]. *)
Theorem X1_pixel_count_with_children (h : list OctreeNode) (self : addr) (n : OctreeNode) :
  heap_ok h → h !! self = Some n →
  ∃ r h' n',
    get_nodes_pixel_count h self
    = Some (pixel_count n + total pixel_count h (existing_children n))
    ∧ remove_leaves h self = Some (r, h')
    ∧ h' !! self = Some n'
    ∧ get_nodes_pixel_count h self = Some (pixel_count n').
Proof.
  intros Hok Hn.
  assert (get_nodes_pixel_count h self
          = Some (pixel_count n + total pixel_count h (existing_children n))) as Hsum.
  { unfold get_nodes_pixel_count. rewrite Hn. cbn [mbind option_bind].
    apply get_nodes_pixel_count_loop. intros k (i & _ & Hk)%list_elem_of_omap.
    apply lookup_lt_is_Some_2. by destruct (ok_order h Hok self n i k Hn Hk). }
  eexists _, _, _. split; [exact Hsum|].
  split; [by apply remove_leaves_spec|].
  split; [apply list_lookup_insert_eq; by eapply lookup_lt_Some|].
  by rewrite Hsum, absorbed_pixel_count.
Qed.

Lemma X1_witness :
  ∃ r h' n',
    get_nodes_pixel_count small_heap 1 = Some 2
    ∧ remove_leaves small_heap 1 = Some (r, h')
    ∧ h' !! 1%nat = Some n'
    ∧ get_nodes_pixel_count small_heap 1 = Some (pixel_count n').
Proof.
  destruct (X1_pixel_count_with_children small_heap 1 _ small_heap_ok eq_refl)
    as (r & h' & n' & H1 & H2 & H3 & H4).
  exists r, h', n'. split_and!; [exact H1|exact H2|exact H3|exact H4].
Defined.

(** ** The enumeration of leaves *)

(** X2. On a well-formed store the enumeration of leaves below a node
    lists every node at most once; each listed node is a leaf that was
    allocated after the start node, which is never listed itself. *)
Theorem X2_enumerated_leaves_distinct (fuel : nat) (h : list OctreeNode)
    (x : addr) (L : list addr) :
  heap_ok h → get_leaf_nodes fuel h x = Some L →
  NoDup L
  ∧ (x ∉ L)
  ∧ ∀ a, a ∈ L → (x < a)%nat ∧ ∃ n, h !! a = Some n ∧ is_leaf n = true.
Proof.
  intros Hok HL.
  assert (∀ a, a ∈ L → (x < a)%nat ∧ ∃ n, h !! a = Some n ∧ is_leaf n = true) as Hall.
  { intros a Ha. apply (get_leaf_nodes_reaches fuel h x L a Hok HL) in Ha.
    split; [|by eapply reaches_leaf_is_leaf].
    apply reaches_leaf_walk in Ha as (i & p & Hw).
    destruct (walk_order h x (i :: p) a Hok Hw) as [_ Hlt]. destruct Hlt; [done|lia]. }
  split_and!; [by eapply get_leaf_nodes_NoDup| |done].
  intros Hx. destruct (Hall x Hx). lia.
Qed.

Lemma X2_witness :
  NoDup [2%nat; 3%nat]
  ∧ (0%nat ∉ [2%nat; 3%nat])
  ∧ ∀ a, a ∈ [2%nat; 3%nat] →
      (0 < a)%nat ∧ ∃ n, small_heap !! a = Some n ∧ is_leaf n = true.
Proof.
  apply (X2_enumerated_leaves_distinct 3 small_heap 0 [2%nat; 3%nat] small_heap_ok).
  reflexivity.
Defined.

(** ** The tree before reduction *)

(** X3. After any colours were added to a quantizer of depth
    [max_depth >= 1], no node lies deeper than [max_depth], the nodes
    that count pixels are exactly the nodes of depth [max_depth], and
    every node between the root and that depth has a child. *)
Theorem X3_shape_before_reduction (max_depth : Z) (cs : list Color) :
  1 ≤ max_depth →
  ∃ q w,
    build max_depth cs = Ret (q, w)
    ∧ ∀ p a n,
        walk (heap w) (root q) p = Some a → heap w !! a = Some n →
        Z.of_nat (length p) ≤ max_depth
        ∧ (is_leaf n = true ↔ Z.of_nat (length p) = max_depth)
        ∧ (p ≠ [] → Z.of_nat (length p) < max_depth → existing_children n ≠ []).
Proof.
  intros HD. destruct (build_inv max_depth cs) as (q & w & Hb & Hinv & _); [lia|].
  exists q, w. split; [done|]. intros p a n Hp Hn.
  destruct Hinv as [[Hd Hok Hr _ _] Hdepth _ Hfull].
  destruct (Hdepth p a n Hp Hn) as [Hle Hzero].
  assert (a ≠ root q → (p ≠ [] → Z.of_nat (length p) < max_depth → ∃ i k, child n i = Some k)
                        ∧ (Z.of_nat (length p) = max_depth → 0 < pixel_count n)) as Hf.
  { intros Hne. exact (Hfull p a n Hp Hn Hne). }
  assert (p ≠ [] → a ≠ root q) as Hne.
  { intros Hp' ->. by apply Hp', (walk_inj (heap w) (root q) p [] (root q) Hok Hp). }
  split_and!; [done| |].
  - unfold is_leaf. rewrite Z.ltb_lt. split.
    + intros Hpos. destruct (decide (Z.of_nat (length p) = max_depth)); [done|].
      rewrite Hzero in Hpos by lia. lia.
    + intros Hlen. apply Hf; [|done]. apply Hne. intros ->. simpl in Hlen. lia.
  - intros Hp' Hlt. destruct Hf as [Hch _]; [by apply Hne|].
    destruct (Hch Hp' Hlt) as (i & k & Hk).
    assert (k ∈ existing_children n) as Hin.
    { apply existing_children_spec. exists i. split; [|done].
      rewrite <- (ok_slots _ Hok a n Hn). by eapply child_lt. }
    intros E. rewrite E in Hin. by apply elem_of_nil in Hin.
Qed.

Lemma X3_witness :
  ∃ q w,
    build 8 [black; white] = Ret (q, w)
    ∧ ∀ p a n,
        walk (heap w) (root q) p = Some a → heap w !! a = Some n →
        Z.of_nat (length p) ≤ 8
        ∧ (is_leaf n = true ↔ Z.of_nat (length p) = 8)
        ∧ (p ≠ [] → Z.of_nat (length p) < 8 → existing_children n ≠ []).
Proof. apply (X3_shape_before_reduction 8 [black; white]). lia. Defined.

(** ** Adding a colour again *)

Lemma Node_add_color_existing c : ∀ len fuel self level lv w z nz,
  MAX_DEPTH w = Z.of_nat (level + len) →
  walk (heap w) self (color_path c level len) = Some z →
  heap w !! z = Some nz → (len < fuel)%nat →
  Node_add_color fuel self c level lv w = Ret (lv, set_node w z (absorb nz c)).
Proof.
  induction len as [|len IH]; intros fuel self level lv w z nz Hd Hw Hz Hf;
    (destruct fuel as [|fuel]; [lia|]); rewrite Node_add_color_S.
  - simpl in Hw. simplify_eq. rewrite Hz. cbn [lift bind].
    destruct (Z.leb_spec (MAX_DEPTH w) (Z.of_nat level)); [done|lia].
  - rewrite color_path_cons, walk_cons in Hw.
    destruct (heap w !! self) as [n|]; [|done]. cbn in Hw. cbn [lift bind].
    destruct (child n (slot c level)) as [k|]; [|done]. cbn in Hw.
    destruct (Z.leb_spec (MAX_DEPTH w) (Z.of_nat level)); [lia|].
    apply IH; [lia|done|done|lia].
Qed.

(** X4. Adding a colour that was added before allocates no node and
    leaves the registry as it is: the call only adds the colour to the
    sums of the node at the end of the colour's path and 1 to its pixel
    count. *)
Theorem X4_add_color_again (max_depth : Z) (cs : list Color) (c : Color) :
  0 ≤ max_depth → c ∈ cs →
  ∃ q w z nz,
    build max_depth cs = Ret (q, w)
    ∧ walk (heap w) (root q) (color_path c 0 (Z.to_nat max_depth)) = Some z
    ∧ heap w !! z = Some nz
    ∧ add_color q c w = Ret (q, set_node w z (absorb nz c)).
Proof.
  intros HD Hc. destruct (build_inv max_depth cs HD) as (q & w & Hb & Hinv & Hpaths).
  destruct (Hpaths c Hc) as [z Hz].
  pose proof (inv_static _ _ _ _ _ Hinv) as [Hd Hok Hr _ _].
  destruct (lookup_lt_is_Some_2 (heap w) z) as [nz Hnz]; [by eapply walk_in_heap|].
  exists q, w, z, nz. split_and!; [done..|].
  unfold add_color.
  rewrite (Node_add_color_existing c (Z.to_nat max_depth) _ (root q) 0 (levels q) w z nz);
    [by destruct q|lia|done|done|lia].
Qed.

Lemma X4_witness :
  ∃ q w z nz,
    build 8 [black; white] = Ret (q, w)
    ∧ walk (heap w) (root q) (color_path white 0 (Z.to_nat 8)) = Some z
    ∧ heap w !! z = Some nz
    ∧ add_color q white w = Ret (q, set_node w z (absorb nz white)).
Proof.
  apply (X4_add_color_again 8 [black; white] white); [lia|].
  apply elem_of_cons. right. apply elem_of_cons. left. reflexivity.
Defined.

(** ** The palette *)

(** X5. On a quantizer of depth at least 1, [make_palette] returns
    exactly [min(number of leaves left after reduction, color_count)]
    entries, and entry [i] is the floor average of the [i]-th leaf in
    enumeration order. *)
Theorem X5_palette_entries (max_depth : Z) (cs : list Color) (color_count : Z) :
  1 ≤ max_depth →
  ∃ q w palette q' w' L,
    build max_depth cs = Ret (q, w)
    ∧ make_palette q color_count w = Ret (palette, q', w')
    ∧ get_leaves q' w' = Ret L
    ∧ length palette = Nat.min (length L) (Z.to_nat color_count)
    ∧ ∀ i c, palette !! i = Some c →
        ∃ a n, L !! i = Some a ∧ heap w' !! a = Some n
               ∧ 0 < pixel_count n
               ∧ c = Color_init (red (color n) / pixel_count n)
                                (green (color n) / pixel_count n)
                                (blue (color n) / pixel_count n).
Proof.
  intros HD. destruct (build_inv max_depth cs) as (q & w & Hb & Hinv & _); [lia|].
  destruct (make_palette_spec max_depth q w color_count HD Hinv)
    as (palette & q' & w' & L & Hmp & _ & HL & _ & _ & _ & _ & _ & Hlen & Hidx).
  exists q, w, palette, q', w', L. split_and!; [done..|].
  intros i c Hi. pose proof (lookup_lt_Some _ _ _ Hi) as Hlt. rewrite Hlen in Hlt.
  destruct (lookup_lt_is_Some_2 L i) as [a Ha]; [lia|].
  destruct (Hidx i a Ha) as (n & Hn & Hleaf & Hres).
  rewrite decide_True in Hres by lia. destruct Hres as (_ & c' & Hc' & Hp).
  rewrite Hi in Hp. simplify_eq. exists a, n.
  unfold is_leaf in Hleaf. apply Z.ltb_lt in Hleaf.
  split_and!; [done..|]. unfold get_color in Hc'.
  destruct (Z.eqb_spec (pixel_count n) 0); [lia|]. by simplify_eq.
Qed.

Lemma X5_witness :
  ∃ q w palette q' w' L,
    build 8 [black; white] = Ret (q, w)
    ∧ make_palette q 1 w = Ret (palette, q', w')
    ∧ get_leaves q' w' = Ret L
    ∧ length palette = Nat.min (length L) (Z.to_nat 1)
    ∧ ∀ i c, palette !! i = Some c →
        ∃ a n, L !! i = Some a ∧ heap w' !! a = Some n
               ∧ 0 < pixel_count n
               ∧ c = Color_init (red (color n) / pixel_count n)
                                (green (color n) / pixel_count n)
                                (blue (color n) / pixel_count n).
Proof. apply (X5_palette_entries 8 [black; white] 1). lia. Defined.

(** ** Lookups of arbitrary colours *)

Lemma first_child_some n i k :
  (i < 8)%nat → child n i = Some k → is_Some (first_child n (range 8)).
Proof.
  intros Hi Hk. destruct (first_child n (range 8)) eqn:E; [done|].
  apply first_child_none in E. rewrite Forall_forall in E.
  rewrite E in Hk; [done|]. unfold range. apply elem_of_seq. lia.
Qed.

(** In a tree where every node above depth [D] is a leaf or has a
    child, and every node of depth [D] is a leaf, a descent ends in a
    leaf. *)
Lemma Node_descend_ends D r h c :
  heap_ok h →
  (∀ p a n, walk h r p = Some a → h !! a = Some n → p ≠ [] →
     Z.of_nat (length p) ≤ D
     ∧ (is_leaf n = true ∨ (Z.of_nat (length p) < D ∧ ∃ i k, child n i = Some k))) →
  ∀ m p x n level fuel,
    walk h r p = Some x → h !! x = Some n →
    (is_leaf n = true ∨ ∃ i k, child n i = Some k) →
    (Z.to_nat D - length p ≤ m)%nat → (m < fuel)%nat →
    ∃ a, Node_descend fuel h x c level = Some (Some a).
Proof.
  intros Hok Hfull. induction m as [|m IH]; intros p x n level fuel Hp Hx Hn Hm Hf;
    (destruct fuel as [|fuel]; [lia|]); rewrite Node_descend_S, Hx; cbn [mbind option_bind].
  - destruct (is_leaf n) eqn:Hl; [by eexists|].
    destruct Hn as [?|(i & k & Hk)]; [done|].
    destruct (ok_order h Hok x n i k Hx Hk) as [_ Hlt].
    destruct (lookup_lt_is_Some_2 h k Hlt) as [nk Hnk].
    destruct (Hfull (p ++ [i]) k nk) as [Hle _]; [|done|by destruct p|].
    { apply walk_snoc. by exists x, n. }
    rewrite length_app in Hle. simpl in Hle. lia.
  - destruct (is_leaf n) eqn:Hl; [by eexists|].
    destruct Hn as [?|(i & k & Hk)]; [done|].
    assert (∀ j k', child n j = Some k' →
              ∃ a, Node_descend fuel h k' c (S level) = Some (Some a)) as Hstep.
    { intros j k' Hk'. destruct (ok_order h Hok x n j k' Hx Hk') as [_ Hlt].
      destruct (lookup_lt_is_Some_2 h k' Hlt) as [nk Hnk].
      assert (walk h r (p ++ [j]) = Some k') as Hw.
      { apply walk_snoc. by exists x, n. }
      destruct (Hfull (p ++ [j]) k' nk Hw Hnk) as [Hle Hcase]; [by destruct p|].
      rewrite length_app in Hle. simpl in Hle.
      apply (IH (p ++ [j]) k' nk); [done|done| | |lia].
      - destruct Hcase as [?|[_ ?]]; [by left|by right].
      - rewrite length_app. simpl. lia. }
    destruct (child n (slot c level)) as [k'|] eqn:Hk'; [by eapply Hstep|].
    destruct (first_child_some n i k) as [k' Hf']; [|done|].
    { rewrite <- (ok_slots h Hok x n Hx). by eapply child_lt. }
    rewrite Hf'. apply first_child_child in Hf' as [j Hj]. by eapply Hstep.
Qed.

(** With the budget of the lookup, the descent from a root that has a
    child ends in a leaf. *)
Lemma descent_ends D r h c nr :
  heap_ok h → h !! r = Some nr → (∃ i k, child nr i = Some k) →
  (∀ p a n, walk h r p = Some a → h !! a = Some n → p ≠ [] →
     Z.of_nat (length p) ≤ D
     ∧ (is_leaf n = true ∨ (Z.of_nat (length p) < D ∧ ∃ i k, child n i = Some k))) →
  ∃ a, Node_descend (S (length h)) h r c 0 = Some (Some a).
Proof.
  intros Hok Hr Hkid Hfull.
  assert (r < length h)%nat as Hrlt by by eapply lookup_lt_Some.
  destruct (Node_descend_total (S (length h)) h r c 0 Hok Hrlt) as [res Hres]; [lia|].
  destruct (Node_descend_ends D r h c Hok Hfull (Z.to_nat D) [] r nr 0%nat
              (S (Z.to_nat D) + S (length h))%nat) as [a Ha];
    [done|done|by right|lia|lia|].
  rewrite (Node_descend_mono _ _ _ _ _ _ _ Hres) in Ha by lia. simplify_eq.
  by exists a.
Qed.

(** A tree that holds a colour stays one in which descents end in
    leaves, whatever reduction did to the pixel counts. *)
Lemma inv_descents_end D q w h' :
  inv D (root q) (levels q) w (root q) →
  Forall2 (fun n n' => children n' = children n ∧ pixel_count n ≤ pixel_count n')
          (heap w) h' →
  (∃ p a, p ≠ [] ∧ walk (heap w) (root q) p = Some a) →
  (∃ nr, h' !! root q = Some nr ∧ ∃ i k, child nr i = Some k)
  ∧ ∀ p a n, walk h' (root q) p = Some a → h' !! a = Some n → p ≠ [] →
      Z.of_nat (length p) ≤ D
      ∧ (is_leaf n = true ∨ (Z.of_nat (length p) < D ∧ ∃ i k, child n i = Some k)).
Proof.
  intros [[Hd Hok Hr _ _] Hdepth _ Hfull] Hrel (p0 & a0 & Hp0 & Hw0).
  assert (Forall2 same_children (heap w) h') as Hsc.
  { eapply Forall2_impl; [exact Hrel|]. by intros n n' [? _]. }
  assert (∀ a n', h' !! a = Some n' →
            ∃ n, heap w !! a = Some n ∧ children n' = children n
                 ∧ pixel_count n ≤ pixel_count n') as Hback.
  { intros a n' Ha. destruct (Forall2_lookup_r _ _ _ _ _ Hrel Ha) as (n & Hn & ? & ?).
    by exists n. }
  split.
  - destruct (lookup_lt_is_Some_2 h' (root q)) as [nr Hnr].
    { by rewrite <- (Forall2_length _ _ _ Hrel). }
    exists nr. split; [done|].
    destruct (Hback (root q) nr Hnr) as (n & Hn & Hch & _).
    destruct p0 as [|i p0]; [done|]. rewrite walk_cons, Hn in Hw0. cbn in Hw0.
    destruct (child n i) as [k|] eqn:Hk; [|done].
    exists i, k. unfold child in *. by rewrite Hch.
  - intros p a n' Hp Hn' Hne. rewrite (walk_ext (heap w) h') in Hp by done.
    destruct (Hback a n' Hn') as (n & Hn & Hch & Hle).
    destruct (Hdepth p a n Hp Hn) as [Hlen _]. split; [done|].
    assert (a ≠ root q) as Hna.
    { intros ->. by apply Hne, (walk_inj (heap w) (root q) p [] (root q) Hok Hp). }
    destruct (Hfull p a n Hp Hn Hna) as [Hkid Hleaf].
    destruct (decide (Z.of_nat (length p) = D)) as [E|E].
    + left. unfold is_leaf. apply Z.ltb_lt. specialize (Hleaf E). lia.
    + right. split; [lia|]. destruct Hkid as (i & k & Hk); [done|lia|].
      exists i, k. unfold child in *. by rewrite Hch.
Qed.

(** After [make_palette] on a quantizer that holds a colour, the lookup
    of any colour ends in an enumerated leaf. *)
Lemma lookup_ends_in_leaf D q w color_count palette q' w' L c :
  1 ≤ D → inv D (root q) (levels q) w (root q) →
  (∃ p a, p ≠ [] ∧ walk (heap w) (root q) p = Some a) →
  make_palette q color_count w = Ret (palette, q', w') →
  get_leaves q' w' = Ret L →
  ∃ a i, descent_end q' c w' = Some (Some a) ∧ L !! i = Some a.
Proof.
  intros HD Hinv Hne Hmp HL.
  destruct (make_palette_spec D q w color_count HD Hinv)
    as (palette0 & q0 & w0 & L0 & Hmp0 & Hroot & HL0 & _ & Hok' & Hrel & (nr & Hnr & Hlr)
        & Hmem & _ & _).
  rewrite Hmp in Hmp0. simplify_eq. rewrite HL in HL0. simplify_eq.
  destruct (inv_descents_end D q w (heap w0) Hinv Hrel Hne) as [(nr' & Hnr' & Hkid) Hfull].
  rewrite Hnr in Hnr'. simplify_eq.
  destruct (descent_ends D (root q) (heap w0) c nr' Hok' Hnr Hkid Hfull) as [a Ha].
  unfold descent_end. rewrite Hroot.
  destruct (Node_descend_reaches _ _ _ _ _ _ Ha) as (n & Hn & [[Hl _]|[_ Hreach]]).
  - rewrite Hnr in Hn. simplify_eq. congruence.
  - apply Hmem, list_elem_of_lookup in Hreach as [i Hi]. by exists a, i.
Qed.

(** X10. Before any palette was made, the lookup of any colour in a
    quantizer that holds at least one colour returns 0, the index every
    node starts with. *)
Theorem X10_lookup_before_palette (max_depth : Z) (cs : list Color) (c : Color) :
  1 ≤ max_depth → cs ≠ [] →
  ∃ q w, build max_depth cs = Ret (q, w) ∧ get_palette_index q c w = Ret (PyInt 0).
Proof.
  intros HD Hcs. destruct (build_inv max_depth cs) as (q & w & Hb & Hinv & Hpaths); [lia|].
  exists q, w. split; [done|].
  destruct cs as [|c0 cs]; [done|]. destruct (Hpaths c0) as [a0 Ha0]; [by left|].
  pose proof (inv_static _ _ _ _ _ Hinv) as [Hd Hok Hr Hpal _].
  destruct (inv_descents_end max_depth q w (heap w) Hinv) as [(nr & Hnr & Hkid) Hfull].
  { apply Forall2_refl_rel. intros n. split; [done|lia]. }
  { exists (color_path c0 0 (Z.to_nat max_depth)), a0. split; [|done].
    intros E. apply (f_equal length) in E. rewrite color_path_length in E. simpl in E. lia. }
  destruct (descent_ends max_depth (root q) (heap w) c nr Hok Hnr Hkid Hfull) as [a Ha].
  rewrite get_palette_index_descent. unfold descent_end. rewrite Ha.
  destruct (lookup_lt_is_Some_2 (heap w) a) as [n Hn].
  { by eapply Node_descend_in_heap. }
  rewrite Hn. cbn. rewrite Forall_forall in Hpal.
  rewrite (Hpal n); [done|]. by eapply list_elem_of_lookup_2.
Qed.

Lemma X10_witness :
  ∃ q w, build 8 [black; white] = Ret (q, w)
         ∧ get_palette_index q near_white w = Ret (PyInt 0).
Proof. apply (X10_lookup_before_palette 8 [black; white] near_white); [lia|discriminate]. Defined.

Lemma lookup_in_palette D q w color_count palette q' w' c :
  1 ≤ D → inv D (root q) (levels q) w (root q) →
  (∃ p a, p ≠ [] ∧ walk (heap w) (root q) p = Some a) →
  0 < color_count →
  make_palette q color_count w = Ret (palette, q', w') →
  ∃ i col, get_palette_index q' c w' = Ret (PyInt (Z.of_nat i)) ∧ palette !! i = Some col.
Proof.
  intros HD Hinv Hne Hcc Hmp.
  destruct (make_palette_spec D q w color_count HD Hinv)
    as (palette0 & q0 & w0 & L & Hmp0 & _ & HL & _ & _ & _ & _ & _ & Hlen & _).
  rewrite Hmp in Hmp0. simplify_eq.
  destruct (lookup_ends_in_leaf D q w color_count palette0 q0 w0 L c HD Hinv Hne Hmp HL)
    as (a & i & Hend & Hi).
  destruct (lookup_after_palette D q w color_count palette0 q0 w0 L c a i
              HD Hinv Hmp HL Hend Hi) as (n & _ & _ & Hres).
  destruct (decide (Z.of_nat i < color_count)).
  - destruct Hres as (-> & col & _ & Hcol). by exists i, col.
  - rewrite Hres. apply lookup_lt_Some in Hi.
    destruct (lookup_lt_is_Some_2 palette0 0) as [col Hcol]; [lia|].
    by exists 0%nat, col.
Qed.

(** X6. After the palette of a quantizer that holds at least one colour
    was made with a positive [color_count], the lookup of any colour,
    added or not, returns an index of the palette. *)
Theorem X6_lookup_index_in_palette (max_depth : Z) (cs : list Color) (color_count : Z)
    (c : Color) :
  1 ≤ max_depth → cs ≠ [] → 0 < color_count →
  ∃ q w palette q' w' i col,
    build max_depth cs = Ret (q, w)
    ∧ make_palette q color_count w = Ret (palette, q', w')
    ∧ get_palette_index q' c w' = Ret (PyInt (Z.of_nat i))
    ∧ palette !! i = Some col.
Proof.
  intros HD Hcs Hcc.
  destruct (build_inv max_depth cs) as (q & w & Hb & Hinv & Hpaths); [lia|].
  destruct (make_palette_spec max_depth q w color_count HD Hinv)
    as (palette & q' & w' & L & Hmp & _).
  destruct cs as [|c0 cs]; [done|].
  destruct (Hpaths c0) as [a Ha]; [by left|].
  destruct (lookup_in_palette max_depth q w color_count palette q' w' c HD Hinv)
    as (i & col & Hi & Hcol); [|done|done|].
  { exists (color_path c0 0 (Z.to_nat max_depth)), a. split; [|done].
    intros E. apply (f_equal length) in E. rewrite color_path_length in E. simpl in E. lia. }
  by exists q, w, palette, q', w', i, col.
Qed.

Lemma X6_witness :
  ∃ q w palette q' w' i col,
    build 8 [black; white] = Ret (q, w)
    ∧ make_palette q 1 w = Ret (palette, q', w')
    ∧ get_palette_index q' near_white w' = Ret (PyInt (Z.of_nat i))
    ∧ palette !! i = Some col.
Proof. apply (X6_lookup_index_in_palette 8 [black; white] 1 near_white); [lia|discriminate|lia]. Defined.

(** ** The pixel loops *)

Lemma hfor_app {A St} (l1 l2 : list A) (body : A → St → hresult St) s :
  hfor (l1 ++ l2) body s = hdo s' <- hfor l1 body s; hfor l2 body s'.
Proof.
  revert s. induction l1 as [|a l1 IH]; intros s; [done|]. simpl.
  destruct (body a s); simpl; [apply IH|done..].
Qed.

Lemma hfor_ext {A St} (l : list A) (body body' : A → St → hresult St) s :
  (∀ a s, a ∈ l → body a s = body' a s) → hfor l body s = hfor l body' s.
Proof.
  revert s. induction l as [|a l IH]; intros s H; [done|]. simpl.
  rewrite H by left. destruct (body' a s); simpl; [|done..].
  apply IH. intros. apply H. by right.
Qed.

Lemma of_result_bind {A B} (r : result A) (k : A → result B) :
  of_result (bind r k) = hdo a <- of_result r; of_result (k a).
Proof. by destruct r. Qed.

Lemma flat_index (width x y : nat) :
  (x < width)%nat →
  ((y * width + x) `mod` width = x)%nat ∧ ((y * width + x) `div` width = y)%nat.
Proof.
  intros Hx. split.
  - symmetry. apply (Nat.mod_unique _ _ y); lia.
  - symmetry. apply (Nat.div_unique _ _ _ x); lia.
Qed.

(** The two nested loops visit the pixels row by row. *)
Lemma hfor_rows {St} (width : nat) (body : nat * nat → St → hresult St) : ∀ n y0 s,
  hfor (seq y0 n) (fun y => hfor (range width) (fun x => body (x, y))) s
  = hfor (seq (y0 * width) (n * width))
         (fun k => body ((k `mod` width)%nat, (k `div` width)%nat)) s.
Proof.
  induction n as [|n IH]; intros y0 s; [done|].
  replace (S n * width)%nat with (width + n * width)%nat by lia.
  rewrite seq_app, hfor_app. cbn [seq hfor].
  assert (hfor (range width) (fun x => body (x, y0)) s
          = hfor (seq (y0 * width) width)
              (fun k => body ((k `mod` width)%nat, (k `div` width)%nat)) s) as ->.
  { unfold range.
    assert (∀ m x0 s, (x0 + m ≤ width)%nat →
              hfor (seq x0 m) (fun x => body (x, y0)) s
              = hfor (seq (y0 * width + x0) m)
                  (fun k => body ((k `mod` width)%nat, (k `div` width)%nat)) s) as Hrow.
    { induction m as [|m IHm]; intros x0 s0 Hle; [done|]. cbn [seq hfor].
      destruct (flat_index width x0 y0) as [-> ->]; [lia|].
      destruct (body (x0, y0) s0); cbn [hbind]; [|done..].
      replace (S (y0 * width + x0)) with (y0 * width + S x0)%nat by lia.
      apply IHm. lia. }
    rewrite (Hrow width 0%nat s) by lia. by rewrite Nat.add_0_r. }
  destruct (hfor (seq (y0 * width) width) _ s); cbn [hbind]; [|done..].
  rewrite IH. by replace (S y0 * width)%nat with (y0 * width + width)%nat by lia.
Qed.

Lemma getpixel_flat (image : Image) (width height k : nat) (c : Z * Z * Z) :
  Image_size image = (width, height) →
  length (Image_data image) = (width * height)%nat →
  Image_data image !! k = Some c →
  getpixel image ((k `mod` width)%nat, (k `div` width)%nat) = HRet c.
Proof.
  intros Hs Hl Hk. apply lookup_lt_Some in Hk as Hlt. unfold getpixel. rewrite Hs.
  assert (width ≠ 0)%nat as Hw by (intros ->; lia).
  pose proof (Nat.mod_upper_bound k width Hw).
  assert (k `div` width < height)%nat by (apply Nat.Div0.div_lt_upper_bound; lia).
  pose proof (Nat.div_mod_eq k width).
  destruct (Nat.ltb_spec (k `mod` width) width); [|lia].
  destruct (Nat.ltb_spec (k `div` width) height); [|lia]. cbn [andb].
  replace (k `div` width * width + k `mod` width)%nat with k by lia. by rewrite Hk.
Qed.

Lemma putpixel_flat (image : Image) (width height k : nat) (v : Z * Z * Z) :
  Image_size image = (width, height) →
  length (Image_data image) = (width * height)%nat →
  (k < length (Image_data image))%nat →
  putpixel image ((k `mod` width)%nat, (k `div` width)%nat) v
  = HRet (mkImage (Image_size image) (<[k := v]> (Image_data image))).
Proof.
  intros Hs Hl Hlt. unfold putpixel. rewrite Hs.
  assert (width ≠ 0)%nat as Hw by (intros ->; lia).
  pose proof (Nat.mod_upper_bound k width Hw).
  assert (k `div` width < height)%nat by (apply Nat.Div0.div_lt_upper_bound; lia).
  pose proof (Nat.div_mod_eq k width).
  destruct (Nat.ltb_spec (k `mod` width) width); [|lia].
  destruct (Nat.ltb_spec (k `div` width) height); [|lia]. cbn [andb].
  by replace (k `div` width * width + k `mod` width)%nat with k by lia.
Qed.

Lemma list_getitem_nat {A} (l : list A) (i : nat) :
  list_getitem l (PyInt (Z.of_nat i))
  = match l !! i with Some a => HRet a | None => HRaise IndexError end.
Proof.
  unfold list_getitem. destruct (Z.ltb_spec (Z.of_nat i) 0); [lia|].
  destruct (Z.ltb_spec (Z.of_nat i) 0); [lia|]. by rewrite Nat2Z.id.
Qed.

(** The first loop adds the pixels in order. *)
Lemma add_loop (image : Image) (width height : nat) :
  Image_size image = (width, height) →
  length (Image_data image) = (width * height)%nat →
  ∀ m k0 q w, (k0 + m ≤ length (Image_data image))%nat →
    hfor (seq k0 m)
      (fun k '(octree, w) =>
         hdo c <- getpixel image ((k `mod` width)%nat, (k `div` width)%nat);
         of_result (add_color octree (pixel_color c) w)) (q, w)
    = of_result (add_colors q (pixel_color <$> take m (drop k0 (Image_data image))) w).
Proof.
  intros Hs Hl. induction m as [|m IH]; intros k0 q w Hle; [done|]. cbn [seq hfor].
  destruct (lookup_lt_is_Some_2 (Image_data image) k0) as [c Hc]; [lia|].
  rewrite (getpixel_flat image width height k0 c Hs Hl Hc). cbn [hbind].
  rewrite (drop_S _ _ _ Hc). cbn [take fmap list_fmap add_colors].
  rewrite of_result_bind.
  destruct (add_color q (pixel_color c) w) as [[q' w']| |]; cbn [of_result hbind]; [|done..].
  apply IH. lia.
Qed.

(** The second loop replaces every pixel by its palette colour. *)
Lemma quantize_loop (palette : list Color) (octree : OctreeQuantizer) (w : World)
    (width height : nat) :
  ∀ m k0 image,
    Image_size image = (width, height) →
    length (Image_data image) = (width * height)%nat →
    (k0 + m ≤ length (Image_data image))%nat →
    (∀ k c, (k0 ≤ k)%nat → Image_data image !! k = Some c →
       is_Some (match quantized palette octree w c with HRet v => Some v | _ => None end)) →
    ∃ image',
      hfor (seq k0 m)
        (fun k image =>
           hdo c <- getpixel image ((k `mod` width)%nat, (k `div` width)%nat);
           hdo index <- of_result (get_palette_index octree (pixel_color c) w);
           hdo color <- list_getitem palette index;
           putpixel image ((k `mod` width)%nat, (k `div` width)%nat)
                    (red color, green color, blue color)) image
      = HRet image'
      ∧ Image_size image' = Image_size image
      ∧ ∀ k, Image_data image' !! k
             = if decide (k0 ≤ k < k0 + m)%nat
               then quantized_or_same palette octree w <$> Image_data image !! k
               else Image_data image !! k.
Proof.
  induction m as [|m IH]; intros k0 image Hs Hl Hle Hq.
  { exists image. split_and!; [done..|]. intros k. rewrite decide_False; [done|lia]. }
  cbn [seq hfor].
  destruct (lookup_lt_is_Some_2 (Image_data image) k0) as [c Hc]; [lia|].
  rewrite (getpixel_flat image width height k0 c Hs Hl Hc). cbn [hbind].
  pose proof (Hq k0 c (le_n _) Hc) as Hv.
  assert (quantized_or_same palette octree w c
          = quantized_or_same palette octree w c) as Hsame by done.
  unfold quantized_or_same at 2 in Hsame. unfold quantized in Hv, Hsame.
  destruct (of_result (get_palette_index octree (pixel_color c) w)) as [index| |];
    cbn [hbind] in *; [|by destruct Hv..].
  destruct (list_getitem palette index) as [color| |]; cbn [hbind] in *; [|by destruct Hv..].
  rewrite (putpixel_flat image width height) by (done || lia). cbn [hbind].
  edestruct (IH (S k0) (mkImage (Image_size image)
                          (<[k0 := (red color, green color, blue color)]> (Image_data image))))
    as (image' & Hrun & Hsize & Hdata).
  - done.
  - cbn. by rewrite length_insert.
  - cbn. rewrite length_insert. lia.
  - cbn. intros k c' Hk. rewrite list_lookup_insert_ne by lia. apply Hq. lia.
  - exists image'. split_and!; [done..|]. intros k. rewrite Hdata. cbn.
    destruct (decide (k = k0)) as [->|Hne].
    + rewrite decide_False by lia. rewrite decide_True by lia.
      rewrite list_lookup_insert_eq by lia. rewrite Hc. cbn [fmap option_fmap option_map]. by rewrite Hsame.
    + rewrite list_lookup_insert_ne by done.
      repeat case_decide; (done || lia).
Qed.

(** The run of the invocation, in terms of the quantizer built from the
    pixels in row order. *)
Lemma invoke_spec (image : Image) (final_colors : Z) (w : World) :
  heap w = [] →
  length (Image_data image) = (fst (Image_size image) * snd (Image_size image))%nat →
  0 < final_colors →
  ∃ q0 w0 palette q' w' image',
    build 8 (pixel_color <$> Image_data image) = Ret (q0, w0)
    ∧ make_palette q0 final_colors w0 = Ret (palette, q', w')
    ∧ invoke image final_colors w = HRet (image', w')
    ∧ Image_size image' = Image_size image
    ∧ Z.of_nat (length palette) ≤ final_colors
    ∧ Forall2 (fun c v =>
         ∃ i col, get_palette_index q' (pixel_color c) w' = Ret (PyInt (Z.of_nat i))
                  ∧ palette !! i = Some col
                  ∧ v = (red col, green col, blue col))
        (Image_data image) (Image_data image').
Proof.
  intros Hw Hl Hfc. destruct image as [[width height] data]. cbn [Image_size Image_data fst snd] in *.
  destruct (build_inv 8 (pixel_color <$> data)) as (q0 & w0 & Hb & Hinv & Hpaths); [lia|].
  destruct (make_palette_spec 8 q0 w0 final_colors ltac:(lia) Hinv)
    as (palette & q' & w' & L & Hmp & _ & _ & _ & _ & _ & _ & _ & Hlen & _).
  assert (∀ c, c ∈ data →
            ∃ i col, get_palette_index q' (pixel_color c) w' = Ret (PyInt (Z.of_nat i))
                     ∧ palette !! i = Some col) as Hlookup.
  { intros c Hc. destruct data as [|c0 data]; [by apply elem_of_nil in Hc|].
    destruct (Hpaths (pixel_color c0)) as [a Ha]; [by left|].
    apply (lookup_in_palette 8 q0 w0 final_colors palette q' w'); [lia|done| |done|done].
    exists (color_path (pixel_color c0) 0 (Z.to_nat 8)), a. split; [|done].
    intros E. apply (f_equal length) in E. by rewrite color_path_length in E. }
  assert (∀ c, c ∈ data →
            ∃ i col, get_palette_index q' (pixel_color c) w' = Ret (PyInt (Z.of_nat i))
                     ∧ palette !! i = Some col
                     ∧ quantized palette q' w' c = HRet (red col, green col, blue col))
    as Hquant.
  { intros c Hc. destruct (Hlookup c Hc) as (i & col & Hi & Hcol). exists i, col.
    split_and!; [done..|]. unfold quantized. rewrite Hi. cbn [of_result hbind].
    by rewrite list_getitem_nat, Hcol. }
  pose proof Hb as Hbuild. unfold build in Hb. unfold invoke. cbn [Image_size].
  replace (OctreeQuantizer_init 8 w) with (OctreeQuantizer_init 8 world0)
    by (unfold OctreeQuantizer_init; by rewrite Hw).
  revert Hb. destruct (OctreeQuantizer_init 8 world0) as [[qi wi]| |]; cbn [bind]; intros Hb;
    [|done..].
  cbn [of_result hbind]. unfold range at 1.
  rewrite (hfor_rows width
             (fun xy '(octree, w) =>
                hdo c <- getpixel (mkImage (width, height) data) xy;
                of_result (add_color octree (pixel_color c) w))).
  rewrite (add_loop (mkImage (width, height) data) width height eq_refl Hl)
    by (cbn; lia).
  cbn [Image_data]. rewrite drop_0, firstn_all2 by lia. rewrite Hb.
  cbn [of_result hbind]. rewrite Hmp. cbn [of_result hbind]. unfold range at 1.
  rewrite (hfor_rows width
             (fun xy image =>
                hdo c <- getpixel image xy;
                hdo index <- of_result (get_palette_index q' (pixel_color c) w');
                hdo color <- list_getitem palette index;
                putpixel image xy (red color, green color, blue color))).
  destruct (quantize_loop palette q' w' width height (height * width) 0
              (mkImage (width, height) data) eq_refl Hl) as (image' & Hrun & Hsize & Hdata).
  { cbn. lia. }
  { cbn. intros k c _ Hk. apply list_elem_of_lookup_2 in Hk.
    destruct (Hquant c Hk) as (i & col & _ & _ & ->). done. }
  change (0 * width)%nat with 0%nat. rewrite Hrun.
  cbn [hbind]. exists q0, w0, palette, q', w', image'.
  split_and!; [exact Hbuild|done..| |].
  - rewrite Hlen. lia.
  - cbn in Hdata. apply Forall2_same_length_lookup_2.
    + apply Nat.le_antisymm.
      * apply Nat.nlt_ge. intros Hgt.
        destruct (lookup_lt_is_Some_2 data (length (Image_data image'))) as [c Hc]; [lia|].
        specialize (Hdata (length (Image_data image'))).
        rewrite decide_True, Hc in Hdata by lia. cbn in Hdata.
        apply lookup_lt_Some in Hdata. lia.
      * apply Nat.nlt_ge. intros Hgt.
        destruct (lookup_lt_is_Some_2 (Image_data image') (length data)) as [c Hc]; [lia|].
        specialize (Hdata (length data)). rewrite Hc in Hdata.
        rewrite decide_False in Hdata by lia. symmetry in Hdata.
        apply lookup_lt_Some in Hdata. lia.
    + intros k c v Hc Hv. rewrite Hdata, Hc in Hv.
      apply lookup_lt_Some in Hc as Hlt.
      rewrite decide_True in Hv by lia. cbn in Hv. simplify_eq.
      apply list_elem_of_lookup_2 in Hc.
      destruct (Hquant c Hc) as (i & col & Hi & Hcol & Hq). exists i, col.
      split_and!; [done..|]. unfold quantized_or_same. by rewrite Hq.
Qed.

(** X7. On an image whose pixel list has the length its size states,
    with a positive [final_colors] and an empty store, the invocation
    returns: the size is unchanged, the palette is that of the quantizer
    built from the pixels in row order and has at most [final_colors]
    entries, and every pixel is replaced by the palette entry its lookup
    selects. *)
Theorem X7_invoke_quantizes (image : Image) (final_colors : Z) (w : World) :
  heap w = [] →
  length (Image_data image) = (fst (Image_size image) * snd (Image_size image))%nat →
  0 < final_colors →
  ∃ q0 w0 palette q' w' image',
    build 8 (pixel_color <$> Image_data image) = Ret (q0, w0)
    ∧ make_palette q0 final_colors w0 = Ret (palette, q', w')
    ∧ invoke image final_colors w = HRet (image', w')
    ∧ Image_size image' = Image_size image
    ∧ Z.of_nat (length palette) ≤ final_colors
    ∧ Forall2 (fun c v =>
         ∃ i col, get_palette_index q' (pixel_color c) w' = Ret (PyInt (Z.of_nat i))
                  ∧ palette !! i = Some col
                  ∧ v = (red col, green col, blue col))
        (Image_data image) (Image_data image').
Proof. apply invoke_spec. Qed.

Lemma X7_witness :
  ∃ q0 w0 palette q' w' image',
    build 8 (pixel_color <$> Image_data two_pixels) = Ret (q0, w0)
    ∧ make_palette q0 1 w0 = Ret (palette, q', w')
    ∧ invoke two_pixels 1 world0 = HRet (image', w')
    ∧ Image_size image' = Image_size two_pixels
    ∧ Z.of_nat (length palette) ≤ 1
    ∧ Forall2 (fun c v =>
         ∃ i col, get_palette_index q' (pixel_color c) w' = Ret (PyInt (Z.of_nat i))
                  ∧ palette !! i = Some col
                  ∧ v = (red col, green col, blue col))
        (Image_data two_pixels) (Image_data image').
Proof. apply (X7_invoke_quantizes two_pixels 1 world0); [reflexivity|reflexivity|lia]. Defined.

(** ** Properties of single nodes that the operations keep *)

Section local.
Variable P : OctreeNode → Prop.
Hypothesis P_fresh : P fresh_node.
Hypothesis P_set_child : ∀ n i k, P n → P (set_child n i k).
Hypothesis P_fold_child : ∀ n node, P n → P node → P (fold_child n node).
Hypothesis P_set_palette_index : ∀ n i, P n → P (set_palette_index n i).

Lemma Node_add_color_local c :
  (∀ n, P n → P (absorb n c)) →
  ∀ fuel self level lv w lv' w',
    Forall P (heap w) →
    Node_add_color fuel self c level lv w = Ret (lv', w') → Forall P (heap w').
Proof using P_fresh P_set_child.
  intros Hc. induction fuel as [|fuel IH]; intros self level lv w lv' w' HP H; [done|].
  rewrite Node_add_color_S in H.
  destruct (heap w !! self) as [n|] eqn:Hn; [|done]. cbn [lift bind] in H.
  assert (P n) as HPn by (eapply Forall_lookup_1; eauto).
  destruct (MAX_DEPTH w <=? Z.of_nat level).
  { simplify_eq. cbn. apply Forall_insert; auto. }
  destruct (child n (slot c level)) as [k|]; [by eapply IH|].
  unfold OctreeNode_init in H.
  assert (Forall P (<[self := set_child n (slot c level) (length (heap w))]>
                      (heap w ++ [fresh_node]))) as HP'.
  { apply Forall_insert; [|auto]. apply Forall_app. split; [done|]. by apply Forall_singleton. }
  destruct (Z.of_nat level <? MAX_DEPTH w - 1).
  - destruct (add_level_node lv level (length (heap w))) as [lv1| |]; [|done..].
    cbn [bind] in H. by eapply IH in H.
  - cbn [bind] in H. by eapply IH in H.
Qed.

Lemma add_colors_local cs :
  (∀ c n, c ∈ cs → P n → P (absorb n c)) →
  ∀ q w q' w', Forall P (heap w) → add_colors q cs w = Ret (q', w') → Forall P (heap w').
Proof using P_fresh P_set_child.
  induction cs as [|c cs IH]; intros Hcs q w q' w' HP H.
  { cbn in H. by simplify_eq. }
  cbn [add_colors] in H. unfold add_color in H.
  destruct (Node_add_color _ (root q) c 0 (levels q) w) as [[lv1 w1]| |] eqn:E;
    [|done..]. cbn [bind] in H.
  eapply (IH (fun c' n Hc' => Hcs c' n (proj2 (elem_of_cons _ _ _) (or_intror Hc'))));
    [|exact H].
  eapply Node_add_color_local; [|exact HP|exact E]. intros n. apply Hcs. by left.
Qed.

Lemma build_local max_depth cs q w :
  (∀ c n, c ∈ cs → P n → P (absorb n c)) →
  build max_depth cs = Ret (q, w) → Forall P (heap w).
Proof using P_fresh P_set_child.
  intros Hcs H. unfold build, OctreeQuantizer_init, OctreeNode_init in H.
  cbn [MAX_DEPTH heap world0 app] in H.
  assert (Forall P [fresh_node]) as HP by by apply Forall_singleton.
  destruct (Z.of_nat 0 <? max_depth - 1).
  - destruct (add_level_node _ _ _) as [lv1| |]; [|done..]. cbn [bind] in H.
    by eapply add_colors_local in H.
  - cbn [bind] in H. by eapply add_colors_local in H.
Qed.

Lemma remove_leaves_local h self r h' :
  Forall P h → remove_leaves h self = Some (r, h') → Forall P h'.
Proof using P_fold_child.
  intros HP H. unfold remove_leaves in H.
  assert (∀ l st r1 h1,
            (∀ r0 h0, st = Some (r0, h0) → Forall P h0) →
            foldl (remove_leaves_step self) st l = Some (r1, h1) → Forall P h1) as Hloop.
  { induction l as [|i l IH]; intros st r1 h1 Hst Hf.
    - cbn in Hf. by eapply Hst.
    - cbn [foldl] in Hf. eapply IH; [|exact Hf].
      intros r0 h0 Hstep. unfold remove_leaves_step in Hstep.
      destruct st as [[r2 h2]|]; [|done]. cbn [mbind option_bind] in Hstep.
      specialize (Hst r2 h2 eq_refl).
      destruct (h2 !! self) as [n|] eqn:Hn; [|done]. cbn [mbind option_bind] in Hstep.
      destruct (child n i) as [k|]; [|by simplify_eq].
      destruct (h2 !! k) as [node|] eqn:Hk; [|done]. cbn [mbind option_bind] in Hstep.
      simplify_eq. apply Forall_insert; [done|].
      apply P_fold_child; by eapply Forall_lookup_1. }
  destruct (foldl _ _ _) as [[r1 h1]|] eqn:E; [|done]. cbn in H. simplify_eq.
  eapply Hloop; [|exact E]. intros ?? [= <- <-]. done.
Qed.

Lemma reduce_level_local nodes : ∀ leaf_count color_count h leaf_count' h',
  Forall P h →
  reduce_level nodes leaf_count color_count h = Some (leaf_count', h') → Forall P h'.
Proof using P_fold_child.
  induction nodes as [|node rest IH]; intros lc cc h lc' h' HP H.
  { cbn in H. by simplify_eq. }
  cbn [reduce_level] in H.
  destruct (remove_leaves h node) as [[r h1]|] eqn:E; [|done].
  cbn [mbind option_bind] in H. apply remove_leaves_local in E; [|done].
  destruct (_ <=? cc); [by simplify_eq|]. by eapply IH.
Qed.

Lemma reduce_levels_local order : ∀ leaf_count color_count lv h leaf_count' lv' h',
  Forall P h →
  reduce_levels order leaf_count color_count lv h = Ret (leaf_count', lv', h') →
  Forall P h'.
Proof using P_fold_child.
  induction order as [|level order IH]; intros lc cc lv h lc' lv' h' HP H.
  { cbn in H. by simplify_eq. }
  cbn [reduce_levels] in H. destruct (lv !! level) as [[|node nodes]|]; [by eapply IH| |done].
  destruct (reduce_level (node :: nodes) lc cc h) as [[lc1 h1]|] eqn:E; [|done].
  cbn [lift bind] in H. apply reduce_level_local in E; [|done].
  destruct (lc1 <=? cc); [by simplify_eq|]. by eapply IH.
Qed.

Lemma build_palette_local leaves : ∀ palette palette_index color_count h palette' h',
  Forall P h →
  build_palette leaves palette palette_index color_count h = Ret (palette', h') →
  Forall P h'.
Proof using P_set_palette_index.
  induction leaves as [|node rest IH]; intros pal idx cc h pal' h' HP H.
  { cbn in H. by simplify_eq. }
  cbn [build_palette] in H. destruct (cc <=? idx); [by simplify_eq|].
  destruct (h !! node) as [n|] eqn:Hn; [|done]. cbn [lift bind] in H.
  destruct (if is_leaf n then _ else _) as [pal1| |]; [|done..]. cbn [bind] in H.
  eapply IH; [|exact H]. apply Forall_insert; [done|].
  apply P_set_palette_index. by eapply Forall_lookup_1.
Qed.

Lemma make_palette_local q color_count w palette q' w' :
  Forall P (heap w) →
  make_palette q color_count w = Ret (palette, q', w') → Forall P (heap w').
Proof using P_fold_child P_set_palette_index.
  intros HP H. unfold make_palette in H.
  destruct (get_leaves q w) as [L0| |]; [|done..]. cbn [bind] in H.
  destruct (reduce_levels _ _ _ _ _) as [[[lc lv] h1]| |] eqn:E; [|done..].
  cbn [bind] in H. apply reduce_levels_local in E; [|done].
  destruct (get_leaves _ _) as [L| |]; [|done..]. cbn [bind] in H.
  destruct (build_palette _ _ _ _ _) as [[pal h2]| |] eqn:E2; [|done..].
  cbn [bind] in H. simplify_eq. cbn. by eapply build_palette_local.
Qed.
End local.

(** ** The channels of the palette *)

Lemma channels_within_fresh lo hi : channels_within lo hi fresh_node.
Proof. unfold channels_within. cbn. lia. Qed.

Lemma channels_within_absorb lo hi n c :
  color_within lo hi c → channels_within lo hi n → channels_within lo hi (absorb n c).
Proof. unfold channels_within, color_within. cbn. lia. Qed.

Lemma channels_within_fold_child lo hi n node :
  channels_within lo hi n → channels_within lo hi node →
  channels_within lo hi (fold_child n node).
Proof. unfold channels_within. cbn. lia. Qed.

Lemma channels_within_average lo hi n c :
  channels_within lo hi n → get_color n = Ret c → color_within lo hi c.
Proof.
  unfold channels_within, get_color, color_within. intros (Hpc & Hr & Hg & Hb) H.
  destruct (Z.eqb_spec (pixel_count n) 0); [done|]. simplify_eq. cbn.
  assert (0 < pixel_count n) as Hpos by lia.
  split_and!; (apply Z.div_le_lower_bound || apply Z.div_le_upper_bound); lia.
Qed.

Lemma palette_within (max_depth : Z) (cs : list Color) (color_count lo hi : Z)
    q w palette q' w' :
  1 ≤ max_depth → Forall (color_within lo hi) cs →
  build max_depth cs = Ret (q, w) →
  make_palette q color_count w = Ret (palette, q', w') →
  Forall (color_within lo hi) palette.
Proof.
  intros HD Hcs Hb Hmp.
  destruct (build_inv max_depth cs) as (q0 & w0 & Hb0 & Hinv & _); [lia|].
  rewrite Hb in Hb0. injection Hb0 as <- <-.
  destruct (make_palette_spec max_depth q w color_count HD Hinv)
    as (palette0 & q0 & w0 & L & Hmp0 & _ & HL & _ & _ & _ & _ & _ & Hlen & Hidx).
  rewrite Hmp in Hmp0. injection Hmp0 as <- <- <-.
  assert (Forall (channels_within lo hi) (heap w')) as HP.
  { eapply (make_palette_local (channels_within lo hi)); [| | |exact Hmp].
    - apply channels_within_fold_child.
    - by intros n i.
    - eapply (build_local (channels_within lo hi)); [| | |exact Hb].
      + apply channels_within_fresh.
      + by intros n i k.
      + intros c n Hc. apply channels_within_absorb.
        rewrite Forall_forall in Hcs. by apply Hcs. }
  apply Forall_lookup_2. intros i c Hi.
  pose proof (lookup_lt_Some _ _ _ Hi) as Hlt. rewrite Hlen in Hlt.
  destruct (lookup_lt_is_Some_2 L i) as [a Ha]; [lia|].
  destruct (Hidx i a Ha) as (n & Hn & _ & Hres).
  rewrite decide_True in Hres by lia. destruct Hres as (_ & c' & Hc' & Hp).
  rewrite Hi in Hp. simplify_eq.
  eapply channels_within_average; [|exact Hc']. by eapply Forall_lookup_1.
Qed.

(** X8. If every channel of every added colour lies between [lo] and
    [hi], so does every channel of every palette entry; with 0 and 255
    the palette holds pixel values. *)
Theorem X8_palette_channels_within (max_depth : Z) (cs : list Color) (color_count lo hi : Z) :
  1 ≤ max_depth → Forall (color_within lo hi) cs →
  ∃ q w palette q' w',
    build max_depth cs = Ret (q, w)
    ∧ make_palette q color_count w = Ret (palette, q', w')
    ∧ Forall (color_within lo hi) palette.
Proof.
  intros HD Hcs. destruct (build_inv max_depth cs) as (q & w & Hb & Hinv & _); [lia|].
  destruct (make_palette_spec max_depth q w color_count HD Hinv)
    as (palette & q' & w' & L & Hmp & _).
  exists q, w, palette, q', w'. split_and!; [done..|].
  by eapply palette_within.
Qed.

Lemma X8_witness :
  ∃ q w palette q' w',
    build 8 [black; white] = Ret (q, w)
    ∧ make_palette q 1 w = Ret (palette, q', w')
    ∧ Forall (color_within 0 255) palette.
Proof.
  apply (X8_palette_channels_within 8 [black; white] 1 0 255); [lia|].
  repeat constructor; vm_compute; discriminate.
Defined.

(** ** The keys of the registry *)

Lemma add_level_node_keys lv level a lv' j :
  add_level_node lv level a = Ret lv' → lv !! j = None → lv' !! j = None.
Proof.
  unfold add_level_node. destruct (lv !! Z.of_nat level) as [l|] eqn:E; [|done].
  intros [= <-] Hj. rewrite lookup_insert_ne; [done|]. intros <-. congruence.
Qed.

Lemma Node_add_color_keys c j : ∀ fuel self level lv w lv' w',
  Node_add_color fuel self c level lv w = Ret (lv', w') → lv !! j = None → lv' !! j = None.
Proof.
  induction fuel as [|fuel IH]; intros self level lv w lv' w' H Hj; [done|].
  rewrite Node_add_color_S in H.
  destruct (heap w !! self) as [n|]; [|done]. cbn [lift bind] in H.
  destruct (MAX_DEPTH w <=? Z.of_nat level); [by simplify_eq|].
  destruct (child n (slot c level)) as [k|]; [by eapply IH|].
  unfold OctreeNode_init in H. destruct (Z.of_nat level <? MAX_DEPTH w - 1).
  - destruct (add_level_node lv level (length (heap w))) as [lv1| |] eqn:E; [|done..].
    cbn [bind] in H. eapply IH; [exact H|]. by eapply add_level_node_keys.
  - cbn [bind] in H. by eapply IH.
Qed.

Lemma add_colors_keys j cs : ∀ q w q' w',
  add_colors q cs w = Ret (q', w') → levels q !! j = None → levels q' !! j = None.
Proof.
  induction cs as [|c cs IH]; intros q w q' w' H Hj.
  { cbn in H. by simplify_eq. }
  cbn [add_colors] in H. unfold add_color in H.
  destruct (Node_add_color _ (root q) c 0 (levels q) w) as [[lv1 w1]| |] eqn:E; [|done..].
  cbn [bind] in H. eapply IH; [exact H|]. cbn. by eapply Node_add_color_keys.
Qed.

Lemma build_keys max_depth cs q w j :
  build max_depth cs = Ret (q, w) → ¬ (0 ≤ j < max_depth) → levels q !! j = None.
Proof.
  intros H Hj. unfold build in H.
  destruct (OctreeQuantizer_init max_depth world0) as [[q0 w0]| |] eqn:E; [|done..].
  cbn [bind] in H. eapply add_colors_keys; [exact H|].
  unfold OctreeQuantizer_init, OctreeNode_init in E. cbn [MAX_DEPTH heap world0] in E.
  assert (empty_levels max_depth !! j = None) as Hnone.
  { rewrite empty_levels_lookup. by rewrite decide_False. }
  destruct (Z.of_nat 0 <? max_depth - 1).
  - destruct (add_level_node _ _ _) as [lv1| |] eqn:E1; [|done..]. cbn [bind] in E.
    simplify_eq. cbn. by eapply add_level_node_keys.
  - cbn [bind] in E. by simplify_eq.
Qed.

Lemma heap_ok_alloc h : heap_ok h → heap_ok (h ++ [fresh_node]).
Proof.
  intros [Hs Ho Hp].
  assert (∀ a n, (h ++ [fresh_node]) !! a = Some n →
            h !! a = Some n ∨ n = fresh_node) as Hcase.
  { intros a n Ha. apply lookup_app_Some in Ha as [?|[_ Ha]]; [by left|right].
    apply list_elem_of_lookup_2, list_elem_of_singleton in Ha. done. }
  split.
  - intros a n [Ha| ->]%Hcase; [by eapply Hs|done].
  - intros a n i k [Ha| ->]%Hcase Hk; [|by rewrite child_fresh_node in Hk].
    rewrite length_app. destruct (Ho a n i k Ha Hk). simpl. lia.
  - intros a b na nb i j k [Ha| ->]%Hcase [Hb| ->]%Hcase Hi Hj;
      [by eapply Hp|by rewrite child_fresh_node in Hj|by rewrite child_fresh_node in Hi..].
Qed.

Lemma down_range_head (D : Z) : 1 ≤ D → ∃ rest, down_range D = (D - 1) :: rest.
Proof.
  intros HD. unfold down_range, range.
  replace (Z.to_nat D) with (Z.to_nat (D - 1) + 1)%nat by lia.
  rewrite seq_app, rev_app_distr. cbn. eexists. f_equal. lia.
Qed.

(** X9. After a second quantizer was constructed with a larger depth,
    [make_palette] on the first raises [KeyError] for the deepest level
    of the second, whatever [color_count] is: the reduction starts at
    the class-wide depth, for which the first registry has no list. *)
Theorem X9_make_palette_after_deeper_quantizer (max_depth1 max_depth2 : Z)
    (cs : list Color) :
  0 ≤ max_depth1 < max_depth2 →
  ∃ q1 w q2 w',
    build max_depth1 cs = Ret (q1, w)
    ∧ OctreeQuantizer_init max_depth2 w = Ret (q2, w')
    ∧ ∀ color_count, make_palette q1 color_count w' = Raise (KeyError (max_depth2 - 1)).
Proof.
  intros HD. destruct (build_inv max_depth1 cs) as (q1 & w & Hb & Hinv & _); [lia|].
  destruct (OctreeQuantizer_init_returns max_depth2 w) as [lv Hinit].
  pose proof (inv_static _ _ _ _ _ Hinv) as [Hd Hok Hr _ _].
  eexists q1, w, _, _. split_and!; [done|exact Hinit|].
  intros color_count. unfold make_palette, get_leaves. cbn [heap MAX_DEPTH].
  destruct (get_leaf_nodes_total (S (length (heap w ++ [fresh_node])))
              (heap w ++ [fresh_node]) (root q1)) as [L HL].
  { by apply heap_ok_alloc. }
  { rewrite length_app. simpl. lia. }
  { lia. }
  rewrite HL. cbn [lift bind].
  destruct (down_range_head max_depth2) as [rest ->]; [lia|]. cbn [reduce_levels].
  rewrite (build_keys max_depth1 cs q1 w (max_depth2 - 1) Hb) by lia. done.
Qed.

Lemma X9_witness :
  ∃ q1 w q2 w',
    build 8 [black; white] = Ret (q1, w)
    ∧ OctreeQuantizer_init 10 w = Ret (q2, w')
    ∧ ∀ color_count, make_palette q1 color_count w' = Raise (KeyError (10 - 1)).
Proof. apply (X9_make_palette_after_deeper_quantizer 8 10 [black; white]). lia. Defined.

(** ** Colours and their paths *)

Lemma slot_eq_bits (c c' : Color) (level : nat) :
  slot c level = slot c' level →
  Z.testbit (red c) (7 - Z.of_nat level) = Z.testbit (red c') (7 - Z.of_nat level)
  ∧ Z.testbit (green c) (7 - Z.of_nat level) = Z.testbit (green c') (7 - Z.of_nat level)
  ∧ Z.testbit (blue c) (7 - Z.of_nat level) = Z.testbit (blue c') (7 - Z.of_nat level).
Proof.
  unfold slot. intros H.
  pose proof (get_color_index_for_level_range c level).
  pose proof (get_color_index_for_level_range c' level).
  apply Z2Nat.inj in H; [|lia..].
  rewrite !get_color_index_for_level_branchIndex in H. unfold branchIndex, bit in H.
  destruct (Z.testbit (red c) _), (Z.testbit (green c) _), (Z.testbit (blue c) _),
    (Z.testbit (red c') _), (Z.testbit (green c') _), (Z.testbit (blue c') _);
    vm_compute in H; (done || discriminate).
Qed.

Lemma color_path_slot (c c' : Color) (len level : nat) :
  color_path c 0 len = color_path c' 0 len → (level < len)%nat →
  slot c level = slot c' level.
Proof.
  unfold color_path. intros H Hl.
  assert (map (slot c) (seq 0 len) !! level = Some (slot c level)) as H1.
  { change (map (slot c)) with (fmap (M := list) (slot c)).
    by rewrite list_lookup_fmap, lookup_seq_lt. }
  assert (map (slot c') (seq 0 len) !! level = Some (slot c' level)) as H2.
  { change (map (slot c')) with (fmap (M := list) (slot c')).
    by rewrite list_lookup_fmap, lookup_seq_lt. }
  rewrite H in H1. congruence.
Qed.

Lemma byte_eq (v v' : Z) :
  0 ≤ v < 256 → 0 ≤ v' < 256 →
  (∀ level : nat, (level < 8)%nat →
     Z.testbit v (7 - Z.of_nat level) = Z.testbit v' (7 - Z.of_nat level)) →
  v = v'.
Proof.
  intros Hv Hv' H. apply Z.bits_inj'. intros n Hn.
  destruct (decide (n < 8)) as [Hlt|Hge].
  - specialize (H (Z.to_nat (7 - n))). replace (7 - Z.of_nat (Z.to_nat (7 - n))) with n in H by lia.
    apply H. lia.
  - assert (∀ x, 0 ≤ x < 256 → Z.testbit x n = false) as Hhigh.
    { intros x Hx. destruct (decide (x = 0)) as [->|Hne]; [apply Z.bits_0|].
      apply Z.bits_above_log2; [lia|].
      assert (Z.log2 x < 8); [|lia]. apply Z.log2_lt_pow2; [lia|]. change (2 ^ 8) with 256. lia. }
    by rewrite !Hhigh.
Qed.

(** X11. In a quantizer of depth 8, two added colours whose channels are
    bytes are counted in the same node exactly when they are the same
    colour: before reduction no two pixel values share a leaf. *)
Theorem X11_one_leaf_per_color (cs : list Color) (c c' : Color) :
  c ∈ cs → c' ∈ cs → eight_bit c → eight_bit c' →
  ∃ q w z z',
    build 8 cs = Ret (q, w)
    ∧ walk (heap w) (root q) (color_path c 0 8) = Some z
    ∧ walk (heap w) (root q) (color_path c' 0 8) = Some z'
    ∧ (z = z' ↔ red c = red c' ∧ green c = green c' ∧ blue c = blue c').
Proof.
  intros Hc Hc' (Hr & Hg & Hb) (Hr' & Hg' & Hb').
  destruct (build_inv 8 cs) as (q & w & Hbuild & Hinv & Hpaths); [lia|].
  destruct (Hpaths c Hc) as [z Hz]. destruct (Hpaths c' Hc') as [z' Hz'].
  change (Z.to_nat 8) with 8%nat in *.
  exists q, w, z, z'. split_and!; [done..|].
  pose proof (inv_static _ _ _ _ _ Hinv) as [_ Hok _ _ _].
  split.
  - intros <-. pose proof (walk_inj _ _ _ _ _ Hok Hz Hz') as Hp.
    split_and!; apply byte_eq; try done; intros level Hl;
      by destruct (slot_eq_bits c c' level (color_path_slot c c' 8 level Hp Hl)) as (? & ? & ?).
  - intros (Er & Eg & Eb).
    assert (color_path c 0 8 = color_path c' 0 8) as Hp; [|rewrite Hp in Hz; congruence].
    unfold color_path. apply map_ext. intros level. unfold slot, get_color_index_for_level.
    by rewrite Er, Eg, Eb.
Qed.

Lemma X11_witness :
  ∃ q w z z',
    build 8 [black; white] = Ret (q, w)
    ∧ walk (heap w) (root q) (color_path black 0 8) = Some z
    ∧ walk (heap w) (root q) (color_path white 0 8) = Some z'
    ∧ (z = z' ↔ red black = red white ∧ green black = green white ∧ blue black = blue white).
Proof.
  apply (X11_one_leaf_per_color [black; white] black white).
  - apply elem_of_cons. left. reflexivity.
  - apply elem_of_cons. right. apply elem_of_cons. left. reflexivity.
  - vm_compute. repeat split; discriminate || reflexivity.
  - vm_compute. repeat split; discriminate || reflexivity.
Defined.

(** ** Sums over enumerated leaves *)

Lemma total_app F h ks1 ks2 : total F h (ks1 ++ ks2) = total F h ks1 + total F h ks2.
Proof.
  induction ks1 as [|k ks1 IH]; [done|]. cbn [app]. unfold total in *. cbn [foldr].
  rewrite IH. destruct (h !! k); lia.
Qed.

Lemma total_cons F h k ks :
  total F h (k :: ks) = match h !! k with Some n => F n | None => 0 end + total F h ks.
Proof. unfold total. cbn [foldr]. destruct (h !! k); lia. Qed.

Lemma absorbed_field F h n ks :
  (∀ n node, F (fold_child n node) = F n + F node) →
  F (absorbed h n ks) = F n + total F h ks.
Proof.
  intros HF. revert n. induction ks as [|k ks IH]; intros n.
  { unfold total. cbn. lia. }
  rewrite total_cons. cbn [absorbed foldl]. fold (absorbed h) in *.
  change (foldl _ ?a ks) with (absorbed h a ks). rewrite IH.
  destruct (h !! k); [rewrite HF|]; lia.
Qed.

(** Folding the leaves below [x] into [x] keeps the sum over the
    enumerated leaves, from whichever node the enumeration starts. *)
Lemma mass_step F h x nx nx' :
  heap_ok h → h !! x = Some nx → children nx' = children nx → is_leaf nx = false →
  (is_leaf nx' = true →
     (∀ k, k ∈ existing_children nx → ∃ node, h !! k = Some node ∧ is_leaf node = true)
     ∧ F nx' = total F h (existing_children nx)) →
  ∀ r, same_mass F r h (<[x := nx']> h).
Proof.
  intros Hok Hx Hch Hnl Hleaf r fuel. revert r.
  pose proof (lookup_lt_Some _ _ _ Hx) as Hxlt.
  induction fuel as [|fuel IH]; intros r L H; [done|].
  apply get_leaf_nodes_inv in H as (n & ms & Hr & -> & HF).
  set (h' := <[x := nx']> h) in *.
  assert (∃ n', h' !! r = Some n' ∧ children n' = children n) as (n' & Hr' & Hch').
  { destruct (decide (r = x)) as [->|Hne].
    - exists nx'. unfold h'. rewrite list_lookup_insert_eq by done. simplify_eq. done.
    - exists n. unfold h'. by rewrite list_lookup_insert_ne. }
  assert (∀ i m, leaf_contrib (get_leaf_nodes fuel h) h n i = Some m →
            ∃ m', leaf_contrib (get_leaf_nodes fuel h') h' n' i = Some m'
                  ∧ total F h' m' = total F h m) as Hslot.
  { intros i m. unfold leaf_contrib. rewrite (child_same_children n n' i Hch').
    destruct (child n i) as [k|] eqn:Hk; [|intros [= <-]; by exists []].
    destruct (h !! k) as [node|] eqn:Hnode; [|done]. cbn [mbind option_bind].
    destruct (decide (k = x)) as [->|Hne].
    - simplify_eq. rewrite Hnl. unfold h' at 2. rewrite list_lookup_insert_eq by done.
      cbn [mbind option_bind]. intros Hm. destruct (is_leaf nx') eqn:Hl'.
      + exists [x]. split; [done|]. destruct (Hleaf eq_refl) as [Hkids HFx].
        rewrite total_cons. unfold h'. rewrite list_lookup_insert_eq by done.
        destruct fuel as [|fuel']; [done|].
        rewrite (get_leaf_nodes_kids fuel' h x nx Hok Hx Hkids) in Hm. simplify_eq.
        rewrite HFx. change (total F (<[x:=nx']> h) []) with 0. lia.
      + by apply IH.
    - unfold h' at 2. rewrite list_lookup_insert_ne by done. rewrite Hnode.
      cbn [mbind option_bind]. destruct (is_leaf node).
      + intros [= <-]. exists [k]. split; [done|].
        rewrite !total_cons. unfold h'. rewrite list_lookup_insert_ne by done. done.
      + apply IH. }
  assert (∀ idx ms0,
            Forall2 (fun i m => leaf_contrib (get_leaf_nodes fuel h) h n i = Some m) idx ms0 →
            ∃ ms', Forall2 (fun i m' => leaf_contrib (get_leaf_nodes fuel h') h' n' i = Some m')
                           idx ms'
                   ∧ total F h' (concat ms') = total F h (concat ms0)) as Hall.
  { induction 1 as [|i m idx ms0 Hi _ (ms' & HF' & Ht)].
    - exists []. split; [constructor|done].
    - destruct (Hslot i m Hi) as (m' & Hm' & Htm). exists (m' :: ms').
      split; [by constructor|]. cbn [concat]. rewrite !total_app. lia. }
  destruct (Hall _ _ HF) as (ms' & HF' & Ht).
  exists (concat ms'). split; [|done]. by apply (get_leaf_nodes_intro fuel h' r n').
Qed.

Lemma same_mass_refl F r h : same_mass F r h h.
Proof. intros fuel L HL. by exists L. Qed.

Lemma same_mass_trans F r h1 h2 h3 :
  same_mass F r h1 h2 → same_mass F r h2 h3 → same_mass F r h1 h3.
Proof.
  intros H12 H23 fuel L HL. destruct (H12 fuel L HL) as (L2 & HL2 & E2).
  destruct (H23 fuel L2 HL2) as (L3 & HL3 & E3). exists L3. split; [done|lia].
Qed.

(** ** The reduction, level by level *)

Lemma shape_ext D r h h' : Forall2 same_children h h' → shape D r h → shape D r h'.
Proof.
  intros Hsc (Hok & Hr & Hsh). split_and!.
  - by eapply heap_ok_ext.
  - by rewrite <- (Forall2_length _ _ _ Hsc).
  - intros p a n' Hp Hn'. rewrite (walk_ext h h') in Hp by done.
    destruct (Forall2_lookup_r _ _ _ _ _ Hsc Hn') as (n & Hn & Hch).
    destruct (Hsh p a n Hp Hn) as [Hle Hkid]. split; [done|].
    intros Hne Hlt. destruct (Hkid Hne Hlt) as (i & k & Hk). exists i, k.
    by rewrite (child_same_children n n' i Hch).
Qed.

Lemma same_children_trans h1 h2 h3 :
  Forall2 same_children h1 h2 → Forall2 same_children h2 h3 → Forall2 same_children h1 h3.
Proof.
  apply Forall2_trans_rel. unfold same_children. intros x y z H1 H2. congruence.
Qed.

Lemma empty_if_uncounted_fold F n node :
  (∀ n node, F (fold_child n node) = F n + F node) →
  empty_if_uncounted F n → empty_if_uncounted F node →
  empty_if_uncounted F (fold_child n node).
Proof.
  intros HF [Hn Hzn] [Hm Hzm]. unfold empty_if_uncounted. rewrite HF. cbn.
  split; [lia|]. intros H. rewrite Hzn, Hzm; lia.
Qed.

Lemma empty_if_uncounted_counted F h :
  Forall (empty_if_uncounted F) h → Forall counted h.
Proof. intros H. eapply Forall_impl; [exact H|]. by intros n [? _]. Qed.

Lemma StronglySorted_lt_NoDup (l : list nat) : StronglySorted lt l → NoDup l.
Proof.
  induction 1 as [|a l _ IH Hall]; [constructor|]. constructor; [|done].
  intros Ha. rewrite Forall_forall in Hall. specialize (Hall a Ha). lia.
Qed.

Lemma down_range_S (m : nat) :
  down_range (Z.of_nat (S m)) = Z.of_nat m :: down_range (Z.of_nat m).
Proof.
  unfold down_range, range. rewrite !Nat2Z.id, seq_S, rev_app_distr. done.
Qed.

(** Folding a node of depth [d] whose children all count pixels. *)
Lemma fold_step D r F h d x rest p :
  (∀ n node, F (fold_child n node) = F n + F node) →
  shape D r h → Forall (empty_if_uncounted F) h →
  frontier r h d (x :: rest) → x ∉ rest →
  (1 ≤ d)%nat → Z.of_nat d < D → length p = d → walk h r p = Some x →
  ∃ rr h1, remove_leaves h x = Some (rr, h1)
           ∧ Forall2 same_children h h1
           ∧ same_mass F r h h1
           ∧ frontier r h1 d rest.
Proof.
  intros HF (Hok & Hr & Hsh) HE Hfr Hx Hd HdD Hlen Hp.
  pose proof (empty_if_uncounted_counted F h HE) as Hcnt.
  destruct (lookup_lt_is_Some_2 h x) as [nx Hnx]; [by eapply walk_in_heap|].
  set (nx' := absorbed h nx (existing_children nx)).
  exists (Z.of_nat (length (existing_children nx)) - 1), (<[x := nx']> h).
  split; [by apply remove_leaves_spec|].
  assert (pixel_count nx = 0) as Hpc.
  { destruct (Hfr p x nx Hp Hnx) as (_ & Hb & _). specialize (Hb Hlen).
    rewrite decide_True in Hb by by left. done. }
  assert (∀ k, k ∈ existing_children nx →
            ∃ node, h !! k = Some node ∧ 0 < pixel_count node) as Hkids.
  { intros k (i & Hi & Hk)%existing_children_spec.
    destruct (ok_order h Hok x nx i k Hnx Hk) as [_ Hlt].
    destruct (lookup_lt_is_Some_2 h k Hlt) as [node Hnode]. exists node. split; [done|].
    assert (walk h r (p ++ [i]) = Some k) as Hw by (apply walk_snoc; by exists x, nx).
    destruct (Hfr _ _ _ Hw Hnode) as (Ha & _). apply Ha. rewrite length_app. simpl. lia. }
  assert (0 < pixel_count nx') as Hpos.
  { unfold nx'. rewrite absorbed_pixel_count, Hpc.
    destruct (Hsh p x nx Hp Hnx) as [_ Hkid].
    destruct Hkid as (i & k & Hk); [intros ->; simpl in Hlen; lia|lia|].
    assert (k ∈ existing_children nx) as Hin.
    { apply existing_children_spec. exists i. split; [|done].
      rewrite <- (ok_slots h Hok x nx Hnx). by eapply child_lt. }
    destruct (Hkids k Hin) as (node & Hnode & Hn).
    pose proof (total_pos h _ k node Hcnt Hin Hnode Hn). lia. }
  assert (children nx' = children nx) as Hch by apply absorbed_children.
  assert (Forall2 same_children h (<[x := nx']> h)) as Hsc by by eapply same_children_insert.
  split_and!; [done| |].
  - apply (mass_step F h x nx nx' Hok Hnx Hch).
    { unfold is_leaf. apply Z.ltb_ge. lia. }
    intros _. split.
    + intros k Hk. destruct (Hkids k Hk) as (node & Hnode & Hn). exists node.
      split; [done|]. unfold is_leaf. by apply Z.ltb_lt.
    + unfold nx'. rewrite (absorbed_field F h nx _ HF).
      rewrite Forall_forall in HE. destruct (HE nx) as [_ Hz]; [by eapply list_elem_of_lookup_2|].
      rewrite Hz by done. lia.
  - intros p' a n Hp' Hn. rewrite (walk_ext h) in Hp' by done.
    destruct (decide (a = x)) as [->|Hne].
    + rewrite list_lookup_insert_eq in Hn by by eapply lookup_lt_Some. simplify_eq.
      rewrite (walk_inj h r p' p x Hok Hp' Hp). split_and!; [lia| |lia].
      intros _. by rewrite decide_False.
    + rewrite list_lookup_insert_ne in Hn by done.
      destruct (Hfr p' a n Hp' Hn) as (Ha & Hb & Hc). split_and!; [done| |done].
      intros Hl. specialize (Hb Hl).
      destruct (decide (a ∈ x :: rest)) as [Hin|Hnin], (decide (a ∈ rest)) as [Hin'|Hnin'];
        try done.
      * apply elem_of_cons in Hin as [?|?]; done.
      * exfalso. apply Hnin. by right.
Qed.

(** Folding the root while the nodes of depth 1 count no pixel changes
    nothing that is counted. *)
Lemma root_fold_step D r F h rest :
  (∀ n node, F (fold_child n node) = F n + F node) →
  shape D r h → Forall (empty_if_uncounted F) h →
  frontier r h 1 rest →
  (∀ p a, length p = 1%nat → walk h r p = Some a → a ∈ rest) →
  ∃ rr h1, remove_leaves h r = Some (rr, h1)
           ∧ Forall2 same_children h h1
           ∧ same_mass F r h h1
           ∧ frontier r h1 1 rest.
Proof.
  intros HF (Hok & Hr & Hsh) HE Hfr Hall.
  destruct (lookup_lt_is_Some_2 h r Hr) as [nr Hnr].
  set (nr' := absorbed h nr (existing_children nr)).
  exists (Z.of_nat (length (existing_children nr)) - 1), (<[r := nr']> h).
  split; [by apply remove_leaves_spec|].
  assert (pixel_count nr = 0) as Hpc.
  { destruct (Hfr [] r nr eq_refl Hnr) as (_ & _ & Hc). apply Hc. simpl. lia. }
  assert (pixel_count nr' = 0) as Hpc'.
  { unfold nr'. rewrite absorbed_pixel_count, Hpc. rewrite total_zero; [done|].
    intros k node (i & Hi & Hk)%existing_children_spec Hnode.
    assert (walk h r [i] = Some k) as Hw.
    { rewrite walk_cons, Hnr. cbn. by rewrite Hk. }
    destruct (Hfr [i] k node Hw Hnode) as (_ & Hb & _). specialize (Hb eq_refl).
    rewrite decide_True in Hb; [done|]. by apply (Hall [i]). }
  assert (children nr' = children nr) as Hch by apply absorbed_children.
  assert (Forall2 same_children h (<[r := nr']> h)) as Hsc by by eapply same_children_insert.
  split_and!; [done| |].
  - apply (mass_step F h r nr nr' Hok Hnr Hch).
    { unfold is_leaf. apply Z.ltb_ge. lia. }
    unfold is_leaf. intros H%Z.ltb_lt. lia.
  - intros p' a n Hp' Hn. rewrite (walk_ext h) in Hp' by done.
    destruct (decide (a = r)) as [->|Hne].
    + rewrite list_lookup_insert_eq in Hn by done. simplify_eq.
      rewrite (walk_inj h r p' [] r Hok Hp' eq_refl). simpl. split_and!; [lia|lia|done].
    + rewrite list_lookup_insert_ne in Hn by done. by apply Hfr.
Qed.

Lemma reduce_level_mass D r F color_count d :
  (∀ n node, F (fold_child n node) = F n + F node) →
  (1 ≤ d)%nat → Z.of_nat d < D →
  ∀ nodes leaf_count h,
    shape D r h → Forall (empty_if_uncounted F) h →
    frontier r h d nodes → NoDup nodes →
    (∀ x, x ∈ nodes → ∃ p, length p = d ∧ walk h r p = Some x) →
    ∃ leaf_count' h',
      reduce_level nodes leaf_count color_count h = Some (leaf_count', h')
      ∧ Forall2 same_children h h'
      ∧ same_mass F r h h'
      ∧ (color_count < leaf_count' → frontier r h' d []).
Proof.
  intros HF Hd HdD. induction nodes as [|x rest IH]; intros lc h Hsh HE Hfr Hnd Hmem.
  { exists lc, h. split_and!; [done| |apply same_mass_refl|done].
    by apply Forall2_refl_rel. }
  apply NoDup_cons in Hnd as [Hx Hnd].
  destruct (Hmem x) as (p & Hlen & Hp); [by left|].
  destruct (fold_step D r F h d x rest p HF Hsh HE Hfr Hx Hd HdD Hlen Hp)
    as (rr & h1 & Hrl & Hsc & Hmass & Hfr1).
  cbn [reduce_level]. rewrite Hrl. cbn [mbind option_bind].
  destruct (Z.leb_spec (lc - rr) color_count) as [Hle|Hgt].
  { exists (lc - rr), h1. split_and!; [done..|lia]. }
  destruct (IH (lc - rr) h1) as (lc' & h' & Hrun & Hsc' & Hmass' & Hfr').
  - by eapply shape_ext.
  - eapply (remove_leaves_local (empty_if_uncounted F)); [|exact HE|exact Hrl].
    intros n node. by apply empty_if_uncounted_fold.
  - done.
  - done.
  - intros y Hy. destruct (Hmem y) as (q & Hq & Hw); [by right|]. exists q.
    split; [done|]. by rewrite (walk_ext h).
  - exists lc', h'. split_and!; [done| | |done].
    + by eapply same_children_trans.
    + by eapply same_mass_trans.
Qed.

Lemma reduce_level_root_mass D r F color_count :
  (∀ n node, F (fold_child n node) = F n + F node) →
  1 < D →
  ∀ nodes leaf_count h,
    shape D r h → Forall (empty_if_uncounted F) h →
    frontier r h 1 nodes → NoDup nodes →
    (∀ x, x ∈ nodes ↔ ∃ p, length p = 1%nat ∧ walk h r p = Some x) →
    ∃ leaf_count' h',
      reduce_level (r :: nodes) leaf_count color_count h = Some (leaf_count', h')
      ∧ Forall2 same_children h h'
      ∧ same_mass F r h h'
      ∧ (color_count < leaf_count' → frontier r h' 1 []).
Proof.
  intros HF HD nodes lc h Hsh HE Hfr Hnd Hmem.
  destruct (root_fold_step D r F h nodes HF Hsh HE Hfr) as (rr & h1 & Hrl & Hsc & Hmass & Hfr1).
  { intros p a Hlen Hp. apply Hmem. by exists p. }
  cbn [reduce_level]. rewrite Hrl. cbn [mbind option_bind].
  destruct (Z.leb_spec (lc - rr) color_count) as [Hle|Hgt].
  { exists (lc - rr), h1. split_and!; [done..|lia]. }
  destruct (reduce_level_mass D r F color_count 1 HF (le_n 1) ltac:(lia) nodes (lc - rr) h1)
    as (lc' & h' & Hrun & Hsc' & Hmass' & Hfr').
  - by eapply shape_ext.
  - eapply (remove_leaves_local (empty_if_uncounted F)); [|exact HE|exact Hrl].
    intros n node. by apply empty_if_uncounted_fold.
  - done.
  - done.
  - intros y Hy. destruct (proj1 (Hmem y) Hy) as (q & Hq & Hw). exists q.
    split; [done|]. by rewrite (walk_ext h).
  - exists lc', h'. split_and!; [done| | |done].
    + by eapply same_children_trans.
    + by eapply same_mass_trans.
Qed.

Lemma reg_below_weaken D r lv h j : reg_below D r lv h (S j) → reg_below D r lv h j.
Proof. intros H j' Hj'. apply H. lia. Qed.

Lemma reg_below_step D r lv h h1 j :
  reg_below D r lv h (S j) → Forall2 same_children h h1 →
  reg_below D r (<[Z.of_nat j := []]> lv) h1 j.
Proof.
  intros H Hsc j' Hj'. destruct (H j') as (l & Hl & Hs & Hmem); [lia|].
  exists l. rewrite lookup_insert_ne by lia. split_and!; [done..|].
  intros a. rewrite Hmem. split; intros (? & p & ? & Hw); (split; [done|]); exists p;
    (split; [done|]); [by rewrite (walk_ext h)|by rewrite (walk_ext h) in Hw].
Qed.

Lemma frontier_start D r h j l :
  reduced_below D r h (S j) → Z.of_nat (S j) < D →
  (∀ a, a ∈ l ↔ (Z.of_nat j + 1 < D ∧ ∃ p, length p = S j ∧ walk h r p = Some a)) →
  frontier r h (S j) l.
Proof.
  intros Hrb HD Hmem p a n Hp Hn. destruct (Hrb p a n Hp Hn) as [H1 H2]. split_and!.
  - intros Hlt. apply H1. by left.
  - intros Hlen. rewrite decide_True.
    + apply H2; lia.
    + apply Hmem. split; [lia|]. by exists p.
  - intros Hlt. apply H2; lia.
Qed.

Lemma frontier_end D r h j :
  shape D r h → frontier r h (S j) [] → Z.of_nat (S j) < D → reduced_below D r h j.
Proof.
  intros (_ & _ & Hsh) Hfr HD p a n Hp Hn. destruct (Hfr p a n Hp Hn) as (Ha & Hb & Hc).
  split.
  - intros Hcase. destruct (decide (length p = S j)) as [E|E].
    + specialize (Hb E). rewrite decide_False in Hb; [done|]. apply not_elem_of_nil.
    + apply Ha. lia.
  - intros Hle _. apply Hc. lia.
Qed.

Lemma reduce_levels_mass D r F color_count :
  (∀ n node, F (fold_child n node) = F n + F node) →
  ∀ (m : nat) leaf_count lv h,
    Z.of_nat m ≤ D → shape D r h → Forall (empty_if_uncounted F) h →
    reduced_below D r h m → reg_below D r lv h m →
    ∃ leaf_count' lv' h',
      reduce_levels (down_range (Z.of_nat m)) leaf_count color_count lv h
      = Ret (leaf_count', lv', h')
      ∧ Forall2 same_children h h'
      ∧ same_mass F r h h'.
Proof.
  intros HF. induction m as [|j IH]; intros lc lv h Hm Hsh HE Hrb Hreg.
  { exists lc, lv, h. split_and!; [done| |apply same_mass_refl]. by apply Forall2_refl_rel. }
  rewrite down_range_S. cbn [reduce_levels].
  destruct (Hreg j) as (l & Hl & Hsorted & Hmem); [lia|]. rewrite Hl.
  assert (∀ lc1 h1,
            Forall2 same_children h h1 → same_mass F r h h1 →
            Forall (empty_if_uncounted F) h1 →
            Z.of_nat (S j) < D → (color_count < lc1 → frontier r h1 (S j) []) →
            ∃ leaf_count' lv' h',
              (if lc1 <=? color_count then Ret (lc1, lv, h1)
               else reduce_levels (down_range (Z.of_nat j)) lc1 color_count
                      (<[Z.of_nat j := []]> lv) h1)
              = Ret (leaf_count', lv', h')
              ∧ Forall2 same_children h h' ∧ same_mass F r h h') as Hnext.
  { intros lc1 h1 Hsc Hmass HE1 HD Hfr.
    destruct (Z.leb_spec lc1 color_count) as [Hle|Hgt]; [by exists lc1, lv, h1|].
    pose proof (shape_ext D r h h1 Hsc Hsh) as Hsh1.
    destruct (IH lc1 (<[Z.of_nat j := []]> lv) h1) as (lc' & lv' & h' & Hrun & Hsc' & Hmass');
      [lia|done|done| | |].
    - apply (frontier_end D r h1 j Hsh1); [by apply Hfr|done].
    - by eapply reg_below_step.
    - exists lc', lv', h'. split_and!; [done| |].
      + by eapply same_children_trans.
      + by eapply same_mass_trans. }
  pose proof (StronglySorted_lt_NoDup l Hsorted) as Hnd.
  destruct (decide (j = 0%nat ∧ 1 < D)) as [[-> HD]|Hno].
  - cbn [app].
    destruct (reduce_level_root_mass D r F color_count HF HD l lc h Hsh HE)
      as (lc1 & h1 & Hrun & Hsc & Hmass & Hfr); [|done| |].
    + apply (frontier_start D); [done|lia|done].
    + intros x. rewrite Hmem. split; [by intros [_ ?]|]. intros ?. split; [lia|done].
    + rewrite Hrun. cbn [lift bind]. apply Hnext; [done|done| |lia|done].
      pose proof Hrun as Hrun'. cbn [reduce_level] in Hrun'.
      destruct (remove_leaves h r) as [[rr h0]|] eqn:Hrl; [|done].
      eapply (reduce_level_local (empty_if_uncounted F)); [|exact HE|exact Hrun].
      intros n node. by apply empty_if_uncounted_fold.
  - cbn [app]. destruct l as [|x l'].
    + apply IH; [lia|done|done| |by apply reg_below_weaken].
      intros p a n Hp Hn. destruct (Hrb p a n Hp Hn) as [H1 H2]. split; [|intros; apply H2; lia].
      intros Hcase. apply H1. destruct (decide (length p = S j)) as [E|E]; [|lia].
      right. destruct Hsh as (_ & _ & Hsh). destruct (Hsh p a n Hp Hn) as [Hle _].
      destruct (decide (Z.of_nat (length p) = D)) as [|Hne]; [done|].
      assert (a ∈ @nil nat) as Hin; [|by apply elem_of_nil in Hin].
      apply Hmem. split; [lia|]. by exists p.
    + assert (Z.of_nat (S j) < D) as HD.
      { destruct (proj1 (Hmem x)) as [? _]; [by left|lia]. }
      destruct (reduce_level_mass D r F color_count (S j) HF ltac:(lia) HD (x :: l') lc h Hsh HE)
        as (lc1 & h1 & Hrun & Hsc & Hmass & Hfr); [|done| |].
      * by apply (frontier_start D).
      * intros y Hy. by destruct (proj1 (Hmem y) Hy) as [_ ?].
      * rewrite Hrun. cbn [lift bind]. apply Hnext; [done|done| |done|done].
        eapply (reduce_level_local (empty_if_uncounted F)); [|exact HE|exact Hrun].
        intros n node. by apply empty_if_uncounted_fold.
Qed.

Lemma total_rel (R : OctreeNode → OctreeNode → Prop) F h h' ks :
  Forall2 R h h' → (∀ n n', R n n' → F n' = F n) → total F h' ks = total F h ks.
Proof.
  intros HR HF. induction ks as [|k ks IH]; [done|]. rewrite !total_cons, IH. f_equal.
  destruct (h !! k) as [n|] eqn:Hk.
  - destruct (Forall2_lookup_l _ _ _ _ _ HR Hk) as (n' & -> & Hn). by apply HF.
  - rewrite (lookup_ge_None_2 h' k); [done|].
    rewrite <- (Forall2_length _ _ _ HR). by apply lookup_ge_None.
Qed.

Lemma inv_shape D q w :
  1 ≤ D → inv D (root q) (levels q) w (root q) →
  shape D (root q) (heap w)
  ∧ reduced_below D (root q) (heap w) (Z.to_nat D)
  ∧ reg_below D (root q) (levels q) (heap w) (Z.to_nat D).
Proof.
  intros HD [[Hd Hok Hr _ _] Hdepth Hreg Hfull].
  assert (∀ p a, walk (heap w) (root q) p = Some a → p ≠ [] → a ≠ root q) as Hnr.
  { intros p a Hp Hne ->. by apply Hne, (walk_inj (heap w) (root q) p [] (root q) Hok Hp). }
  split_and!.
  - split_and!; [done..|]. intros p a n Hp Hn. destruct (Hdepth p a n Hp Hn) as [Hle _].
    split; [done|]. intros Hne Hlt.
    destruct (Hfull p a n Hp Hn) as [Hkid _]; [by eapply Hnr|]. by apply Hkid.
  - intros p a n Hp Hn. destruct (Hdepth p a n Hp Hn) as [Hle Hz]. split.
    + intros Hcase. assert (Z.of_nat (length p) = D) as E by lia.
      destruct (Hfull p a n Hp Hn) as [_ Hpos]; [|by apply Hpos].
      apply (Hnr p); [done|]. intros ->. simpl in E. lia.
    + intros _ Hlt. by apply Hz.
  - intros j Hj. apply Hreg. lia.
Qed.

(** [make_palette] keeps the sum of every additive field over the
    enumerated leaves. *)
Lemma make_palette_mass D q w color_count F palette q' w' L0 :
  (∀ n node, F (fold_child n node) = F n + F node) →
  (∀ n n', indexed n n' → F n' = F n) →
  1 ≤ D → inv D (root q) (levels q) w (root q) →
  Forall (empty_if_uncounted F) (heap w) →
  get_leaves q w = Ret L0 →
  make_palette q color_count w = Ret (palette, q', w') →
  ∃ L, get_leaves q' w' = Ret L ∧ total F (heap w') L = total F (heap w) L0.
Proof.
  intros HF HFi HD Hinv HE HL0 Hmp.
  destruct (inv_shape D q w HD Hinv) as (Hsh & Hrb & Hreg).
  pose proof (inv_static _ _ _ _ _ Hinv) as [Hd Hok Hr _ _].
  unfold make_palette in Hmp. rewrite HL0 in Hmp. cbn [bind] in Hmp.
  rewrite Hd in Hmp. rewrite <- (Z2Nat.id D) in Hmp at 1 by lia.
  destruct (reduce_levels_mass D (root q) F color_count HF (Z.to_nat D)
              (Z.of_nat (length L0)) (levels q) (heap w))
    as (lc1 & lv1 & h1 & Hrun & Hsc & Hmass); [lia|done..|].
  rewrite Hrun in Hmp. cbn [bind] in Hmp.
  unfold get_leaves in HL0, Hmp. cbn [heap root] in Hmp.
  pose proof (Forall2_length _ _ _ Hsc) as Hlen1.
  destruct (get_leaf_nodes (S (length (heap w))) (heap w) (root q)) as [L0'|] eqn:HL0'; [|done].
  cbn in HL0. simplify_eq.
  destruct (Hmass _ _ HL0') as (L1 & HL1 & Ht1).
  rewrite <- Hlen1, HL1 in Hmp. cbn [lift bind] in Hmp.
  assert (heap_ok h1) as Hok1 by by eapply heap_ok_ext.
  destruct (build_palette_spec L1 [] 0 color_count h1) as (added & h2 & Hbp & _ & Hidx & _).
  { by eapply get_leaf_nodes_NoDup. }
  { intros a Ha. apply (reaches_leaf_is_leaf h1 (root q)).
    by apply (get_leaf_nodes_reaches _ h1 (root q) L1 a Hok1 HL1). }
  rewrite Hbp in Hmp. cbn [bind] in Hmp. simplify_eq. cbn [heap root].
  exists L1. split.
  - unfold get_leaves. cbn [heap root].
    rewrite (get_leaf_nodes_ext _ h1 h2) by by apply indexed_same_tree.
    rewrite <- (Forall2_length _ _ _ Hidx), <- Hlen1, HL1. done.
  - rewrite (total_rel indexed F h1 h2 L1 Hidx HFi). done.
Qed.

(** ** Sums over the store *)

Lemma sum_field_cons F n h : sum_field F (n :: h) = F n + sum_field F h.
Proof. done. Qed.

Lemma sum_field_app F h x : sum_field F (h ++ [x]) = sum_field F h + F x.
Proof.
  induction h as [|n h IH]; [unfold sum_field; cbn; lia|].
  cbn [app]. rewrite !sum_field_cons, IH. lia.
Qed.

Lemma sum_field_insert F h a n n' :
  h !! a = Some n → sum_field F (<[a := n']> h) = sum_field F h - F n + F n'.
Proof.
  revert a. induction h as [|m h IH]; intros a Ha; [done|]. destruct a as [|a].
  - cbn in Ha. simplify_eq. cbn [insert list_insert]. rewrite !sum_field_cons. lia.
  - cbn in Ha. change (<[S a := n']> (m :: h)) with (m :: <[a := n']> h).
    rewrite !sum_field_cons, (IH a Ha). lia.
Qed.

Lemma total_seq F h : total F h (seq 0 (length h)) = sum_field F h.
Proof.
  assert (∀ pre, total F (pre ++ h) (seq (length pre) (length h)) = sum_field F h) as H.
  { induction h as [|x h IH]; intros pre; [done|]. cbn [length seq].
    rewrite total_cons, list_lookup_middle by done.
    specialize (IH (pre ++ [x])). rewrite <- app_assoc, length_app in IH. cbn in IH.
    rewrite Nat.add_1_r in IH. rewrite IH. done. }
  apply (H []).
Qed.

Lemma total_perm F h l1 l2 : l1 ≡ₚ l2 → total F h l1 = total F h l2.
Proof.
  induction 1 as [|x l1 l2 _ IH|x y l|l1 l2 l3 _ IH1 _ IH2].
  - done.
  - by rewrite !total_cons, IH.
  - rewrite !total_cons. lia.
  - congruence.
Qed.

Lemma total_filter F h (P : nat → Prop) `{∀ x, Decision (P x)} ks :
  (∀ k n, k ∈ ks → ¬ P k → h !! k = Some n → F n = 0) →
  total F h (filter P ks) = total F h ks.
Proof.
  induction ks as [|k ks IH]; intros Hz; [done|].
  assert (total F h (filter P ks) = total F h ks) as IH'.
  { apply IH. intros k' n Hk'. apply Hz. by right. }
  destruct (decide (P k)) as [Hk|Hk].
  - rewrite filter_cons_True by done. by rewrite !total_cons, IH'.
  - rewrite filter_cons_False by done. rewrite total_cons, IH'.
    destruct (h !! k) as [n|] eqn:Hn; [|done]. rewrite (Hz k n); [done|by left|done..].
Qed.

(** ** Sums while colours are added *)

Lemma Node_add_color_sum F g c :
  F fresh_node = 0 → (∀ n i k, F (set_child n i k) = F n) →
  (∀ n, F (absorb n c) = F n + g c) →
  ∀ fuel self level lv w lv' w',
    Node_add_color fuel self c level lv w = Ret (lv', w') →
    sum_field F (heap w') = sum_field F (heap w) + g c.
Proof.
  intros Hfresh Hset Habs.
  induction fuel as [|fuel IH]; intros self level lv w lv' w' H; [done|].
  rewrite Node_add_color_S in H.
  destruct (heap w !! self) as [n|] eqn:Hn; [|done]. cbn [lift bind] in H.
  destruct (MAX_DEPTH w <=? Z.of_nat level).
  { simplify_eq. unfold set_node. cbn [heap]. rewrite (sum_field_insert F _ self n) by done.
    rewrite Habs. lia. }
  destruct (child n (slot c level)) as [k|]; [by eapply IH|].
  unfold OctreeNode_init in H.
  assert (sum_field F (<[self := set_child n (slot c level) (length (heap w))]>
                         (heap w ++ [fresh_node])) = sum_field F (heap w)) as Hsum.
  { rewrite (sum_field_insert F _ self n) by by apply lookup_app_l_Some.
    rewrite sum_field_app, Hfresh, Hset. lia. }
  destruct (Z.of_nat level <? MAX_DEPTH w - 1).
  - destruct (add_level_node lv level (length (heap w))) as [lv1| |]; [|done..].
    cbn [bind] in H. apply IH in H. unfold set_node in H. cbn [heap] in H.
    rewrite H, Hsum. done.
  - cbn [bind] in H. apply IH in H. unfold set_node in H. cbn [heap] in H.
    rewrite H, Hsum. done.
Qed.

Lemma add_colors_sum F g cs :
  F fresh_node = 0 → (∀ n i k, F (set_child n i k) = F n) →
  (∀ n c, F (absorb n c) = F n + g c) →
  ∀ q w q' w', add_colors q cs w = Ret (q', w') →
    sum_field F (heap w') = sum_field F (heap w) + channel_sum g cs.
Proof.
  intros Hfresh Hset Habs. induction cs as [|c cs IH]; intros q w q' w' H.
  { cbn in H. simplify_eq. unfold channel_sum. cbn [foldr]. lia. }
  cbn [add_colors] in H. unfold add_color in H.
  destruct (Node_add_color _ (root q) c 0 (levels q) w) as [[lv1 w1]| |] eqn:E; [|done..].
  cbn [bind] in H. apply IH in H.
  apply (Node_add_color_sum F g c Hfresh Hset (fun n => Habs n c)) in E.
  rewrite H, E. unfold channel_sum. cbn [foldr]. lia.
Qed.

Lemma build_sum F g max_depth cs q w :
  F fresh_node = 0 → (∀ n i k, F (set_child n i k) = F n) →
  (∀ n c, F (absorb n c) = F n + g c) →
  build max_depth cs = Ret (q, w) → sum_field F (heap w) = channel_sum g cs.
Proof.
  intros Hfresh Hset Habs H. unfold build in H.
  destruct (OctreeQuantizer_init_returns max_depth world0) as [lv Hinit].
  rewrite Hinit in H. cbn [bind] in H.
  apply (add_colors_sum F g cs Hfresh Hset Habs) in H. rewrite H. cbn [heap world0 app].
  rewrite sum_field_cons, Hfresh. unfold sum_field. cbn [foldr]. lia.
Qed.

(** ** Every node is below the root *)

Lemma Node_add_color_reach D r c fuel :
  ∀ self level lv w p lv' w',
    inv D r lv w self → walk (heap w) r p = Some self → length p = level →
    Z.of_nat level ≤ D → (Z.to_nat D - level < fuel)%nat →
    all_reachable r (heap w) →
    Node_add_color fuel self c level lv w = Ret (lv', w') →
    all_reachable r (heap w').
Proof.
  induction fuel as [|fuel IH]; intros self level lv w p lv' w' Hinv Hp Hlen Hle Hfuel Hall H;
    [lia|].
  pose proof (inv_static _ _ _ _ _ Hinv) as Hst.
  pose proof (walk_in_heap _ r p self (st_ok _ _ _ Hst) (st_root _ _ _ Hst) Hp) as Hself.
  destruct (lookup_lt_is_Some_2 _ _ Hself) as [n Hn].
  rewrite Node_add_color_S, Hn in H. cbn [lift bind] in H. rewrite (st_depth _ _ _ Hst) in H.
  destruct (Z.leb_spec D (Z.of_nat level)) as [Hge|Hlt].
  - destruct (inv_absorb D r lv w self n c p Hinv Hn Hp) as [_ Hw]; [lia|].
    simplify_eq. intros a Ha. cbn in Ha. rewrite length_insert in Ha.
    destruct (Hall a Ha) as [q Hq]. exists q. by rewrite Hw.
  - destruct (child n (slot c level)) as [k|] eqn:Hk.
    + eapply (IH k (S level) lv w (p ++ [slot c level])); [| | | | |done|exact H].
      * eapply inv_descend; [done..|lia].
      * apply walk_snoc. by exists self, n.
      * rewrite length_app. simpl. lia.
      * lia.
      * lia.
    + destruct (inv_create D r lv w self n c p level Hinv Hn Hp Hlen Hlt Hk)
        as (lv1 & w1 & Hinit & Hinv1 & Hwalk1 & Hkeep1).
      rewrite Hinit in H. cbn [bind] in H.
      assert (heap w1 = heap w ++ [fresh_node]) as Hw1.
      { unfold OctreeNode_init in Hinit. destruct (Z.of_nat level <? MAX_DEPTH w - 1).
        - destruct (add_level_node lv level (length (heap w))); [|done..].
          cbn [bind] in Hinit. by simplify_eq.
        - by simplify_eq. }
      eapply (IH (length (heap w)) (S level) lv1 _ (p ++ [slot c level]));
        [exact Hinv1|exact Hwalk1| | | | |exact H].
      * rewrite length_app. simpl. lia.
      * lia.
      * lia.
      * intros a Ha. cbn in Ha. rewrite length_insert, Hw1, length_app in Ha. simpl in Ha.
        destruct (decide (a = length (heap w))) as [->|Hne].
        -- by eexists.
        -- destruct (Hall a) as [q Hq]; [lia|]. exists q. by apply Hkeep1.
Qed.

Lemma add_colors_reach D cs : ∀ q w q' w',
  0 ≤ D → inv D (root q) (levels q) w (root q) → all_reachable (root q) (heap w) →
  add_colors q cs w = Ret (q', w') → all_reachable (root q) (heap w').
Proof.
  induction cs as [|c cs IH]; intros q w q' w' HD Hinv Hall H.
  { cbn in H. by simplify_eq. }
  destruct (add_color_inv D q c w Hinv) as (q1 & w1 & Hrun & Hroot & Hinv1 & _).
  cbn [add_colors] in H. rewrite Hrun in H. cbn [bind] in H.
  rewrite <- Hroot in *. eapply (IH q1 w1); [done|done| |exact H].
  unfold add_color in Hrun.
  destruct (Node_add_color _ (root q) c 0 (levels q) w) as [[lv2 w2]| |] eqn:E; [|done..].
  cbn [bind] in Hrun. simplify_eq. cbn [root] in *.
  eapply (Node_add_color_reach D (root q) c _ (root q) 0%nat (levels q) w []);
    [done|done|done|lia| |done|exact E].
  rewrite (st_depth _ _ _ (inv_static _ _ _ _ _ Hinv)). lia.
Qed.

Lemma build_reach D cs q w :
  0 ≤ D → build D cs = Ret (q, w) → all_reachable (root q) (heap w).
Proof.
  intros HD H. unfold build in H.
  destruct (OctreeQuantizer_init_inv D world0 HD eq_refl) as (q0 & w0 & Hinit & Hr0 & Hinv0).
  destruct (OctreeQuantizer_init_returns D world0) as [lv Hret].
  rewrite Hinit in Hret. simplify_eq. rewrite Hinit in H. cbn [bind] in H.
  destruct (add_colors_inv D cs _ _ Hinv0) as (q' & w' & Hrun & Hroot & _).
  rewrite Hrun in H. simplify_eq. rewrite Hroot.
  eapply (add_colors_reach D cs); [done|exact Hinv0| |exact Hrun].
  intros a Ha. cbn in Ha. assert (a = 0%nat) as -> by lia. by exists [].
Qed.

(** ** Before the reduction *)

Lemma walk_reaches_leaf h : ∀ p x a na,
  walk h x p = Some a → p ≠ [] → h !! a = Some na → is_leaf na = true →
  (∀ q b nb, q ≠ [] → (length q < length p)%nat → walk h x q = Some b →
     h !! b = Some nb → is_leaf nb = false) →
  reaches_leaf h x a.
Proof.
  induction p as [|i p IH]; intros x a na Hw Hne Ha Hl Hmid; [done|].
  rewrite walk_cons in Hw. destruct (h !! x) as [n|] eqn:Hx; [|done]. cbn in Hw.
  destruct (child n i) as [k|] eqn:Hk; [|done]. cbn in Hw.
  destruct p as [|j p].
  { simpl in Hw. simplify_eq. by eapply reaches_child. }
  assert (∃ nk, h !! k = Some nk) as [nk Hnk].
  { rewrite walk_cons in Hw. destruct (h !! k); [by eexists|done]. }
  eapply (reaches_below h x n i k nk); [done..| |].
  - apply (Hmid [i] k nk); [done|simpl; lia| |done].
    rewrite walk_cons, Hx. cbn. by rewrite Hk.
  - apply (IH k a na Hw); [done|done|done|].
    intros q b nb Hq Hlen Hwq Hb. apply (Hmid (i :: q) b nb); [done|simpl in *; lia| |done].
    rewrite walk_cons, Hx. cbn. by rewrite Hk.
Qed.

(** Before the reduction the enumerated leaves hold everything that the
    store holds. *)
Lemma leaves_total F D q w L :
  1 ≤ D → inv D (root q) (levels q) w (root q) →
  all_reachable (root q) (heap w) → Forall (empty_if_uncounted F) (heap w) →
  get_leaves q w = Ret L →
  total F (heap w) L = sum_field F (heap w).
Proof.
  intros HD [[_ Hok Hr _ _] Hdepth _ _] Hall HE HL.
  unfold get_leaves in HL.
  destruct (get_leaf_nodes _ (heap w) (root q)) as [L'|] eqn:HL'; [|done].
  cbn in HL. simplify_eq.
  pose proof (get_leaf_nodes_NoDup _ _ _ _ Hok HL') as Hnd.
  pose proof (fun a => get_leaf_nodes_reaches _ _ _ _ a Hok HL') as Hmem.
  rewrite <- total_seq.
  rewrite <- (total_filter F (heap w) (fun a => a ∈ L) (seq 0 (length (heap w)))).
  - apply total_perm, NoDup_Permutation; [done|apply NoDup_filter, NoDup_seq|].
    intros a. rewrite list_elem_of_filter, elem_of_seq. split; [|by intros [? _]].
    intros Ha. split; [done|]. apply Hmem in Ha.
    destruct (reaches_leaf_is_leaf _ _ _ Ha) as (n & Hn & _).
    apply lookup_lt_Some in Hn. lia.
  - intros k n Hk Hnin Hn. rewrite Forall_forall in HE.
    destruct (HE n) as [Hpc Hz]; [by eapply list_elem_of_lookup_2|]. apply Hz.
    destruct (decide (pixel_count n = 0)) as [|Hne]; [done|]. exfalso. apply Hnin.
    destruct (Hall k) as [p Hp]; [by eapply lookup_lt_Some|].
    destruct (Hdepth p k n Hp Hn) as [Hle Hzero].
    assert (Z.of_nat (length p) = D) as Hlen.
    { destruct (decide (Z.of_nat (length p) = D)); [done|]. exfalso. apply Hne, Hzero. lia. }
    apply Hmem. apply (walk_reaches_leaf (heap w) p (root q) k n Hp).
    + intros ->. simpl in Hlen. lia.
    + done.
    + unfold is_leaf. apply Z.ltb_lt. lia.
    + intros q0 b nb _ Hlt Hq0 Hb. destruct (Hdepth q0 b nb Hq0 Hb) as [_ Hz0].
      unfold is_leaf. apply Z.ltb_ge. rewrite Hz0; lia.
Qed.

(** ** Nothing is lost *)

Lemma channel_sum_ones cs : channel_sum (fun _ => 1) cs = Z.of_nat (length cs).
Proof.
  induction cs as [|c cs IH]; [done|]. unfold channel_sum in *. cbn [foldr length].
  rewrite IH. lia.
Qed.

(** From the colours added to the leaves left by [make_palette]: the sum
    of an additive field over the enumerated leaves is the sum over
    the added colours. *)
Lemma field_conserved F g D cs color_count q w palette q' w' L :
  F fresh_node = 0 → (∀ n i k, F (set_child n i k) = F n) →
  (∀ n c, F (absorb n c) = F n + g c) →
  (∀ n node, F (fold_child n node) = F n + F node) →
  (∀ n n', indexed n n' → F n' = F n) →
  1 ≤ D → build D cs = Ret (q, w) → inv D (root q) (levels q) w (root q) →
  make_palette q color_count w = Ret (palette, q', w') →
  get_leaves q' w' = Ret L →
  total F (heap w') L = channel_sum g cs.
Proof.
  intros Hfresh Hset Habs Hfold Hidx HD Hb Hinv Hmp HL.
  pose proof (inv_static _ _ _ _ _ Hinv) as [_ Hok Hr _ _].
  assert (Forall (empty_if_uncounted F) (heap w)) as HE.
  { eapply (build_local (empty_if_uncounted F)); [| | |exact Hb].
    - unfold empty_if_uncounted. rewrite Hfresh. cbn. lia.
    - intros n i k. unfold empty_if_uncounted. rewrite Hset. done.
    - intros c n _ [Hpc _]. unfold empty_if_uncounted. cbn. lia. }
  destruct (get_leaf_nodes_total (S (length (heap w))) (heap w) (root q) Hok Hr) as [L0 HL0];
    [lia|].
  assert (get_leaves q w = Ret L0) as HL0' by (unfold get_leaves; by rewrite HL0).
  destruct (make_palette_mass D q w color_count F palette q' w' L0 Hfold Hidx HD Hinv HE
              HL0' Hmp) as (L' & HL' & Ht).
  rewrite HL in HL'. simplify_eq. rewrite Ht.
  rewrite (leaves_total F D q w L0 HD Hinv); [|by apply (build_reach D cs); [lia|]|done..].
  by apply (build_sum F g D cs q w).
Qed.

(** X12. Whatever [color_count] is, [make_palette] loses no pixel: over
    the leaves enumerated afterwards the pixel counts sum to the number
    of colours that were added, and the sums of each channel sum to the
    channel's sum over the added colours. *)
Theorem X12_pixels_conserved (max_depth : Z) (cs : list Color) (color_count : Z) :
  1 ≤ max_depth →
  ∃ q w palette q' w' L,
    build max_depth cs = Ret (q, w)
    ∧ make_palette q color_count w = Ret (palette, q', w')
    ∧ get_leaves q' w' = Ret L
    ∧ total pixel_count (heap w') L = Z.of_nat (length cs)
    ∧ total (fun n => red (color n)) (heap w') L = channel_sum red cs
    ∧ total (fun n => green (color n)) (heap w') L = channel_sum green cs
    ∧ total (fun n => blue (color n)) (heap w') L = channel_sum blue cs.
Proof.
  intros HD. destruct (build_inv max_depth cs) as (q & w & Hb & Hinv & _); [lia|].
  destruct (make_palette_spec max_depth q w color_count HD Hinv)
    as (palette & q' & w' & L & Hmp & _ & HL & _).
  exists q, w, palette, q', w', L. split_and!; [done..| | | |].
  - rewrite <- channel_sum_ones.
    apply (field_conserved pixel_count (fun _ => 1) max_depth cs color_count q w palette q' w');
      try done.
    by intros n n' (_ & ? & _).
  - apply (field_conserved (fun n => red (color n)) red max_depth cs color_count q w
             palette q' w'); try done.
    intros n n' (_ & _ & Hc). by rewrite Hc.
  - apply (field_conserved (fun n => green (color n)) green max_depth cs color_count q w
             palette q' w'); try done.
    intros n n' (_ & _ & Hc). by rewrite Hc.
  - apply (field_conserved (fun n => blue (color n)) blue max_depth cs color_count q w
             palette q' w'); try done.
    intros n n' (_ & _ & Hc). by rewrite Hc.
Qed.

Lemma X12_witness :
  ∃ q w palette q' w' L,
    build 8 [black; white] = Ret (q, w)
    ∧ make_palette q 1 w = Ret (palette, q', w')
    ∧ get_leaves q' w' = Ret L
    ∧ total pixel_count (heap w') L = Z.of_nat (length [black; white])
    ∧ total (fun n => red (color n)) (heap w') L = channel_sum red [black; white]
    ∧ total (fun n => green (color n)) (heap w') L = channel_sum green [black; white]
    ∧ total (fun n => blue (color n)) (heap w') L = channel_sum blue [black; white].
Proof. apply (X12_pixels_conserved 8 [black; white] 1). lia. Defined.

(** ** The first reduction *)

Lemma Node_add_color_alloc c : ∀ fuel self level lv w lv' w',
  Node_add_color fuel self c level lv w = Ret (lv', w') →
  MAX_DEPTH w' = MAX_DEPTH w
  ∧ (length (heap w') ≤ length (heap w) + (Z.to_nat (MAX_DEPTH w) - level))%nat.
Proof.
  induction fuel as [|fuel IH]; intros self level lv w lv' w' H; [done|].
  rewrite Node_add_color_S in H.
  destruct (heap w !! self) as [n|] eqn:Hn; [|done]. cbn [lift bind] in H.
  destruct (Z.leb_spec (MAX_DEPTH w) (Z.of_nat level)) as [Hge|Hlt].
  { simplify_eq. cbn. rewrite length_insert. split; [done|lia]. }
  destruct (child n (slot c level)) as [k|].
  { destruct (IH _ _ _ _ _ _ H) as [-> Hlen]. split; [done|lia]. }
  unfold OctreeNode_init in H.
  assert (∀ lv1,
            Node_add_color fuel (length (heap w)) c (S level) lv1
              (set_node (mkWorld (MAX_DEPTH w) (heap w ++ [fresh_node])) self
                 (set_child n (slot c level) (length (heap w)))) = Ret (lv', w') →
            MAX_DEPTH w' = MAX_DEPTH w
            ∧ (length (heap w') ≤ length (heap w) + (Z.to_nat (MAX_DEPTH w) - level))%nat)
    as Hgo.
  { intros lv1 H1. destruct (IH _ _ _ _ _ _ H1) as [-> Hlen]. cbn in *.
    rewrite length_insert, length_app in Hlen. simpl in Hlen. split; [done|lia]. }
  destruct (Z.of_nat level <? MAX_DEPTH w - 1).
  - destruct (add_level_node lv level (length (heap w))) as [lv1| |]; [|done..].
    cbn [bind] in H. by eapply Hgo.
  - cbn [bind] in H. by eapply Hgo.
Qed.

Lemma color_path_snoc c from len :
  color_path c from (S len) = color_path c from len ++ [slot c (from + len)].
Proof. unfold color_path. by rewrite seq_S, map_app. Qed.

Lemma color_path_agree c c' from len :
  (∀ level, (level < from + len)%nat →
     get_color_index_for_level c level = get_color_index_for_level c' level) →
  color_path c from len = color_path c' from len.
Proof.
  intros H. unfold color_path. apply map_ext_in. intros level Hin%in_seq.
  unfold slot. rewrite H; [done|lia].
Qed.

(** Two colours that select the same slots down to a leaf end at the
    same node. *)
Lemma descend_agree h c c' : ∀ m fuel x level z nz,
  walk h x (color_path c level m) = Some z → h !! z = Some nz → is_leaf nz = true →
  color_path c level m = color_path c' level m →
  Node_descend fuel h x c level = Node_descend fuel h x c' level.
Proof.
  induction m as [|m IH]; intros fuel x level z nz Hw Hz Hl Hpath.
  - simpl in Hw. simplify_eq. destruct fuel as [|fuel]; [done|].
    rewrite !Node_descend_S, Hz. cbn. by rewrite Hl.
  - destruct fuel as [|fuel]; [done|]. rewrite !Node_descend_S.
    rewrite !color_path_cons in Hpath. injection Hpath as Hslot Hrest.
    rewrite color_path_cons, walk_cons in Hw.
    destruct (h !! x) as [n|]; [|done]. cbn in *.
    destruct (is_leaf n); [done|]. rewrite <- Hslot.
    destruct (child n (slot c level)) as [k|]; [|done]. cbn in Hw. by eapply IH.
Qed.

Lemma add_colors_root cs : ∀ q w q' w', add_colors q cs w = Ret (q', w') → root q' = root q.
Proof.
  induction cs as [|c cs IH]; intros q w q' w' H.
  { cbn in H. by simplify_eq. }
  cbn [add_colors] in H. unfold add_color in H.
  destruct (Node_add_color _ _ _ _ _ _) as [[lv1 w1]| |]; [|done..].
  cbn [bind] in H. by apply IH in H.
Qed.

(** The first colour's node of depth [D - 1] is the node at address
    [D - 1], and it heads the deepest list of the registry that holds
    nodes. *)
Lemma first_color_node (m : nat) c0 cs :
  (2 ≤ m)%nat →
  ∃ q w l',
    build (Z.of_nat (S m)) (c0 :: cs) = Ret (q, w)
    ∧ root q = 0%nat
    ∧ inv (Z.of_nat (S m)) (root q) (levels q) w (root q)
    ∧ walk (heap w) (root q) (color_path c0 0 m) = Some m
    ∧ levels q !! Z.of_nat (m - 1) = Some (m :: l')
    ∧ levels q !! Z.of_nat m = Some [].
Proof.
  intros Hm. set (D := Z.of_nat (S m)).
  destruct (OctreeQuantizer_init_inv D world0 ltac:(lia) eq_refl)
    as (q0 & w0 & Hinit & Hr0 & Hinv0).
  destruct (OctreeQuantizer_init_returns D world0) as [lv0 Hret].
  rewrite Hinit in Hret. injection Hret as -> ->. cbn [root levels] in *.
  set (q0 := mkQuantizer lv0 0) in *.
  set (w0 := mkWorld D (heap world0 ++ [fresh_node])) in *.
  destruct (add_color_inv D q0 c0 w0 Hinv0) as (q1 & w1 & Hrun1 & Hroot1 & Hinv1 & _ & Hpath1).
  assert (length (heap w1) ≤ S (S m))%nat as Hlen1.
  { unfold add_color in Hrun1.
    destruct (Node_add_color _ (root q0) c0 0 (levels q0) w0) as [[lv2 w2]| |] eqn:E; [|done..].
    cbn [bind] in Hrun1. simplify_eq.
    destruct (Node_add_color_alloc _ _ _ _ _ _ _ _ E) as [_ Hlen]. cbn in Hlen.
    unfold D in Hlen. rewrite Nat2Z.id in Hlen. lia. }
  cbn [root] in *. rewrite <- Hroot1 in Hinv1.
  destruct (add_colors_inv D cs q1 w1 Hinv1) as (q & w & Hrun & Hroot & Hinv & Hkeep & _).
  rewrite Hroot1 in Hroot, Hinv, Hkeep, Hinv1. clear Hroot1.
  pose proof (inv_static _ _ _ _ _ Hinv1) as [_ Hok1 _ _ _].
  assert (walk (heap w1) 0 (color_path c0 0 m) = Some m) as Hz1.
  { destruct Hpath1 as [zD HzD]. unfold D in HzD. rewrite Nat2Z.id in HzD.
    rewrite color_path_snoc in HzD. apply walk_snoc in HzD as (z1 & n1 & Hz1 & Hn1 & Hk).
    pose proof (walk_length _ _ _ _ Hok1 Hz1) as Hge. rewrite color_path_length in Hge.
    destruct (ok_order _ Hok1 z1 n1 _ zD Hn1 Hk) as [Hlt Hlt'].
    assert (z1 = m) as -> by lia. done. }
  pose proof (Hkeep _ _ Hz1) as Hz.
  destruct Hinv as [Hst Hdepth Hreg Hfull]. pose proof Hst as [_ Hok _ _ _].
  assert (∃ l', levels q !! Z.of_nat (m - 1) = Some (m :: l')) as [l' Hl'].
  { destruct (Hreg (m - 1)%nat) as (l & Hl & Hsorted & Hmem); [lia|].
    rewrite decide_False in Hl by lia. cbn [app] in Hl.
    assert (m ∈ l) as Hin.
    { apply Hmem. split; [lia|]. exists (color_path c0 0 m).
      rewrite color_path_length. split; [lia|done]. }
    destruct l as [|x l]; [by apply elem_of_nil in Hin|].
    assert (m ≤ x)%nat as Hge.
    { destruct (proj1 (Hmem x)) as (_ & p & Hp & Hw); [by left|].
      pose proof (walk_length _ _ _ _ Hok Hw). lia. }
    apply StronglySorted_inv in Hsorted as [_ Hall].
    apply elem_of_cons in Hin as [->|Hin]; [by exists l|].
    rewrite Forall_forall in Hall. specialize (Hall m Hin). lia. }
  assert (levels q !! Z.of_nat m = Some []) as Hl0.
  { destruct (Hreg m) as (l & Hl & _ & Hmem); [lia|].
    rewrite decide_False in Hl by lia. cbn [app] in Hl.
    destruct l as [|x l]; [done|]. destruct (proj1 (Hmem x)) as [? _]; [by left|lia]. }
  exists q, w, l'. rewrite Hroot. split_and!; [|done|by split|done..].
  subst q0 w0. unfold build. rewrite Hinit. cbn [bind add_colors].
  change (heap world0 ++ [fresh_node]) with [fresh_node] in Hrun1. rewrite Hrun1. cbn [bind]. done.
Qed.

Lemma counts_at_fold kids n node :
  counts_at kids n → counts_at kids node → counts_at kids (fold_child n node).
Proof. unfold counts_at. cbn. intros [? Hn] [? _]. split; [lia|]. intros E. specialize (Hn E). lia. Qed.

(** The node that heads the deepest registry list that holds nodes is
    folded whatever [color_count] is, and counts pixels from then on. *)
Lemma first_node_reduced (j : nat) q w z l' p color_count palette q' w' :
  (1 ≤ j)%nat →
  inv (Z.of_nat (S (S j))) (root q) (levels q) w (root q) →
  length p = S j → walk (heap w) (root q) p = Some z →
  levels q !! Z.of_nat j = Some (z :: l') → levels q !! Z.of_nat (S j) = Some [] →
  make_palette q color_count w = Ret (palette, q', w') →
  ∃ n', heap w' !! z = Some n' ∧ is_leaf n' = true.
Proof.
  intros Hj Hinv Hlen Hp Hl' Hl0 Hmp.
  destruct (make_palette_spec (Z.of_nat (S (S j))) q w color_count ltac:(lia) Hinv)
    as (palette0 & q0 & w0 & L & Hmp0 & _ & _ & _ & _ & Hrel & _).
  rewrite Hmp in Hmp0. injection Hmp0 as <- <- <-.
  destruct Hinv as [[Hd Hok Hr _ Hcnt] Hdepth _ Hfull].
  destruct (lookup_lt_is_Some_2 (heap w) z) as [nz Hnz]; [by eapply walk_in_heap|].
  assert (∀ q0 a, walk (heap w) (root q) q0 = Some a → q0 ≠ [] → a ≠ root q) as Hnr.
  { intros q0 a Hq0 Hne ->. by apply Hne, (walk_inj (heap w) (root q) q0 [] (root q) Hok Hq0). }
  assert (p ≠ []) as Hpne by (intros ->; simpl in Hlen; lia).
  destruct (Hfull p z nz Hp Hnz) as [Hkid _]; [by eapply Hnr|].
  destruct Hkid as (i & k & Hk); [done|lia|].
  set (P := counts_at (children nz)).
  set (h1 := <[z := absorbed (heap w) nz (existing_children nz)]> (heap w)).
  assert (Forall P h1) as HP1.
  { apply Forall_lookup_2. intros a n Ha. unfold h1 in Ha.
    destruct (decide (a = z)) as [->|Hne].
    - rewrite list_lookup_insert_eq in Ha by by eapply lookup_lt_Some. simplify_eq.
      assert (0 < pixel_count (absorbed (heap w) nz (existing_children nz))); [|split; [lia|done]].
      rewrite absorbed_pixel_count.
      pose proof (Forall_lookup_1 _ _ _ _ Hcnt Hnz) as Hc. unfold counted in Hc.
      destruct (ok_order _ Hok z nz i k Hnz Hk) as [_ Hlt].
      destruct (lookup_lt_is_Some_2 _ k Hlt) as [nk Hnk].
      assert (walk (heap w) (root q) (p ++ [i]) = Some k) as Hwk.
      { apply walk_snoc. by exists z, nz. }
      destruct (Hfull _ _ _ Hwk Hnk) as [_ Hpos]; [apply (Hnr (p ++ [i])); [done|by destruct p]|].
      assert (k ∈ existing_children nz) as Hin.
      { apply existing_children_spec. exists i. split; [|done].
        rewrite <- (ok_slots _ Hok z nz Hnz). by eapply child_lt. }
      pose proof (total_pos (heap w) _ k nk Hcnt Hin Hnk) as Ht.
      rewrite length_app in Hpos. simpl in Hpos. specialize (Ht (Hpos ltac:(lia))). lia.
    - rewrite list_lookup_insert_ne in Ha by done. split.
      + apply (Forall_lookup_1 _ _ _ _ Hcnt Ha).
      + intros E. exfalso. apply Hne.
        assert (child n i = Some k) as Hk' by (unfold child in *; by rewrite E).
        by destruct (ok_parent _ Hok a z n nz i i k Ha Hnz Hk' Hk). }
  assert (Forall P (heap w')) as HP.
  { unfold make_palette in Hmp.
    destruct (get_leaves q w) as [L0| |]; [|done..]. cbn [bind] in Hmp.
    rewrite Hd in Hmp. rewrite !down_range_S in Hmp.
    cbn [reduce_levels] in Hmp. rewrite Hl0 in Hmp. rewrite Hl' in Hmp.
    cbn [reduce_level] in Hmp. rewrite (remove_leaves_spec (heap w) z nz Hok Hnz) in Hmp.
    cbn [mbind option_bind] in Hmp. fold h1 in Hmp.
    destruct (if _ <=? color_count then _ else _) as [[lc1 h2]|] eqn:E1; [|done].
    assert (Forall P h2) as HP2.
    { destruct (_ <=? color_count); [by simplify_eq|].
      eapply (reduce_level_local P); [|exact HP1|exact E1]. apply counts_at_fold. }
    cbn [lift bind] in Hmp.
    assert (∀ lv3 h3 dd,
              Forall P h3 →
              (do leaves <- get_leaves (mkQuantizer lv3 (root q)) (mkWorld dd h3);
               do (palette, h') <- build_palette leaves [] 0 color_count h3;
               Ret (palette, mkQuantizer lv3 (root q), mkWorld dd h'))
              = Ret (palette, q', w') → Forall P (heap w')) as Htail.
    { intros lv3 h3 dd HP3 Ht.
      destruct (get_leaves _ _) as [L3| |]; [|done..]. cbn [bind] in Ht.
      destruct (build_palette _ _ _ _ _) as [[pal h4]| |] eqn:E4; [|done..].
      cbn [bind] in Ht. simplify_eq. cbn [heap].
      eapply (build_palette_local P); [|exact HP3|exact E4].
      intros n i0 [? ?]. by split. }
    destruct (lc1 <=? color_count).
    - cbn [bind] in Hmp. by eapply Htail.
    - destruct (reduce_levels _ _ _ _ h2) as [[[lc3 lv3] h3]| |] eqn:E3; [|done..].
      cbn [bind] in Hmp. eapply Htail; [|exact Hmp].
      eapply (reduce_levels_local P); [|exact HP2|exact E3]. apply counts_at_fold. }
  destruct (Forall2_lookup_l _ _ _ _ _ Hrel Hnz) as (n' & Hn' & Hch & _).
  exists n'. split; [done|]. destruct (Forall_lookup_1 _ _ _ _ HP Hn') as [_ Hpos].
  unfold is_leaf. apply Z.ltb_lt. by apply Hpos.
Qed.

(** X13. In a quantizer of depth at least 3, any colour that selects the
    same slots as the first added colour at all levels but the last is
    looked up to the same palette index as the first colour, whatever
    [color_count] is: the node above the first colour's leaf is always
    folded, also when the palette has room for every leaf. *)
Theorem X13_first_color_merged (max_depth : Z) (c0 : Color) (cs : list Color)
    (color_count : Z) (c : Color) :
  3 ≤ max_depth →
  (∀ level : nat, Z.of_nat level < max_depth - 1 →
     get_color_index_for_level c level = get_color_index_for_level c0 level) →
  ∃ q w palette q' w',
    build max_depth (c0 :: cs) = Ret (q, w)
    ∧ make_palette q color_count w = Ret (palette, q', w')
    ∧ get_palette_index q' c w' = get_palette_index q' c0 w'.
Proof.
  intros HD Hsame.
  assert (∃ j : nat, max_depth = Z.of_nat (S (S j)) ∧ (1 ≤ j)%nat) as (j & -> & Hj).
  { exists (Z.to_nat max_depth - 2)%nat. lia. }
  destruct (first_color_node (S j) c0 cs ltac:(lia)) as (q & w & l' & Hb & Hr0 & Hinv & Hz & Hl' & Hl0).
  replace (S j - 1)%nat with j in Hl' by lia.
  destruct (make_palette_spec (Z.of_nat (S (S j))) q w color_count ltac:(lia) Hinv)
    as (palette & q' & w' & L & Hmp & Hroot & _ & _ & _ & Hrel & _).
  exists q, w, palette, q', w'. split_and!; [done..|].
  destruct (first_node_reduced j q w (S j) l' (color_path c0 0 (S j)) color_count palette q' w')
    as (n' & Hn' & Hleaf); [lia|done|by rewrite color_path_length|done..|].
  assert (color_path c 0 (S j) = color_path c0 0 (S j)) as Hpath.
  { apply color_path_agree. intros level Hl. apply Hsame. lia. }
  rewrite !get_palette_index_descent. unfold descent_end.
  rewrite (descend_agree (heap w') c c0 (S j) _ (root q') 0 (S j) n'); [done| |done..].
  rewrite Hpath, Hroot. rewrite (walk_ext (heap w)); [done|].
  eapply Forall2_impl; [exact Hrel|]. by intros n1 n2 [? _].
Qed.

Lemma X13_witness :
  ∃ q w palette q' w',
    build 8 (black :: [white]) = Ret (q, w)
    ∧ make_palette q 256 w = Ret (palette, q', w')
    ∧ get_palette_index q' (Color_init 1 1 1) w' = get_palette_index q' black w'.
Proof.
  apply (X13_first_color_merged 8 black [white] 256 (Color_init 1 1 1)); [lia|].
  intros level Hl.
  assert (level < 7)%nat as Hlt by lia.
  do 7 (destruct level as [|level]; [reflexivity|]). lia.
Defined.

(** ** The pixels written by the invocation *)

(** X14. If every channel of every pixel of the image is a byte, every
    channel of every pixel the invocation writes is a byte. *)
Theorem X14_invoke_writes_bytes (image : Image) (final_colors : Z) (w : World) :
  heap w = [] →
  length (Image_data image) = (fst (Image_size image) * snd (Image_size image))%nat →
  0 < final_colors →
  Forall (fun c => color_within 0 255 (pixel_color c)) (Image_data image) →
  ∃ image' w',
    invoke image final_colors w = HRet (image', w')
    ∧ Forall (fun c => color_within 0 255 (pixel_color c)) (Image_data image').
Proof.
  intros Hw Hl Hfc Hbytes.
  destruct (invoke_spec image final_colors w Hw Hl Hfc)
    as (q0 & w0 & palette & q' & w' & image' & Hb & Hmp & Hrun & _ & _ & Hpix).
  exists image', w'. split; [done|].
  assert (Forall (color_within 0 255) palette) as Hpal.
  { apply (palette_within 8 (pixel_color <$> Image_data image) final_colors 0 255
             q0 w0 palette q' w'); [lia| |done..].
    by apply Forall_fmap. }
  apply Forall_lookup_2. intros i v Hv.
  destruct (Forall2_lookup_r _ _ _ _ _ Hpix Hv) as (c & _ & k & col & _ & Hcol & ->).
  apply (Forall_lookup_1 _ _ _ _ Hpal Hcol).
Qed.

Lemma X14_witness :
  ∃ image' w',
    invoke two_pixels 1 world0 = HRet (image', w')
    ∧ Forall (fun c => color_within 0 255 (pixel_color c)) (Image_data image').
Proof.
  apply (X14_invoke_writes_bytes two_pixels 1 world0); [reflexivity|reflexivity|lia|].
  repeat constructor; vm_compute; discriminate.
Defined.

(** ** Adding a colour after a deeper quantizer was made *)

Lemma Node_add_color_deeper c ext : ∀ len fuel self level lv w z nz,
  walk (heap w) self (color_path c level len) = Some z →
  heap w !! z = Some nz → child nz (slot c (level + len)) = None →
  heap_ok (heap w) →
  Z.of_nat (level + len) < MAX_DEPTH w - 1 →
  lv !! Z.of_nat (level + len) = None →
  (len < fuel)%nat →
  Node_add_color fuel self c level lv (mkWorld (MAX_DEPTH w) (heap w ++ ext))
  = Raise (KeyError (Z.of_nat (level + len))).
Proof.
  induction len as [|len IH]; intros fuel self level lv w z nz Hw Hz Hnone Hok Hd Hlv Hf;
    (destruct fuel as [|fuel]; [lia|]); rewrite Node_add_color_S; cbn [heap MAX_DEPTH].
  - simpl in Hw. simplify_eq. rewrite Nat.add_0_r in *.
    rewrite (lookup_app_l_Some _ _ _ _ Hz). cbn [lift bind].
    destruct (Z.leb_spec (MAX_DEPTH w) (Z.of_nat level)); [lia|].
    rewrite Hnone. unfold OctreeNode_init. cbn [heap MAX_DEPTH].
    destruct (Z.ltb_spec (Z.of_nat level) (MAX_DEPTH w - 1)); [|lia].
    unfold add_level_node. by rewrite Hlv.
  - rewrite color_path_cons, walk_cons in Hw.
    destruct (heap w !! self) as [n|] eqn:Hn; [|done]. cbn in Hw.
    rewrite (lookup_app_l_Some _ _ _ _ Hn). cbn [lift bind].
    destruct (child n (slot c level)) as [k|] eqn:Hk; [|done]. cbn in Hw.
    destruct (Z.leb_spec (MAX_DEPTH w) (Z.of_nat level)); [lia|].
    replace (level + S len)%nat with (S level + len)%nat in * by lia.
    apply (IH fuel k (S level) lv w z nz); [done..|lia].
Qed.

(** X15. After a second quantizer was constructed with a depth larger by
    at least 2, adding to the first quantizer a colour it already holds
    raises [KeyError] for the first quantizer's depth: the descent goes
    on below the old leaf and registers the new node at a level for
    which the first registry has no list. *)
Theorem X15_add_color_after_deeper_quantizer (max_depth1 max_depth2 : Z)
    (cs : list Color) (c : Color) :
  0 ≤ max_depth1 → max_depth1 + 2 ≤ max_depth2 → c ∈ cs →
  ∃ q1 w q2 w',
    build max_depth1 cs = Ret (q1, w)
    ∧ OctreeQuantizer_init max_depth2 w = Ret (q2, w')
    ∧ add_color q1 c w' = Raise (KeyError max_depth1).
Proof.
  intros HD1 HD2 Hc.
  destruct (build_inv max_depth1 cs HD1) as (q1 & w & Hb & Hinv & Hpaths).
  destruct (OctreeQuantizer_init_returns max_depth2 w) as [lv Hinit].
  destruct Hinv as [[Hd Hok Hr _ _] Hdepth _ _].
  destruct (Hpaths c Hc) as [z Hz].
  destruct (lookup_lt_is_Some_2 (heap w) z) as [nz Hnz]; [by eapply walk_in_heap|].
  eexists q1, w, _, _. split_and!; [done|exact Hinit|].
  unfold add_color. cbn [MAX_DEPTH].
  rewrite (Node_add_color_deeper c [fresh_node] (Z.to_nat max_depth1) _ (root q1) 0 (levels q1)
             (mkWorld max_depth2 (heap w)) z nz); cbn [heap MAX_DEPTH].
  - cbn [bind]. do 2 f_equal. lia.
  - done.
  - done.
  - destruct (child nz _) as [k|] eqn:Hk; [|done]. exfalso.
    destruct (ok_order _ Hok z nz _ k Hnz Hk) as [_ Hlt].
    destruct (lookup_lt_is_Some_2 _ k Hlt) as [nk Hnk].
    assert (walk (heap w) (root q1)
              (color_path c 0 (Z.to_nat max_depth1)
               ++ [slot c (0 + Z.to_nat max_depth1)]) = Some k) as Hwk.
    { apply walk_snoc. by exists z, nz. }
    destruct (Hdepth _ _ _ Hwk Hnk) as [Hle _].
    rewrite length_app, color_path_length in Hle. simpl in Hle. lia.
  - done.
  - lia.
  - apply (build_keys max_depth1 cs q1 w); [done|lia].
  - lia.
Qed.

Lemma X15_witness :
  ∃ q1 w q2 w',
    build 8 [black; white] = Ret (q1, w)
    ∧ OctreeQuantizer_init 10 w = Ret (q2, w')
    ∧ add_color q1 white w' = Raise (KeyError 8).
Proof.
  apply (X15_add_color_after_deeper_quantizer 8 10 [black; white] white); [lia|lia|].
  apply elem_of_cons. right. apply elem_of_cons. left. reflexivity.
Defined.
